(** * SolSniper: a shallow embedding of the scan, price and promotion logic

    The development follows the layout of the Python package:
    - [Models]     app/models.py           (enums and table rows)
    - [PriceBot]   app/tasks/price_bot.py  (status rule and price sweep)
    - [Store]      the tables and the INSERTs of the database
    - [Analyzer]   app/tasks/analyzer.py   (metadata, signers, scan pipeline)
    - [Listener]   app/tasks/listener.py   (log extraction, seen-signature cap)
    - [Discovery]  app/tasks/wallet_discovery.py and app/routers/discovery.py
    - [Examples]   sample rows, transactions and signatures
    The properties follow, one module per source module.

    Conventions.  A [datetime] is an integer number of microseconds since
    the epoch (type [Z]); a [timedelta] is a difference of two of them.
    JSON numbers are rationals ([Q]).  A Python [str] is a [string]; the
    character classes ([isalnum], [lower], whitespace) are the ASCII ones.
    A database table is the list of its rows, in insertion order; the
    uniqueness constraints of the schema are checked where the database
    checks them, at INSERT. *)

From Stdlib Require Import ZArith QArith String Ascii List Lia Bool.
From stdpp Require Import base tactics option list strings pretty gmap mapset fin_sets
  sorting.

Set Warnings "-abstract-large-number".

Local Open Scope string_scope.
Local Open Scope Z_scope.

(** Python truthiness of an optional JSON number, as used by [x or y]:
    [None], [0] and [0.0] are falsy. *)
Definition num_or (x : option Q) (y : Q) : Q :=
  match x with
  | Some q => if Qeq_bool q 0 then y else q
  | None => y
  end.

Definition Qlt_b (x y : Q) : bool := negb (Qle_bool y x).
Definition Qge_b (x y : Q) : bool := Qle_bool y x.

(** ** app/models.py *)

Module Models.

Inductive WalletStatus := active | paused.
Inductive TokenStatus := bonding_curve | graduated | rugged.

#[export] Instance WalletStatus_eq_dec : EqDecision WalletStatus.
Proof. solve_decision. Defined.
#[export] Instance TokenStatus_eq_dec : EqDecision TokenStatus.
Proof. solve_decision. Defined.

Module TrackedWallet.
Record t := mk {
  address : string;            (* primary key *)
  label : string;
  win_rate : option Q;
  status : WalletStatus;
  source : option string;
  tracked_at : Z }.
End TrackedWallet.

Module Token.
Record t := mk {
  contract_address : string;   (* primary key *)
  symbol : string;
  created_at : Z;
  dev_address : string;
  market_cap_at_scan : Q;
  status : TokenStatus }.
End Token.

Module Signal.
Record t := mk {
  id : Z;                      (* primary key, assigned by the store *)
  token_address : string;
  smart_wallet_count : Z;
  timestamp : Z;
  confidence_score : Z;
  is_executed : bool }.
End Signal.

Module SmartWalletCandidate.
Record t := mk {
  id : Z;
  wallet_address : string;     (* unique *)
  token_count : Z;
  token_symbols : string;
  first_seen : Z;
  is_promoted : bool }.
End SmartWalletCandidate.

End Models.
Export Models.

(** ** app/tasks/price_bot.py *)

Module PriceBot.

Definition GRADUATED_MC : Q := 50000.
Definition RUGGED_MC : Q := 500.
Definition STALE_HOURS : Z := 48.

(** The fields of a DexScreener pair that the bot reads.  A field is
    [None] when the key is absent (or JSON null). *)
Record Pair := mkPair {
  marketCap : option Q;
  fdv : option Q;
  dexId : option string;
  liquidity_usd : option Q }.

(** [str.lower] on ASCII letters. *)
Definition lower_ascii (c : ascii) : ascii :=
  let n := N_of_ascii c in
  if ((65 <=? n) && (n <=? 90))%N then ascii_of_N (n + 32) else c.

Fixpoint lower (s : string) : string :=
  match s with
  | EmptyString => EmptyString
  | String c r => String (lower_ascii c) (lower r)
  end.

Definition graduated_dexes : list string :=
  ["raydium"; "meteora"; "orca"; "jupiter"].

(** [pair.get("marketCap") or pair.get("fdv") or 0] *)
Definition pair_mc (pair : Pair) : Q :=
  num_or (marketCap pair) (num_or (fdv pair) 0).

(** [pair.get("dexId", empty).lower()] *)
Definition pair_dex (pair : Pair) : string :=
  lower (default EmptyString (dexId pair)).

(** [pair.get("liquidity", {}).get("usd", 0) or 0] *)
Definition pair_liquidity (pair : Pair) : Q :=
  num_or (liquidity_usd pair) 0.

Definition _determine_status (pair : option Pair) (current_status : TokenStatus)
  : TokenStatus :=
  match pair with
  | None => current_status
  | Some p =>
    let mc := pair_mc p in
    let dex := pair_dex p in
    let liquidity := pair_liquidity p in
    if Qlt_b mc RUGGED_MC || (Qlt_b 0 mc && Qlt_b liquidity 100) then rugged
    else if bool_decide (dex ∈ graduated_dexes) && Qge_b mc GRADUATED_MC
    then graduated
    else if Qge_b mc (GRADUATED_MC * 2) then graduated
    else current_status
  end.

(** The filter of the query of lines 107-116. *)
Definition selected (tok : Token.t) : bool :=
  bool_decide (Token.status tok = bonding_curve)
  || bool_decide (Token.status tok = graduated).

Definition hour_us : Z := 3600 * 1000000.

(** [age_hours <= STALE_HOURS], on exact microseconds. *)
Definition fresh (now : Z) (tok : Token.t) : bool :=
  (now - Token.created_at tok <=? STALE_HOURS * hour_us)%Z.

(** Lines 144-157, for one token of [active_tokens]. *)
Definition update_token (pair : option Pair) (tok : Token.t) : Token.t :=
  let new_mc :=
    match pair with
    | Some p => if Qlt_b 0 (pair_mc p) then pair_mc p
                else Token.market_cap_at_scan tok
    | None => Token.market_cap_at_scan tok
    end in
  let new_status := _determine_status pair (Token.status tok) in
  Token.mk (Token.contract_address tok) (Token.symbol tok)
           (Token.created_at tok) (Token.dev_address tok)
           new_mc new_status.

Definition sweep_token (now : Z) (pair_data : gmap string Pair) (tok : Token.t)
  : Token.t :=
  if selected tok && fresh now tok
  then update_token (pair_data !! Token.contract_address tok) tok
  else tok.

(** One iteration of the [while True] loop of [price_updater], between
    the two sleeps: [now] is the clock reading, [pair_data] the result of
    [_fetch_token_data] and [tokens] the tokens table. *)
Definition price_sweep (now : Z) (pair_data : gmap string Pair)
           (tokens : list Token.t) : list Token.t :=
  map (sweep_token now pair_data) tokens.

(** The condition of line 78, as a proposition. *)
Definition rugged_cond (p : Pair) : Prop :=
  (pair_mc p < 500)%Q \/ ((0 < pair_mc p)%Q /\ (pair_liquidity p < 100)%Q).

(** The venue is on the allow-list of line 82. *)
Definition listed (p : Pair) : Prop := pair_dex p ∈ graduated_dexes.

(** A run of sweeps: each step has its clock reading and its market
    data. *)
Definition price_sweeps (steps : list (Z * gmap string Pair))
           (tokens : list Token.t) : list Token.t :=
  foldl (fun ts step => price_sweep step.1 step.2 ts) tokens steps.

End PriceBot.

(** ** The database

    Each table is the list of its rows.  [signals_seq] and
    [candidates_seq] are the sequences behind the two auto-increment
    primary keys. *)

Module Store.

Record DB := mkDB {
  tracked_wallets : list TrackedWallet.t;
  tokens : list Token.t;
  signals : list Signal.t;
  signals_seq : Z;
  smart_wallet_candidates : list SmartWalletCandidate.t;
  candidates_seq : Z }.

(** [session.get(Token, address)] *)
Definition get_token (address : string) (db : DB) : option Token.t :=
  find (fun t => bool_decide (Token.contract_address t = address)) (tokens db).

(** [session.get(TrackedWallet, address)] *)
Definition get_wallet (address : string) (db : DB) : option TrackedWallet.t :=
  find (fun w => bool_decide (TrackedWallet.address w = address))
       (tracked_wallets db).

Definition set_tokens (ts : list Token.t) (db : DB) : DB :=
  mkDB (tracked_wallets db) ts (signals db) (signals_seq db)
       (smart_wallet_candidates db) (candidates_seq db).

Definition set_wallets (ws : list TrackedWallet.t) (db : DB) : DB :=
  mkDB ws (tokens db) (signals db) (signals_seq db)
       (smart_wallet_candidates db) (candidates_seq db).

Definition set_candidates (cs : list SmartWalletCandidate.t) (db : DB) : DB :=
  mkDB (tracked_wallets db) (tokens db) (signals db) (signals_seq db)
       cs (candidates_seq db).

(** The outcome of a flush: the new database, or the duplicate-key
    error of the store, in which case the transaction is rolled back. *)
Inductive Flush := Committed (db : DB) | IntegrityError.

(** INSERT INTO tokens: the primary key must be fresh. *)
Definition insert_token (t : Token.t) (db : DB) : Flush :=
  match get_token (Token.contract_address t) db with
  | Some _ => IntegrityError
  | None => Committed (set_tokens (tokens db ++ [t]) db)
  end.

(** INSERT INTO signals: the id is drawn from the sequence; the foreign
    key must name an existing token. *)
Definition insert_signal (token_address : string) (smart_wallet_count : Z)
           (timestamp : Z) (confidence_score : Z) (db : DB) : Flush :=
  match get_token token_address db with
  | None => IntegrityError
  | Some _ =>
    let s := Signal.mk (signals_seq db) token_address smart_wallet_count
                       timestamp confidence_score false in
    Committed (mkDB (tracked_wallets db) (tokens db) (signals db ++ [s])
                    (signals_seq db + 1)
                    (smart_wallet_candidates db) (candidates_seq db))
  end.

(** INSERT INTO tracked_wallets: the primary key must be fresh. *)
Definition insert_wallet (w : TrackedWallet.t) (db : DB) : Flush :=
  match get_wallet (TrackedWallet.address w) db with
  | Some _ => IntegrityError
  | None => Committed (set_wallets (tracked_wallets db ++ [w]) db)
  end.

Definition flush_bind (f : Flush) (k : DB -> Flush) : Flush :=
  match f with
  | Committed db => k db
  | IntegrityError => IntegrityError
  end.

End Store.
Export Store.

(** ** app/tasks/analyzer.py *)

Module Analyzer.

(** The fields of a Helius enhanced transaction that the analyzer
    reads; [None] is an absent key. *)
Record Tx := mkTx {
  tx_type : option string;
  tx_source : option string;
  feePayer : option string;
  tx_timestamp : option Z }.    (* seconds since the epoch *)

(** What the HTTP GET of [_fetch_enhanced_transactions] can do: answer
    with a JSON list, answer with some other JSON value (an error
    object), time out, or raise another exception (HTTP status, bad
    JSON, transport). *)
Inductive Response :=
| Resp_list (txs : list Tx)
| Resp_other
| Resp_timeout
| Resp_raise.

Inductive Fetched :=
| Fetch_ok (txs : list Tx)
| TimeoutException
| Exception.

Definition _fetch_enhanced_transactions (r : Response) : Fetched :=
  match r with
  | Resp_list txs => Fetch_ok txs
  | Resp_other => Fetch_ok []
  | Resp_timeout => TimeoutException
  | Resp_raise => Exception
  end.

(** Everything one scan learns from outside the process. *)
Record World := mkWorld {
  meta_response : Response;     (* reply to the fetch of get_token_metadata *)
  meta_now : Z;                 (* datetime.now() in get_token_metadata *)
  das_symbol : option string;   (* metadata.symbol of getAsset, if any *)
  scan_now : Z;                 (* datetime.now() in scan_new_token *)
  signers_response : Response;  (* reply to the fetch of get_token_signers *)
  signal_now : Z }.             (* datetime.utcnow() of Signal.timestamp *)

Definition second_us : Z := 1000000.
Definition minute_us : Z := 60 * second_us.

(** [datetime.fromtimestamp(ts, tz=utc)]: years 1 to 9999, else an
    exception. *)
Definition MIN_TIMESTAMP : Z := -62135596800.
Definition MAX_TIMESTAMP : Z := 253402300799.

Definition fromtimestamp (ts : Z) : option Z :=
  if (MIN_TIMESTAMP <=? ts) && (ts <=? MAX_TIMESTAMP)
  then Some (ts * second_us) else None.

(** [if ts: created_at = datetime.fromtimestamp(ts, ...)] *)
Definition refine_created_at (ts : option Z) (created_at : Z) : option Z :=
  match ts with
  | Some t => if t =? 0 then Some created_at else fromtimestamp t
  | None => Some created_at
  end.

Definition pump_sources : list string := ["PUMP_FUN"; "PUMP_AMM"; "PUMP"].

(** [tx.get("source", empty) in ("PUMP_FUN", "PUMP_AMM", "PUMP")] *)
Definition is_pump (tx : Tx) : bool :=
  bool_decide (default EmptyString (tx_source tx) ∈ pump_sources).

Record Meta := mkMeta {
  symbol : string;
  created_at : Z;
  dev_address : string;
  market_cap : Q }.

(** [token_address[:6]] *)
Definition prefix6 (token_address : string) : string :=
  String.substring 0 6 token_address.

(** The body of the [try] of [get_token_metadata] once the
    transactions are there; [None] is an exception raised in it. *)
Definition metadata_of (w : World) (token_address : string) (txs : list Tx)
  : option Meta :=
  let created_at := meta_now w in
  let dev_address := "unknown" in
  '(created_at, dev_address) ←
    match last txs with
    | None => Some (created_at, dev_address)
    | Some oldest_tx =>
      created_at ← refine_created_at (tx_timestamp oldest_tx) created_at;
      let dev_address := default "unknown" (feePayer oldest_tx) in
      match find is_pump (rev txs) with
      | Some tx =>
        let dev_address := default dev_address (feePayer tx) in
        created_at ← refine_created_at (tx_timestamp tx) created_at;
        Some (created_at, dev_address)
      | None => Some (created_at, dev_address)
      end
    end;
  let symbol := default (prefix6 token_address) (das_symbol w) in
  Some (mkMeta symbol created_at dev_address 0).

Definition get_token_metadata (w : World) (token_address : string)
  : option Meta :=
  match _fetch_enhanced_transactions (meta_response w) with
  | Fetch_ok txs => metadata_of w token_address txs
  | TimeoutException => None
  | Exception => None
  end.

(** One iteration of the loop over [txs] in [get_token_signers]. *)
Definition add_signer (signers : gset string) (tx : Tx) : gset string :=
  match feePayer tx with
  | None => signers
  | Some fee_payer =>
    if bool_decide (fee_payer = EmptyString) then signers
    else if bool_decide (default EmptyString (tx_type tx) = "SWAP")
    then {[fee_payer]} ∪ signers
    else if is_pump tx then {[fee_payer]} ∪ signers
    else signers
  end.

Definition get_token_signers (w : World) : gset string :=
  match _fetch_enhanced_transactions (signers_response w) with
  | Fetch_ok txs => foldl add_signer ∅ txs
  | TimeoutException => ∅
  | Exception => ∅
  end.

(** The rows of [select(TrackedWallet).where(address.in_(signers),
    status == "active")]. *)
Definition select_matches (signers : gset string) (db : DB)
  : list TrackedWallet.t :=
  filter (fun w => bool_decide (TrackedWallet.address w ∈ signers)
                   && bool_decide (TrackedWallet.status w = active))
         (tracked_wallets db).

(** [min(50 + smart_wallet_count * 10, 100)] *)
Definition confidence_of (smart_wallet_count : Z) : Z :=
  Z.min (50 + smart_wallet_count * 10) 100.

(** Where a scan ends. *)
Inductive Outcome :=
| Already_scanned                      (* line 203 *)
| No_metadata                          (* line 209 *)
| Too_old                              (* line 221 *)
| Too_few (smart_wallet_count : Z)     (* line 238 *)
| Signal_generated (confidence : Z)    (* end of the function *)
| Raised_IntegrityError.               (* session.commit() raised *)

(** [session.add(token); session.add(signal); session.commit()]: one
    transaction, the token row first (the signal references it). *)
Definition persist (w : World) (token_address : string) (meta : Meta)
           (smart_wallet_count confidence : Z) (db : DB) : Flush :=
  let token := Token.mk token_address (symbol meta) (created_at meta)
                        (dev_address meta) (market_cap meta) bonding_curve in
  flush_bind (insert_token token db)
    (insert_signal token_address smart_wallet_count (signal_now w) confidence).

(** [scan_new_token], with the two suspension points made explicit:
    [during_metadata] and [during_signers] are what other writers commit
    to the database while the scan awaits [get_token_metadata] and
    [get_token_signers]. *)
Definition scan_new_token_among (during_metadata during_signers : DB -> DB)
           (w : World) (token_address : string) (db : DB) : Outcome * DB :=
  match get_token token_address db with
  | Some _ => (Already_scanned, db)
  | None =>
    let db := during_metadata db in
    match get_token_metadata w token_address with
    | None => (No_metadata, db)
    | Some meta =>
      let now := scan_now w in
      let age := now - created_at meta in
      if 10 * minute_us <? age then (Too_old, db)
      else
        let db := during_signers db in
        let signers := get_token_signers w in
        let matches := select_matches signers db in
        let smart_wallet_count := Z.of_nat (length matches) in
        if smart_wallet_count <? 2 then (Too_few smart_wallet_count, db)
        else
          let confidence := confidence_of smart_wallet_count in
          match persist w token_address meta smart_wallet_count confidence db
          with
          | Committed db' => (Signal_generated confidence, db')
          | IntegrityError => (Raised_IntegrityError, db)
          end
    end
  end.

(** [scan_new_token] with nobody else writing. *)
Definition scan_new_token (w : World) (token_address : string) (db : DB)
  : Outcome * DB :=
  scan_new_token_among id id w token_address db.

(** The candidate delivered [n] times in a row, every delivery meeting
    the world [w]. *)
Fixpoint deliver (n : nat) (w : World) (token_address : string) (db : DB)
  : DB :=
  match n with
  | O => db
  | S n => deliver n w token_address (snd (scan_new_token w token_address db))
  end.

(** The candidate delivered once per world of [ws], in order. *)
Definition deliver_all (ws : list World) (token_address : string) (db : DB)
  : DB :=
  foldl (fun db w => snd (scan_new_token w token_address db)) db ws.

(** The rows of [tokens] with a given address. *)
Definition tokens_at (address : string) (db : DB) : list Token.t :=
  filter (fun t => bool_decide (Token.contract_address t = address))
         (tokens db).

(** The scan got past the age filter, to the cross-reference of line
    224. *)
Definition reached_cross_reference (o : Outcome) : bool :=
  match o with
  | Too_few _ | Signal_generated _ | Raised_IntegrityError => true
  | Already_scanned | No_metadata | Too_old => false
  end.

(** [db] with the Token row and the Signal row of a scan added. *)
Definition with_signal (w : World) (token_address : string) (meta : Meta)
           (smart_wallet_count : Z) (db : DB) : DB :=
  mkDB (tracked_wallets db)
       (tokens db ++ [Token.mk token_address (symbol meta) (created_at meta)
                               (dev_address meta) (market_cap meta)
                               bonding_curve])
       (signals db ++ [Signal.mk (signals_seq db) token_address
                                 smart_wallet_count (signal_now w)
                                 (confidence_of smart_wallet_count) false])
       (signals_seq db + 1)
       (smart_wallet_candidates db) (candidates_seq db).

(** [smart_wallet_count] as the scan computes it on [db]. *)
Definition match_count (w : World) (db : DB) : Z :=
  Z.of_nat (length (select_matches (get_token_signers w) db)).

End Analyzer.

(** ** app/tasks/listener.py *)

Module Listener.

(** [needle in s] *)
Fixpoint contains (needle s : string) : bool :=
  String.prefix needle s
  || match s with
     | EmptyString => false
     | String _ r => contains needle r
     end.

(** The characters [str.split()] splits on (ASCII range). *)
Definition is_whitespace (c : ascii) : bool :=
  let n := N_of_ascii c in
  (((9 <=? n) && (n <=? 13)) || ((28 <=? n) && (n <=? 32)))%N.

(** [msg.split()]: the maximal runs of non-whitespace characters.
    [cur] is the run being read, last character first. *)
Fixpoint split_go (cur : list ascii) (s : string) : list string :=
  let flush := match cur with
               | [] => []
               | _ => [string_of_list_ascii (rev cur)]
               end in
  match s with
  | EmptyString => flush
  | String c r =>
    if is_whitespace c then flush ++ split_go [] r
    else split_go (c :: cur) r
  end.

Definition split (s : string) : list string := split_go [] s.

(** The argument of [strip]: comma, full stop, semicolon, colon, single
    quote, double quote and the two parentheses. *)
Definition strip_chars : list ascii :=
  ["," ; "." ; ";" ; ":" ; "'" ; ascii_of_nat 34 ; "(" ; ")"]%char.

Definition stripped (c : ascii) : bool := bool_decide (c ∈ strip_chars).

Fixpoint lstrip (l : list ascii) : list ascii :=
  match l with
  | c :: r => if stripped c then lstrip r else l
  | [] => []
  end.

(** [part.strip(...)] with the eight characters above. *)
Definition strip (s : string) : string :=
  string_of_list_ascii (rev (lstrip (rev (lstrip (list_ascii_of_string s))))).

Definition is_alnum (c : ascii) : bool :=
  let n := N_of_ascii c in
  (((48 <=? n) && (n <=? 57)) || ((65 <=? n) && (n <=? 90))
   || ((97 <=? n) && (n <=? 122)))%N.

(** [s.isalnum()]: at least one character, all of them alphanumeric. *)
Definition isalnum (s : string) : bool :=
  match s with
  | EmptyString => false
  | _ => forallb is_alnum (list_ascii_of_string s)
  end.

(** The test of line 50 on an already stripped token. *)
Definition is_address (cleaned : string) : bool :=
  (32 <=? String.length cleaned)%nat && (String.length cleaned <=? 44)%nat
  && isalnum cleaned.

(** The inner loop, over the parts of one message. *)
Fixpoint first_address (parts : list string) : option string :=
  match parts with
  | [] => None
  | part :: parts =>
    let cleaned := strip part in
    if is_address cleaned then Some cleaned else first_address parts
  end.

(** The test of line 44. *)
Definition has_create (msg : string) : bool :=
  contains "Create" msg || contains "create" msg.

Fixpoint _extract_token_address_from_logs (log_messages : list string)
  : option string :=
  match log_messages with
  | [] => None
  | msg :: log_messages =>
    if has_create msg then
      match first_address (split msg) with
      | Some cleaned => Some cleaned
      | None => _extract_token_address_from_logs log_messages
      end
    else _extract_token_address_from_logs log_messages
  end.

(** The test [is_create] of [_websocket_listener] (line 168) on one log
    line. *)
Definition is_create_line (log : string) : bool :=
  contains "Create" log || contains "create" log
  || contains "InitializeMint" log.

(** The marker as the specification words it: the word Create in any
    capitalisation, or InitializeMint. *)
Definition spec_marker (msg : string) : bool :=
  contains "create" (PriceBot.lower msg) || contains "InitializeMint" msg.

(** The stripped tokens of the lines that carry a marker, in order. *)
Definition marked_tokens (marker : string -> bool) (log_messages : list string)
  : list string :=
  strip <$> concat (split <$> filter (fun m => marker m = true) log_messages).

(** The first token that qualifies as an address among them. *)
Definition first_qualifying (marker : string -> bool)
           (log_messages : list string) : option string :=
  head (filter (fun t => is_address t = true)
               (marked_tokens marker log_messages)).

(** The extraction as the specification words it. *)
Definition spec_extract (log_messages : list string) : option string :=
  first_qualifying spec_marker log_messages.

(** *** The seen-signature set of [_polling_listener] *)

Definition SEEN_CAP : nat := 5000.
Definition SEEN_KEEP : nat := 2000.

(** [l[-k:]] *)
Definition last_n {A} (k : nat) (l : list A) : list A :=
  drop (length l - k) l.

Section Seen.
(** [list(seen_signatures)]: the order in which the set enumerates its
    members.  It is an enumeration of the set and nothing else is
    known of it. *)
Variable set_iter : gset string -> list string.

(** Lines 247-248. *)
Definition cap_seen (seen_signatures : gset string) : gset string :=
  if (SEEN_CAP <? size seen_signatures)%nat
  then list_to_set (last_n SEEN_KEEP (set_iter seen_signatures))
  else seen_signatures.

(** Lines 229-233 for one [sig_info]: the signature is skipped when
    seen, else recorded and handed on ([true]). *)
Definition see (seen_signatures : gset string) (sig : string)
  : gset string * bool :=
  if bool_decide (sig ∈ seen_signatures) then (seen_signatures, false)
  else ({[sig]} ∪ seen_signatures, true).

(** One poll: the page of signatures is run through [see], then the
    cap is applied.  The result is the new set and the signatures that
    were handed on, in order. *)
Definition poll_page (page : list string) (seen_signatures : gset string)
  : gset string * list string :=
  let st :=
    foldl (fun (st : gset string * list string) sig =>
             let '(seen, is_new) := see st.1 sig in
             (seen, if is_new then (st.2 ++ [sig])%list else st.2))
          (seen_signatures, []) page in
  (cap_seen st.1, st.2).
End Seen.

End Listener.

(** ** app/tasks/wallet_discovery.py and app/routers/discovery.py *)

Module Discovery.
Import SmartWalletCandidate.

Definition MIN_APPEARANCES : Z := 2.

(** [c.is_promoted = True; session.add(c)]: the row of that primary key
    is updated. *)
Definition promote_row (c : t) : t :=
  mk (id c) (wallet_address c) (token_count c) (token_symbols c)
     (first_seen c) true.

Definition mark_promoted (key : Z) (db : DB) : DB :=
  set_candidates
    (map (fun c => if bool_decide (id c = key) then promote_row c else c)
         (smart_wallet_candidates db)) db.

(** The label f-string; [limit] is 30 in the engine and 25 in the
    router. *)
Definition discovery_label (limit : nat) (c : t) : string :=
  "Discovery_" +:+ pretty (token_count c) +:+ "x ("
    +:+ String.substring 0 limit (token_symbols c) +:+ ")".

Definition new_wallet (tracked_at : Z) (limit : nat) (c : t)
  : TrackedWallet.t :=
  TrackedWallet.mk (wallet_address c) (discovery_label limit c) None active
                   (Some "discovery") tracked_at.

(** [session.add(wallet)] under the guard [not existing]: the address
    was just looked up and is free, so the INSERT goes through. *)
Definition add_wallet (w : TrackedWallet.t) (db : DB) : DB :=
  set_wallets (tracked_wallets db ++ [w]) db.

(** One iteration of the loop of [auto_promote_candidates].  [utcnow k]
    is the clock reading that stamps the [k]-th wallet created. *)
Definition promote_one (utcnow : nat -> Z) (st : nat * DB) (c : t)
  : nat * DB :=
  let '(promoted, db) := st in
  match get_wallet (wallet_address c) db with
  | Some _ => (promoted, mark_promoted (id c) db)
  | None =>
    (S promoted,
     mark_promoted (id c) (add_wallet (new_wallet (utcnow promoted) 30 c) db))
  end.

(** The rows of the query of lines 405-410. *)
Definition qualifying (min_appearances : Z) (db : DB) : list t :=
  filter (fun c => (min_appearances <=? token_count c)
                   && negb (is_promoted c))
         (smart_wallet_candidates db).

Definition auto_promote_candidates (utcnow : nat -> Z) (min_appearances : Z)
           (db : DB) : nat * DB :=
  foldl (promote_one utcnow) (O, db) (qualifying min_appearances db).

(** [promote_candidate] of the router. *)
Definition promote_candidate (utcnow : Z) (address : string) (db : DB) : DB :=
  match find (fun c => bool_decide (wallet_address c = address))
             (smart_wallet_candidates db) with
  | Some candidate =>
    if negb (is_promoted candidate) then
      let db := match get_wallet address db with
                | Some _ => db
                | None => add_wallet (new_wallet utcnow 25 candidate) db
                end in
      mark_promoted (id candidate) db
    else db
  | None => db
  end.

(** [promote_all_candidates] of the router. *)
Definition promote_all_one (utcnow : nat -> Z) (st : nat * DB) (c : t)
  : nat * DB :=
  let '(k, db) := st in
  match get_wallet (wallet_address c) db with
  | Some _ => (k, mark_promoted (id c) db)
  | None =>
    (S k, mark_promoted (id c) (add_wallet (new_wallet (utcnow k) 25 c) db))
  end.

Definition promote_all_candidates (utcnow : nat -> Z) (db : DB) : DB :=
  snd (foldl (promote_all_one utcnow) (O, db)
             (filter (fun c => negb (is_promoted c))
                     (smart_wallet_candidates db))).

(** A row of the result of [identify_smart_wallets]. *)
Record Found := mkFound {
  found_wallet_address : string;
  found_token_count : Z;
  found_token_symbols : string }.

Definition update_counts (key : Z) (f : Found) (db : DB) : DB :=
  set_candidates
    (map (fun c => if bool_decide (id c = key)
                   then mk (id c) (wallet_address c) (found_token_count f)
                           (found_token_symbols f) (first_seen c)
                           (is_promoted c)
                   else c)
         (smart_wallet_candidates db)) db.

Definition insert_candidate (first_seen : Z) (f : Found) (db : DB) : DB :=
  let c := mk (candidates_seq db) (found_wallet_address f)
              (found_token_count f) (found_token_symbols f) first_seen false in
  mkDB (tracked_wallets db) (tokens db) (signals db) (signals_seq db)
       (smart_wallet_candidates db ++ [c]) (candidates_seq db + 1).

(** One iteration of the loop of [save_smart_wallet_candidates]. *)
Definition save_one (utcnow : nat -> Z) (st : nat * DB) (f : Found)
  : nat * DB :=
  let '(saved, db) := st in
  match find (fun c => bool_decide (wallet_address c = found_wallet_address f))
             (smart_wallet_candidates db) with
  | Some existing => (saved, update_counts (id existing) f db)
  | None => (S saved, insert_candidate (utcnow saved) f db)
  end.

Definition save_smart_wallet_candidates (utcnow : nat -> Z)
           (candidates : list Found) (db : DB) : nat * DB :=
  foldl (save_one utcnow) (O, db) candidates.

(** Every operation of the application that writes the candidates
    table. *)
Inductive Op :=
| Save (utcnow : nat -> Z) (candidates : list Found)
| AutoPromote (utcnow : nat -> Z) (min_appearances : Z)
| PromoteCandidate (utcnow : Z) (address : string)
| PromoteAll (utcnow : nat -> Z).

Definition run_op (db : DB) (op : Op) : DB :=
  match op with
  | Save utcnow candidates =>
    snd (save_smart_wallet_candidates utcnow candidates db)
  | AutoPromote utcnow min_appearances =>
    snd (auto_promote_candidates utcnow min_appearances db)
  | PromoteCandidate utcnow address => promote_candidate utcnow address db
  | PromoteAll utcnow => promote_all_candidates utcnow db
  end.

Definition run_ops (ops : list Op) (db : DB) : DB := foldl run_op db ops.

(** The rows of [tracked_wallets] with a given address. *)
Definition wallets_at (address : string) (db : DB) : list TrackedWallet.t :=
  filter (fun w => bool_decide (TrackedWallet.address w = address))
         (tracked_wallets db).

(** A row with the promoted flag set when its key is among [keys]. *)
Definition marked (keys : list Z) (c : t) : t :=
  if bool_decide (id c ∈ keys) then promote_row c else c.

(** Whatever was promoted in [db] is promoted in [db']: the row is
    there, under the same key and address, with the flag set. *)
Definition keeps_promoted (db db' : DB) : Prop :=
  forall c, c ∈ smart_wallet_candidates db -> is_promoted c = true ->
    exists c', c' ∈ smart_wallet_candidates db'
               /\ id c' = id c /\ wallet_address c' = wallet_address c
               /\ is_promoted c' = true.

(** A wallet as promotion creates it. *)
Definition from_discovery (address : string) (w : TrackedWallet.t) : Prop :=
  TrackedWallet.address w = address
  /\ TrackedWallet.status w = active
  /\ TrackedWallet.source w = Some "discovery".

(** [r] is the row of [c] marked promoted: the same key, address,
    counts and first-seen time, and the flag is set. *)
Definition promoted_row_of (c r : t) : Prop :=
  id r = id c /\ wallet_address r = wallet_address c
  /\ token_count r = token_count c /\ token_symbols r = token_symbols c
  /\ first_seen r = first_seen c /\ is_promoted r = true.

(** The constraints of the schema that promotion relies on. *)
Record schema_ok (db : DB) : Prop := {
  wallets_pk : NoDup (TrackedWallet.address <$> tracked_wallets db);
  candidates_pk : NoDup (id <$> smart_wallet_candidates db);
  candidates_unique : NoDup (wallet_address <$> smart_wallet_candidates db) }.

End Discovery.

(** ** Sample data *)

Module Examples.
Import Analyzer.

Definition mint : string := "7xKXtg2CW87d97TXJSDpbD5jBkheTqA83TZRuJosgAsU".

Definition alice : TrackedWallet.t :=
  TrackedWallet.mk "AliceWallet" "alice" None active (Some "manual") 0.
Definition bob : TrackedWallet.t :=
  TrackedWallet.mk "BobWallet" "bob" None active None 0.
Definition carol : TrackedWallet.t :=
  TrackedWallet.mk "CarolWallet" "carol" None paused (Some "manual") 0.

(** Three tracked wallets, two of them active, and nothing else. *)
Definition db0 : DB := mkDB [alice; bob; carol] [] [] 1 [] 1.

Definition t0 : Z := 1700000000.

Definition swap (payer : string) (ts : Z) : Tx :=
  mkTx (Some "SWAP") (Some "PUMP_AMM") (Some payer) (Some ts).

(** Newest first: three swaps, then the creation by the developer. *)
Definition history : list Tx :=
  [ swap "CarolWallet" (t0 + 40); swap "BobWallet" (t0 + 30);
    swap "AliceWallet" (t0 + 20);
    mkTx (Some "CREATE") (Some "PUMP_FUN") (Some "DevWallet") (Some t0) ].

(** A token created a minute ago that both active wallets bought. *)
Definition world_hot : World :=
  mkWorld (Resp_list history) ((t0 + 60) * second_us) (Some "MEME")
          ((t0 + 61) * second_us) (Resp_list history) ((t0 + 62) * second_us).

(** The same token when only one active wallet shows among the signers. *)
Definition world_cold : World :=
  mkWorld (Resp_list history) ((t0 + 60) * second_us) (Some "MEME")
          ((t0 + 61) * second_us)
          (Resp_list [swap "BobWallet" (t0 + 30)]) ((t0 + 62) * second_us).


(** Helius has no transaction of the token yet; the symbol lookup takes
    two seconds. *)
Definition world_blank : World :=
  mkWorld (Resp_list []) ((t0 + 60) * second_us) None
          ((t0 + 62) * second_us) (Resp_list history) ((t0 + 63) * second_us).

(** Another writer inserts the token of [mint]. *)
Definition rival (db : DB) : DB :=
  set_tokens (tokens db ++ [Token.mk mint "MEME" (t0 * second_us) "DevWallet"
                                     0 bonding_curve]) db.

(** Signatures for the polling listener: [sig_of n] is the letter s
    and two base-64 digits of [n]. *)
Definition sig_of (n : N) : string :=
  String "s" (String (ascii_of_N (n mod 64 + 48))
                     (String (ascii_of_N (n / 64 + 48)) EmptyString)).

Fixpoint sig_list (k : nat) (n : N) : list string :=
  match k with
  | O => []
  | S k => sig_of n :: sig_list k (N.succ n)
  end.

(** The set of the first [k] signatures. *)
Definition sigs (k : nat) : gset string :=
  Mapset (foldr (fun sig (m : gmap string unit) => <[sig:=tt]> m) ∅
                (sig_list k 0)).

(** Four candidates: Alice is tracked already, Dave is new, Erin is
    below the threshold and Bob was promoted before. *)
Definition cand_alice : SmartWalletCandidate.t :=
  SmartWalletCandidate.mk 1 "AliceWallet" 3 "AAA, BBB, CCC" 0 false.
Definition cand_dave : SmartWalletCandidate.t :=
  SmartWalletCandidate.mk 2 "DaveWallet" 2 "AAA, CCC" 0 false.
Definition cand_erin : SmartWalletCandidate.t :=
  SmartWalletCandidate.mk 3 "ErinWallet" 1 "BBB" 0 false.
Definition cand_bob : SmartWalletCandidate.t :=
  SmartWalletCandidate.mk 4 "BobWallet" 5 "AAA, BBB, CCC, DDD, EEE" 0 true.

Definition db1 : DB :=
  mkDB [alice; bob; carol] [] [] 1 [cand_alice; cand_dave; cand_erin; cand_bob] 5.

Definition clock (k : nat) : Z := (t0 + Z.of_nat k) * 1000000.

End Examples.

(** ** app/tasks/price_bot.py: the market data fetch *)

Module PriceFetch.
Import PriceBot.

(** A pair as DexScreener lists it: [baseToken.address], absent when the
    key is missing, and the fields of [Pair]. *)
Record Listing := mkListing {
  base_address : option string;
  listing_pair : Pair }.

Definition BATCH : nat := 30.

(** [range(0, n, 30)] *)
Definition batch_starts (n : nat) : list nat :=
  (fun k => k * BATCH)%nat <$> seq 0 ((n + (BATCH - 1)) / BATCH).

(** The slices [addresses[i : i + 30]] of the loop of line 38. *)
Definition batches (addresses : list string) : list (list string) :=
  (fun i => take BATCH (drop i addresses)) <$> batch_starts (length addresses).

(** Lines 48-57 for one pair: the pair replaces the one kept for its token
    when there is none or when its market cap is strictly higher. *)
Definition keep_best (result : gmap string Pair) (row : Listing)
  : gmap string Pair :=
  match base_address row with
  | None => result
  | Some token_addr =>
    if bool_decide (token_addr = EmptyString) then result
    else
      let mc := pair_mc (listing_pair row) in
      match result !! token_addr with
      | None => <[token_addr := listing_pair row]> result
      | Some existing =>
        if Qlt_b (pair_mc existing) mc
        then <[token_addr := listing_pair row]> result
        else result
      end
  end.

(** [_fetch_token_data]: [get batch] is the answer of DexScreener to the
    request for [batch], its list of pairs, or [None] when the request
    raises. *)
Definition _fetch_token_data (get : list string -> option (list Listing))
           (addresses : list string) : gmap string Pair :=
  foldl (fun result batch =>
           match get batch with
           | Some pairs => foldl keep_best result pairs
           | None => result
           end)
        ∅ (batches addresses).

(** All the pairs a fetch receives, in order. *)
Definition fetched_rows (get : list string -> option (list Listing))
           (addresses : list string) : list Listing :=
  concat ((fun batch => default [] (get batch)) <$> batches addresses).

End PriceFetch.

(** ** Constraints that the analyzer keeps *)

Module StoreInv.

(** The constraints of the schema on tokens and signals: the primary
    key of tokens, the foreign key and the primary key of signals, and
    the signal sequence ahead of every id handed out. *)
Record store_ok (db : DB) : Prop := {
  tokens_pk : NoDup (Token.contract_address <$> tokens db);
  signals_fk : forall s, s ∈ signals db ->
                 Signal.token_address s ∈ Token.contract_address <$> tokens db;
  signals_pk : NoDup (Signal.id <$> signals db);
  signals_below_seq : forall s, s ∈ signals db -> Signal.id s < signals_seq db }.

(** The transaction is a buy in the sense of lines 167-172. *)
Definition is_buy (tx : Analyzer.Tx) : Prop :=
  Analyzer.tx_type tx = Some "SWAP" \/ Analyzer.is_pump tx = true.

(** The timestamps that [datetime.fromtimestamp] accepts. *)
Definition timestamp_ok (tx : Analyzer.Tx) : Prop :=
  forall t, Analyzer.tx_timestamp tx = Some t ->
            Analyzer.MIN_TIMESTAMP <= t <= Analyzer.MAX_TIMESTAMP.

End StoreInv.

(** ** app/tasks/listener.py: resolution by signature, the two loops *)

Module Resolver.
Import Listener.

Definition PUMP_FUN_PROGRAM_ID : string :=
  "6EF8rrecthR5Dkzon8Nwu78hRvfCKubJ14M5uBEwF6P".

(** An instruction of a parsed transaction: [parsed.type] and
    [parsed.info.mint], absent when the keys are. *)
Record Instruction := mkInstruction {
  parsed_type : option string;
  info_mint : option string }.

(** An entry of [accountKeys]: a string, or an object with a [pubkey]. *)
Inductive AccountKey :=
| Key_string (s : string)
| Key_object (pubkey : option string).

(** The parts of the result of [getTransaction] that are read. *)
Record TxResult := mkTxResult {
  inner_instructions : list (list Instruction);
  instructions : list Instruction;
  account_keys : list AccountKey }.

(** The loop over the instructions of one list: the mint of the first
    [initializeMint] that has a non-empty one. *)
Fixpoint first_mint (ixs : list Instruction) : option string :=
  match ixs with
  | [] => None
  | ix :: ixs =>
    if bool_decide (parsed_type ix = Some "initializeMint") then
      match info_mint ix with
      | Some mint =>
        if bool_decide (mint = EmptyString) then first_mint ixs else Some mint
      | None => first_mint ixs
      end
    else first_mint ixs
  end.

(** The loop over the inner instruction sets. *)
Fixpoint first_inner_mint (sets : list (list Instruction)) : option string :=
  match sets with
  | [] => None
  | inner_set :: sets =>
    match first_mint inner_set with
    | Some mint => Some mint
    | None => first_inner_mint sets
    end
  end.

Definition key_text (k : AccountKey) : string :=
  match k with
  | Key_string s => s
  | Key_object pubkey => default EmptyString pubkey
  end.

(** Lines 106-113. *)
Definition account_key_fallback (keys : list AccountKey) : option string :=
  if (3 <=? length keys)%nat then
    match keys !! 1%nat with
    | Some k =>
      let candidate := key_text k in
      if negb (bool_decide (candidate = EmptyString))
         && negb (bool_decide (candidate = PUMP_FUN_PROGRAM_ID))
      then Some candidate else None
    | None => None
    end
  else None.

(** [_extract_token_from_tx]; the argument is the [result] of the
    lookup, [None] when there is none or when the request raises. *)
Definition _extract_token_from_tx (result : option TxResult) : option string :=
  match result with
  | None => None
  | Some result =>
    match first_inner_mint (inner_instructions result) with
    | Some mint => Some mint
    | None =>
      match first_mint (instructions result) with
      | Some mint => Some mint
      | None => account_key_fallback (account_keys result)
      end
    end
  end.



(** The scan of the analyzer as the listeners call it, in a session of
    its own: the database after it, and whether it raised (the commit
    of a Token that another writer has inserted in the meantime). *)
Definition scan_in (during_metadata during_signers : DB -> DB)
           (world_of : string -> Analyzer.World) (token_address : string)
           (db : DB) : DB * bool :=
  let '(outcome, db) :=
    Analyzer.scan_new_token_among during_metadata during_signers
                                  (world_of token_address) token_address db in
  (db, match outcome with
       | Analyzer.Raised_IntegrityError => true
       | _ => false
       end).

Section Listening.

(** The store the scan works on, the node's answer to [getTransaction]
    and the scan: the store after it and whether it raised. *)
Context {S : Type}.
Variable lookup : string -> option TxResult.
Variable scan : string -> S -> S * bool.

(** What a listener has done so far: the signatures it has sent to
    [getTransaction], the token addresses it has handed to the scan,
    both in order, and the store. *)
Record Run := mkRun {
  fetched : list string;
  scanned : list string;
  store : S }.

(** [await _extract_token_from_tx(sig)] *)
Definition fetch (sig : string) (r : Run) : Run * option string :=
  (mkRun (fetched r ++ [sig]) (scanned r) (store r),
   _extract_token_from_tx (lookup sig)).

(** [with Session(engine) as session: await scan_new_token(...)]; the
    flag tells whether the scan raised. *)
Definition hand_over (token_address : string) (r : Run) : Run * bool :=
  let '(store, raised) := scan token_address (store r) in
  (mkRun (fetched r) (scanned r ++ [token_address]) store, raised).

(** The body of the loop of [_websocket_listener] for one notification:
    the run after it and the candidate.  An exception of the scan is
    caught at line 193 and the loop goes on. *)
Definition on_message (logs : list string) (signature : string) (r : Run)
  : Run * option string :=
  match logs with
  | [] => (r, None)
  | _ =>
    if existsb is_create_line logs then
      let '(r, token_address) :=
        match _extract_token_address_from_logs logs with
        | Some token_address => (r, Some token_address)
        | None =>
          if bool_decide (signature = EmptyString) then (r, None)
          else fetch signature r
        end in
      match token_address with
      | Some token_address => ((hand_over token_address r).1, Some token_address)
      | None => (r, None)
      end
    else (r, None)
  end.




End Listening.



(** The instruction is an [initializeMint] that names [mint]. *)
Definition initializes (mint : string) (ix : Instruction) : Prop :=
  parsed_type ix = Some "initializeMint" /\ info_mint ix = Some mint.

End Resolver.

(** ** app/config.py and the URL of the analyzer *)

Module Config.

(** [s.replace(old, new)] for a non-empty [old]: the occurrences of
    [old] are replaced from left to right, without overlap.  [skip]
    counts the characters of a replaced occurrence still to pass. *)
Fixpoint replace_go (old new : string) (skip : nat) (s : string) : string :=
  match s with
  | EmptyString => EmptyString
  | String c r =>
    match skip with
    | S k => replace_go old new k r
    | O =>
      if String.prefix old s
      then new +:+ replace_go old new (String.length old - 1) r
      else String c (replace_go old new O r)
    end
  end.

Definition _derive_ws_url (rpc_url : string) : string :=
  replace_go "https://" "wss://" O rpc_url.

(** The longest prefix without an ampersand: what [[^&]+] matches. *)
Fixpoint until_amp (s : string) : string :=
  match s with
  | EmptyString => EmptyString
  | String c r =>
    if bool_decide (c = "&"%char) then EmptyString else String c (until_amp r)
  end.

Fixpoint string_drop (n : nat) (s : string) : string :=
  match n, s with
  | S n, String _ r => string_drop n r
  | _, _ => s
  end.

(** [re.search(r"api-key=([^&]+)", rpc_url)]: the leftmost place where
    the literal is followed by at least one character other than an
    ampersand; group 1 is the run of such characters.  Without a match the
    function returns the empty string. *)
Fixpoint _extract_api_key (rpc_url : string) : string :=
  match rpc_url with
  | EmptyString => EmptyString
  | String _ r =>
    if String.prefix "api-key=" rpc_url then
      match until_amp (string_drop 8 rpc_url) with
      | EmptyString => _extract_api_key r
      | key => key
      end
    else _extract_api_key r
  end.

Definition HELIUS_REST_URL : string := "https://api.helius.xyz/v0".

(** [_helius_tx_url] of the analyzer; [api_key] is
    [settings.HELIUS_API_KEY]. *)
Definition _helius_tx_url (api_key address : string) (limit : Z) : string :=
  HELIUS_REST_URL +:+ "/addresses/" +:+ address +:+ "/transactions"
    +:+ "?api-key=" +:+ api_key +:+ "&limit=" +:+ pretty limit.

End Config.

(** ** app/routers/dashboard.py: the wallet roster *)

Module Dashboard.

(** [add_wallet]: the INSERT of a new active wallet; when the commit
    raises, the session is rolled back and nothing changes. *)
Definition add_wallet (utcnow : Z) (address label : string) (db : DB) : DB :=
  match insert_wallet (TrackedWallet.mk address label None active None utcnow) db
  with
  | Committed db' => db'
  | IntegrityError => db
  end.

(** [delete_wallet]: the row of that primary key is deleted, if there
    is one. *)
Definition delete_wallet (address : string) (db : DB) : DB :=
  match get_wallet address db with
  | Some _ =>
    set_wallets (filter (fun w => TrackedWallet.address w <> address)
                        (tracked_wallets db)) db
  | None => db
  end.

End Dashboard.

(** ** The candidates table *)

Module Candidates.

(** The constraints on the candidates table: its primary key, the
    unique wallet address, and the id sequence ahead of every id. *)
Record candidates_ok (db : DB) : Prop := {
  cand_pk : NoDup (SmartWalletCandidate.id <$> smart_wallet_candidates db);
  cand_unique :
    NoDup (SmartWalletCandidate.wallet_address <$> smart_wallet_candidates db);
  cand_below_seq : forall c, c ∈ smart_wallet_candidates db ->
                     SmartWalletCandidate.id c < candidates_seq db }.

(** The row of the candidates table that carries the counts of a found
    wallet. *)
Definition carries (f : Discovery.Found) (c : SmartWalletCandidate.t) : Prop :=
  SmartWalletCandidate.wallet_address c = Discovery.found_wallet_address f
  /\ SmartWalletCandidate.token_count c = Discovery.found_token_count f
  /\ SmartWalletCandidate.token_symbols c = Discovery.found_token_symbols f.

(** What a row keeps through an update of its counts. *)
Definition same_row (c c' : SmartWalletCandidate.t) : Prop :=
  SmartWalletCandidate.id c' = SmartWalletCandidate.id c
  /\ SmartWalletCandidate.wallet_address c' = SmartWalletCandidate.wallet_address c
  /\ SmartWalletCandidate.first_seen c' = SmartWalletCandidate.first_seen c
  /\ SmartWalletCandidate.is_promoted c' = SmartWalletCandidate.is_promoted c.

End Candidates.

(** ** app/tasks/wallet_discovery.py: the token search *)

Module Search.

(** The [baseToken] of a pair of a search reply: absent (the default
    empty object is used), a value that is not an object (the lookup of
    its address raises), or an object with its [address], [None] when
    that is absent or null. *)
Inductive BaseToken :=
| Base_absent
| Base_invalid
| Base_object (address : option string).

Record SearchPair := mkSearchPair {
  chainId : option string;
  baseToken : BaseToken;
  pairAddress : option string }.

(** [pair.get(baseToken, {}).get(address, EmptyString)]; [None] is the
    exception. *)
Definition base_address (p : SearchPair) : option string :=
  match baseToken p with
  | Base_absent => Some EmptyString
  | Base_invalid => None
  | Base_object a => Some (default EmptyString a)
  end.

(** The loop over the pairs of one reply.  An exception leaves the
    loop, and the [except] of the query keeps what was collected. *)
Fixpoint scan_page (ps : list SearchPair) (st : gset string * list SearchPair)
  : gset string * list SearchPair :=
  match ps with
  | [] => st
  | p :: ps =>
    if bool_decide (chainId p = Some "solana") then
      match base_address p with
      | None => st
      | Some addr =>
        if bool_decide (addr <> EmptyString) && bool_decide (addr ∉ st.1)
        then scan_page ps ({[addr]} ∪ st.1, (st.2 ++ [p])%list)
        else scan_page ps st
      end
    else scan_page ps st
  end.

(** One query: [None] is a request that failed or a reply without a
    list of pairs. *)
Definition search_one (st : gset string * list SearchPair)
           (reply : option (list SearchPair)) : gset string * list SearchPair :=
  match reply with
  | Some ps => scan_page ps st
  | None => st
  end.

(** [_search_solana_tokens]; [replies] are the replies to the queries,
    in their order. *)
Definition _search_solana_tokens (replies : list (option (list SearchPair)))
  : list SearchPair :=
  (foldl search_one (∅, []) replies).2.

(** The token address of a pair, as [discover_winning_tokens] reads it
    from the results. *)
Definition token_address (p : SearchPair) : string :=
  default EmptyString (base_address p).

(** A pair that the search is after. *)
Definition wanted (p : SearchPair) : Prop :=
  chainId p = Some "solana" /\ token_address p <> EmptyString.

(** What the loop maintains: the set of seen addresses is the set of
    the addresses of the results, which are distinct and wanted. *)
Record search_inv (st : gset string * list SearchPair) : Prop := {
  inv_seen : forall a, a ∈ st.1 <-> a ∈ token_address <$> st.2;
  inv_distinct : NoDup (token_address <$> st.2);
  inv_wanted : forall p, p ∈ st.2 -> wanted p /\ base_address p <> None }.

End Search.

(** ** app/tasks/wallet_discovery.py: the early buyers of a token *)

Module EarlyBuyers.
Import Analyzer.

(** A transaction of the reply, with its [signature].  A timestamp
    that is present is an integer. *)
Record SignedTx := mkSignedTx {
  body : Tx;
  signature : option string }.

(** An entry of the result. *)
Record Buyer := mkBuyer {
  wallet_address : string;
  entry_timestamp : option Z;
  tx_signature : string }.

(** The GET: a JSON list, another JSON value, or an exception
    (transport, HTTP status, bad JSON). *)
Inductive Reply :=
| Reply_list (txs : list SignedTx)
| Reply_other
| Reply_failed.

(** [txs.sort(key=lambda t: t.get(timestamp, 0))]: the sort is stable. *)
Definition sort_key (t : SignedTx) : Z := default 0 (tx_timestamp (body t)).

Fixpoint insert_by_key (x : SignedTx) (l : list SignedTx) : list SignedTx :=
  match l with
  | [] => [x]
  | y :: l' =>
    if sort_key x <=? sort_key y then x :: y :: l' else y :: insert_by_key x l'
  end.

Definition sort_oldest_first (txs : list SignedTx) : list SignedTx :=
  foldr insert_by_key [] txs.

(** [is_buy] of lines 296-303. *)
Definition buys (t : SignedTx) : bool :=
  bool_decide (default EmptyString (tx_type (body t)) = "SWAP") || is_pump (body t).

(** [datetime.fromtimestamp(ts, tz=utc) if ts else None]; the outer
    [None] is the exception of [fromtimestamp]. *)
Definition entry_time (t : SignedTx) : option (option Z) :=
  match tx_timestamp (body t) with
  | None => Some None
  | Some ts => if ts =? 0 then Some None else Some <$> fromtimestamp ts
  end.

(** The loop over the sorted transactions.  [buyers] is the dict, in
    insertion order; an exception leaves the loop with what the dict
    holds. *)
Fixpoint collect (limit : Z) (txs : list SignedTx) (buyers : list Buyer)
  : list Buyer :=
  match txs with
  | [] => buyers
  | t :: txs =>
    match feePayer (body t) with
    | None => collect limit txs buyers
    | Some fee_payer =>
      if bool_decide (fee_payer = EmptyString) then collect limit txs buyers
      else if negb (buys t) then collect limit txs buyers
      else if bool_decide (fee_payer ∈ wallet_address <$> buyers)
      then collect limit txs buyers
      else
        match entry_time t with
        | None => buyers
        | Some entry =>
          let buyers :=
            (buyers ++ [mkBuyer fee_payer entry
                                (default EmptyString (signature t))])%list in
          if limit <=? Z.of_nat (length buyers) then buyers
          else collect limit txs buyers
        end
    end
  end.

Definition extract_early_buyers (reply : Reply) (limit : Z) : list Buyer :=
  match reply with
  | Reply_list txs => collect limit (sort_oldest_first txs) []
  | Reply_other => []
  | Reply_failed => []
  end.

(** The transaction is a buy paid by [w]. *)
Definition bought_by (w : string) (t : SignedTx) : Prop :=
  feePayer (body t) = Some w /\ buys t = true.

(** The entry was made from the transaction. *)
Definition made (t : SignedTx) (b : Buyer) : Prop :=
  feePayer (body t) = Some (wallet_address b)
  /\ entry_time t = Some (entry_timestamp b)
  /\ tx_signature b = default EmptyString (signature t).

Definition key_le (t t' : SignedTx) : Prop := sort_key t <= sort_key t'.

(** The order of the entries: by entry time, an entry without one
    standing at the epoch. *)
Definition entry_key (b : Buyer) : Z := default 0 (entry_timestamp b).

Definition entry_le (b b' : Buyer) : Prop := entry_key b <= entry_key b'.

End EarlyBuyers.

(** ** app/tasks/wallet_discovery.py: the second step of a discovery run *)

Module Pipeline.
Import EarlyBuyers.

Module DiscoveryStatus.
Inductive t := pending | processing | done | error.
End DiscoveryStatus.

(** The columns of [discovered_tokens] that the step reads or writes. *)
Module DiscoveredToken.
Record t := mk {
  id : Z;
  address : string;
  symbol : string;
  status : DiscoveryStatus.t;
  early_buyers_found : Z }.
End DiscoveredToken.

Module EarlyBuyer.
Record t := mk {
  id : Z;
  token_id : Z;
  token_address : string;
  wallet_address : string;
  entry_timestamp : option Z;
  tx_signature : string;
  appearances : Z }.
End EarlyBuyer.

Record Tables := mkTables {
  discovered_tokens : list DiscoveredToken.t;
  early_buyers : list EarlyBuyer.t;
  early_buyers_seq : Z }.


(** [session.add(dt); session.commit()]: the row of that primary key
    is updated. *)
Definition update_token (key : Z) (f : DiscoveredToken.t -> DiscoveredToken.t)
           (tb : Tables) : Tables :=
  mkTables
    (map (fun r => if bool_decide (DiscoveredToken.id r = key) then f r else r)
         (discovered_tokens tb))
    (early_buyers tb) (early_buyers_seq tb).









End Pipeline.

(** ** More sample data *)

Module Samples.
Import Analyzer EarlyBuyers.

(** Bob buys twice and Alice once, after the creation by the developer;
    the reply lists the newest first. *)
Definition buys_reply : list SignedTx :=
  [ mkSignedTx (Examples.swap "BobWallet" (Examples.t0 + 40)) (Some "sig4");
    mkSignedTx (Examples.swap "AliceWallet" (Examples.t0 + 30)) (Some "sig3");
    mkSignedTx (Examples.swap "BobWallet" (Examples.t0 + 20)) (Some "sig2");
    mkSignedTx (mkTx (Some "CREATE") (Some "SYSTEM") (Some "DevWallet")
                     (Some Examples.t0)) (Some "sig1") ].



(** The node's answers for the sample page: the transaction of [sigA]
    created the sample token, that of any other signature nothing. *)
Definition node (sig : string) : option Resolver.TxResult :=
  if bool_decide (sig = "sigA")
  then Some (Resolver.mkTxResult
               [[Resolver.mkInstruction (Some "initializeMint")
                                        (Some Examples.mint)]] [] [])
  else Some (Resolver.mkTxResult [] [] []).


(** The scan with nobody else writing. *)
Definition scan_alone : string -> DB -> DB * bool :=
  Resolver.scan_in id id (fun _ => Examples.world_hot).


(** Helius has no transaction of the token yet, and the reply to the
    symbol lookup trickles in for eleven minutes: the client's timeout
    of 30 seconds bounds each read, not the whole request. *)
Definition world_stalled : World :=
  mkWorld (Resp_list []) ((Examples.t0 + 60) * second_us) None
          ((Examples.t0 + 60 + 660) * second_us)
          (Resp_list Examples.history) ((Examples.t0 + 60 + 661) * second_us).

End Samples.

(** * Properties *)

Lemma Qlt_b_true x y : Qlt_b x y = true <-> (x < y)%Q.
Proof.
  unfold Qlt_b. rewrite negb_true_iff. split.
  - intros H. apply Qnot_le_lt. intros Hle.
    apply Qle_bool_iff in Hle. congruence.
  - intros H. destruct (Qle_bool y x) eqn:E; [|reflexivity].
    apply Qle_bool_iff in E. exfalso. exact (Qlt_not_le _ _ H E).
Qed.

Lemma Qlt_b_false x y : Qlt_b x y = false <-> (y <= x)%Q.
Proof.
  unfold Qlt_b. rewrite negb_false_iff. apply Qle_bool_iff.
Qed.

Lemma Qge_b_true x y : Qge_b x y = true <-> (y <= x)%Q.
Proof. apply Qle_bool_iff. Qed.


(** ** The status rule and the price sweep *)

Module PriceBotSpec.
Import PriceBot.

Lemma rugged_test_true p :
  Qlt_b (pair_mc p) RUGGED_MC || (Qlt_b 0 (pair_mc p) && Qlt_b (pair_liquidity p) 100)
  = true <-> rugged_cond p.
Proof.
  unfold rugged_cond, RUGGED_MC.
  rewrite orb_true_iff, andb_true_iff, !Qlt_b_true. reflexivity.
Qed.

Lemma not_rugged_cond p :
  ~ rugged_cond p <-> (500 <= pair_mc p)%Q /\ (100 <= pair_liquidity p)%Q.
Proof.
  unfold rugged_cond. split.
  - intros H. assert (Hmc : (500 <= pair_mc p)%Q).
    { apply Qnot_lt_le. tauto. }
    split; [exact Hmc|]. apply Qnot_lt_le. intros Hl. apply H. right.
    split; [|exact Hl]. eapply Qlt_le_trans; [|exact Hmc]. reflexivity.
  - intros [Hmc Hl] [H|[_ H]].
    + exact (Qlt_not_le _ _ H Hmc).
    + exact (Qlt_not_le _ _ H Hl).
Qed.

Lemma double_graduated x : Qge_b x (GRADUATED_MC * 2) = true <-> (100000 <= x)%Q.
Proof.
  rewrite Qge_b_true.
  assert (E : (GRADUATED_MC * 2 == 100000)%Q) by reflexivity.
  rewrite E. reflexivity.
Qed.

(** The four ways through [_determine_status] on a pair. *)
Lemma determine_status_cases p cur :
  (rugged_cond p /\ _determine_status (Some p) cur = rugged)
  \/ (~ rugged_cond p /\ listed p /\ (50000 <= pair_mc p)%Q
      /\ _determine_status (Some p) cur = graduated)
  \/ (~ rugged_cond p /\ (100000 <= pair_mc p)%Q
      /\ _determine_status (Some p) cur = graduated)
  \/ (~ rugged_cond p /\ ~ (listed p /\ (50000 <= pair_mc p)%Q)
      /\ (pair_mc p < 100000)%Q /\ _determine_status (Some p) cur = cur).
Proof.
  unfold _determine_status. cbv zeta.
  destruct (Qlt_b (pair_mc p) RUGGED_MC
            || (Qlt_b 0 (pair_mc p) && Qlt_b (pair_liquidity p) 100)) eqn:Er.
  { left. split; [by apply rugged_test_true | reflexivity]. }
  assert (Hnr : ~ rugged_cond p).
  { intros H. apply rugged_test_true in H. congruence. }
  right.
  destruct (bool_decide (pair_dex p ∈ graduated_dexes)
            && Qge_b (pair_mc p) GRADUATED_MC) eqn:Eg.
  { left. apply andb_true_iff in Eg as [Hd Hm].
    apply bool_decide_eq_true in Hd. apply Qge_b_true in Hm. done. }
  right.
  destruct (Qge_b (pair_mc p) (GRADUATED_MC * 2)) eqn:E2.
  { left. apply double_graduated in E2. done. }
  right. repeat split; [exact Hnr| |].
  - intros [Hd Hm]. apply andb_false_iff in Eg as [Eg|Eg].
    + apply bool_decide_eq_false in Eg. done.
    + apply Qge_b_true in Hm. unfold GRADUATED_MC in Eg. congruence.
  - apply Qnot_le_lt. intros H. apply double_graduated in H. congruence.
Qed.


Lemma determine_status_none cur : _determine_status None cur = cur.
Proof. reflexivity. Qed.

Lemma determine_status_rugged p cur :
  rugged_cond p -> _determine_status (Some p) cur = rugged.
Proof.
  intros H. destruct (determine_status_cases p cur)
    as [[_ E]|[[N _]|[[N _]|[N _]]]]; tauto.
Qed.

Lemma determine_status_listed p cur :
  listed p -> (50000 <= pair_mc p)%Q -> (100 <= pair_liquidity p)%Q ->
  _determine_status (Some p) cur = graduated.
Proof.
  intros Hl Hm Hq.
  assert (Hn : ~ rugged_cond p).
  { apply not_rugged_cond. split; [|exact Hq].
    eapply Qle_trans; [|exact Hm]. discriminate. }
  destruct (determine_status_cases p cur)
    as [[R _]|[(_&_&_&E)|[(_&_&E)|(_&N&_)]]]; tauto.
Qed.

Lemma determine_status_high p cur :
  (100000 <= pair_mc p)%Q -> (100 <= pair_liquidity p)%Q ->
  _determine_status (Some p) cur = graduated.
Proof.
  intros Hm Hq.
  assert (Hn : ~ rugged_cond p).
  { apply not_rugged_cond. split; [|exact Hq].
    eapply Qle_trans; [|exact Hm]. discriminate. }
  destruct (determine_status_cases p cur)
    as [[R _]|[(_&_&_&E)|[(_&_&E)|(_&_&N&_)]]]; try tauto.
  exfalso. exact (Qlt_not_le _ _ N Hm).
Qed.

Lemma determine_status_otherwise p cur :
  ~ rugged_cond p -> ~ (listed p /\ (50000 <= pair_mc p)%Q) ->
  (pair_mc p < 100000)%Q -> _determine_status (Some p) cur = cur.
Proof.
  intros Hn Hl Hm.
  destruct (determine_status_cases p cur)
    as [[R _]|[(_&L&M&_)|[(_&M&_)|(_&_&_&E)]]]; try tauto.
  exfalso. exact (Qlt_not_le _ _ Hm M).
Qed.

(** C4, the precedence the claim leaves out: an allow-listed venue at
    $60,000 whose liquidity is $50 meets both the rugged clause and the
    graduated clause, and the code answers rugged.  The same pair without
    any liquidity figure is rugged as well. *)
Lemma status_rule_listed_60000_rugged :
  let p := mkPair (Some 60000%Q) None (Some "raydium") (Some 50%Q) in
  let q := mkPair (Some 60000%Q) None (Some "raydium") None in
  listed p /\ (50000 <= pair_mc p)%Q
  /\ _determine_status (Some p) bonding_curve = rugged
  /\ _determine_status (Some p) bonding_curve <> graduated
  /\ _determine_status (Some q) bonding_curve = rugged.
Proof.
  cbv zeta. split; [|split; [|split; [|split]]].
  - unfold listed. apply (bool_decide_unpack _). vm_compute. exact I.
  - vm_compute. discriminate.
  - vm_compute. reflexivity.
  - vm_compute. discriminate.
  - vm_compute. reflexivity.
Qed.

(** C4 as amended: the status rule of the price tracker is a cascade.
    Without pair data the status is unchanged.  A pair with market cap
    below $500, or with positive market cap and liquidity below $100, is
    rugged.  A pair that is not rugged in that sense (that is: market cap
    at least $500 and liquidity at least $100) is graduated when it is on
    an allow-listed venue with market cap at least $50,000, or when its
    market cap is at least $100,000 on any venue; in every other case the
    status is unchanged.  In particular $400 with liquidity $50 is rugged,
    an allow-listed venue at $60,000 with liquidity at least $100 is
    graduated, and $150,000 on a venue that is not listed, with liquidity
    at least $100, is graduated. *)
Theorem status_rule :
  (forall cur, _determine_status None cur = cur)
  /\ (forall p cur, rugged_cond p -> _determine_status (Some p) cur = rugged)
  /\ (forall p cur,
        listed p -> (50000 <= pair_mc p)%Q -> (100 <= pair_liquidity p)%Q ->
        _determine_status (Some p) cur = graduated)
  /\ (forall p cur,
        (100000 <= pair_mc p)%Q -> (100 <= pair_liquidity p)%Q ->
        _determine_status (Some p) cur = graduated)
  /\ (forall p cur,
        ~ rugged_cond p -> ~ (listed p /\ (50000 <= pair_mc p)%Q) ->
        (pair_mc p < 100000)%Q -> _determine_status (Some p) cur = cur)
  /\ (forall p cur,
        (pair_mc p == 400)%Q -> (pair_liquidity p == 50)%Q ->
        _determine_status (Some p) cur = rugged)
  /\ (forall p cur,
        listed p -> (pair_mc p == 60000)%Q -> (100 <= pair_liquidity p)%Q ->
        _determine_status (Some p) cur = graduated)
  /\ (forall p cur,
        ~ listed p -> (pair_mc p == 150000)%Q -> (100 <= pair_liquidity p)%Q ->
        _determine_status (Some p) cur = graduated).
Proof.
  split; [exact determine_status_none|].
  split; [exact determine_status_rugged|].
  split; [exact determine_status_listed|].
  split; [exact determine_status_high|].
  split; [exact determine_status_otherwise|].
  split; [|split].
  - intros p cur Hm _. apply determine_status_rugged. left.
    rewrite Hm. reflexivity.
  - intros p cur Hl Hm Hq. apply determine_status_listed; [done| |done].
    rewrite Hm. discriminate.
  - intros p cur _ Hm Hq. apply determine_status_high; [|done].
    rewrite Hm. discriminate.
Qed.

(** The rule at three concrete pairs: $400 with liquidity $50; Raydium
    (spelt with a capital) at $60,000 with liquidity $20,000; pumpfun at
    $150,000, market cap reported as fdv, liquidity $20,000. *)
Lemma status_rule_witness :
  _determine_status (Some (mkPair (Some 400%Q) None (Some "pumpfun") (Some 50%Q)))
                    bonding_curve = rugged
  /\ _determine_status
       (Some (mkPair (Some 60000%Q) None (Some "Raydium") (Some 20000%Q)))
       bonding_curve = graduated
  /\ _determine_status
       (Some (mkPair None (Some 150000%Q) (Some "pumpfun") (Some 20000%Q)))
       bonding_curve = graduated.
Proof.
  destruct status_rule as (_ & _ & _ & _ & _ & H1 & H2 & H3).
  split; [|split].
  - apply H1; reflexivity.
  - apply H2; [|reflexivity|discriminate].
    unfold listed. apply (bool_decide_unpack _). vm_compute. exact I.
  - apply H3; [|reflexivity|discriminate].
    unfold listed. apply (proj1 (bool_decide_eq_false _)). vm_compute.
    reflexivity.
Defined.

(** *** Transitions of the sweep *)

Lemma update_token_status pair tok :
  Token.status (update_token pair tok)
  = _determine_status pair (Token.status tok).
Proof. reflexivity. Qed.

Lemma sweep_rugged now pd tok :
  Token.status tok = rugged -> sweep_token now pd tok = tok.
Proof.
  intros H. unfold sweep_token, selected. rewrite H. reflexivity.
Qed.

Lemma determine_status_graduated pair :
  _determine_status pair graduated = rugged
  /\ (exists p, pair = Some p /\ rugged_cond p)
  \/ _determine_status pair graduated = graduated
     /\ ~ (exists p, pair = Some p /\ rugged_cond p).
Proof.
  destruct pair as [p|].
  - destruct (determine_status_cases p graduated)
      as [[R E]|[(N&_&_&E)|[(N&_&E)|(N&_&_&E)]]].
    + left. eauto.
    + right. split; [exact E|]. intros (q & [= <-] & R). tauto.
    + right. split; [exact E|]. intros (q & [= <-] & R). tauto.
    + right. split; [exact E|]. intros (q & [= <-] & R). tauto.
  - right. split; [reflexivity|]. intros (q & [=] & _).
Qed.

Lemma sweep_graduated now pd tok :
  Token.status tok = graduated ->
  Token.status (sweep_token now pd tok) = rugged
  /\ (fresh now tok = true
      /\ exists p, pd !! Token.contract_address tok = Some p /\ rugged_cond p)
  \/ Token.status (sweep_token now pd tok) = graduated
     /\ ~ (fresh now tok = true
           /\ exists p, pd !! Token.contract_address tok = Some p
                        /\ rugged_cond p).
Proof.
  intros H. unfold sweep_token, selected. rewrite H. simpl.
  destruct (fresh now tok) eqn:F.
  - rewrite update_token_status, H.
    destruct (determine_status_graduated (pd !! Token.contract_address tok))
      as [[E X]|[E X]]; [left|right]; split; try done. tauto.
  - right. split; [exact H|]. intros [? _]. discriminate.
Qed.

Lemma price_sweep_lookup now pd (tokens : list Token.t) i :
  price_sweep now pd tokens !! i = sweep_token now pd <$> tokens !! i.
Proof. unfold price_sweep. apply list_lookup_fmap. Qed.

Lemma price_sweeps_rugged steps : forall (tokens : list Token.t) i tok,
  tokens !! i = Some tok -> Token.status tok = rugged ->
  price_sweeps steps tokens !! i = Some tok.
Proof.
  induction steps as [|[now pd] steps IH]; intros tokens i tok Hi Hs.
  - exact Hi.
  - unfold price_sweeps. simpl. apply IH; [|exact Hs].
    rewrite price_sweep_lookup, Hi. simpl. f_equal. by apply sweep_rugged.
Qed.

Lemma price_sweeps_not_bonding steps : forall (tokens : list Token.t) i tok,
  tokens !! i = Some tok -> Token.status tok <> bonding_curve ->
  exists tok', price_sweeps steps tokens !! i = Some tok'
               /\ Token.status tok' <> bonding_curve.
Proof.
  induction steps as [|[now pd] steps IH]; intros tokens i tok Hi Hs.
  - exists tok. done.
  - unfold price_sweeps. simpl.
    apply (IH _ i (sweep_token now pd tok)).
    + rewrite price_sweep_lookup, Hi. reflexivity.
    + destruct (Token.status tok) eqn:E; [done| |].
      * destruct (sweep_graduated now pd tok E) as [[-> _]|[-> _]]; done.
      * rewrite sweep_rugged; [|exact E]. rewrite E. done.
Qed.

(** C5, what the code does with a graduated token: it is still loaded by
    the sweep (line 112), and a pair at $400 takes it to rugged. *)
Lemma sweep_demotes_graduated :
  let tok := Token.mk "A" "SYM" 0 "dev" 60000%Q graduated in
  let pd : gmap string Pair :=
    {[ "A" := mkPair (Some 400%Q) None (Some "raydium") (Some 50%Q) ]} in
  Token.status tok = graduated
  /\ Token.status (sweep_token 1 pd tok) = rugged
  /\ Token.status <$> price_sweep 1 pd [tok] = [rugged].
Proof. cbv zeta. split; [|split]; vm_compute; reflexivity. Qed.

(** C5 as amended: rugged is final and graduated is not.  A rugged
    token is left exactly as it is by every sweep and by every run of
    sweeps, since the sweep loads bonding-curve and graduated tokens only.
    A graduated token never returns to the bonding curve, in one sweep or
    in many, but a sweep changes it to rugged exactly when the token is
    at most 48 hours old and its pair meets the rugged condition;
    otherwise it stays graduated. *)
Theorem sweep_status_transitions :
  (forall now pd tok,
      Token.status tok = rugged -> sweep_token now pd tok = tok)
  /\ (forall steps (tokens : list Token.t) i tok,
        tokens !! i = Some tok -> Token.status tok = rugged ->
        price_sweeps steps tokens !! i = Some tok)
  /\ (forall now pd tok,
        Token.status tok = graduated ->
        (Token.status (sweep_token now pd tok) = rugged
         <-> fresh now tok = true
             /\ exists p, pd !! Token.contract_address tok = Some p
                          /\ rugged_cond p)
        /\ (Token.status (sweep_token now pd tok) = graduated
            <-> ~ (fresh now tok = true
                   /\ exists p, pd !! Token.contract_address tok = Some p
                                /\ rugged_cond p)))
  /\ (forall steps (tokens : list Token.t) i tok,
        tokens !! i = Some tok -> Token.status tok = graduated ->
        exists tok', price_sweeps steps tokens !! i = Some tok'
                     /\ Token.status tok' <> bonding_curve).
Proof.
  split; [exact sweep_rugged|]. split; [exact price_sweeps_rugged|]. split.
  - intros now pd tok H.
    destruct (sweep_graduated now pd tok H) as [[E X]|[E X]];
      rewrite E; split; split; try done; tauto.
  - intros steps tokens i tok Hi Hs.
    apply (price_sweeps_not_bonding steps tokens i tok Hi). rewrite Hs. done.
Qed.

(** The transitions on a two-row table swept twice: the rugged row is
    untouched, the graduated row is not back on the bonding curve. *)
Lemma sweep_status_transitions_witness :
  let r := Token.mk "R" "RUG" 0 "dev" 10%Q rugged in
  let g := Token.mk "G" "GRD" 0 "dev" 60000%Q graduated in
  let pd : gmap string Pair :=
    {[ "R" := mkPair (Some 200000%Q) None (Some "raydium") (Some 9000%Q) ]} in
  price_sweeps [(1, pd); (2, pd)] [r; g] !! O = Some r
  /\ exists tok', price_sweeps [(1, pd); (2, pd)] [r; g] !! 1%nat = Some tok'
                  /\ Token.status tok' <> bonding_curve.
Proof.
  cbv zeta. destruct sweep_status_transitions as (_ & H2 & _ & H4). split.
  - apply H2; reflexivity.
  - eapply H4; reflexivity.
Defined.

End PriceBotSpec.

(** ** The scan pipeline *)

Module AnalyzerSpec.
Import Analyzer.

Lemma find_filter_nil {A} (f : A -> bool) (l : list A) :
  find f l = None <-> filter (fun x => f x) l = [].
Proof.
  induction l as [|x l IH]; [done|]. simpl. rewrite filter_cons.
  destruct (f x) eqn:E.
  - rewrite decide_True by exact I. done.
  - rewrite decide_False by (intros []). exact IH.
Qed.

Lemma find_app_None {A} (f : A -> bool) (l k : list A) :
  find f l = None -> find f (l ++ k) = find f k.
Proof.
  induction l as [|x l IH]; [done|]. simpl.
  destruct (f x); [done|]. exact IH.
Qed.

Lemma get_token_tokens_at a db : get_token a db = None <-> tokens_at a db = [].
Proof. apply find_filter_nil. Qed.

(** The flush of a scan that found no token of that address: both rows
    go in. *)
Lemma persist_fresh w a meta n db :
  get_token a db = None ->
  persist w a meta n (confidence_of n) db = Committed (with_signal w a meta n db).
Proof.
  intros H. unfold persist, insert_token. simpl. rewrite H. simpl.
  unfold insert_signal, get_token. simpl.
  rewrite find_app_None by exact H. simpl.
  rewrite bool_decide_eq_true_2 by reflexivity. reflexivity.
Qed.

(** The flush of a scan that lost the race: the token INSERT fails and
    nothing is written. *)
Lemma persist_conflict w a meta n conf db :
  is_Some (get_token a db) -> persist w a meta n conf db = IntegrityError.
Proof.
  intros [t H]. unfold persist, insert_token. simpl. rewrite H. reflexivity.
Qed.

(** Every way through the scan, with what the other writers did. *)
Lemma scan_among_cases i1 i2 w a db :
  (is_Some (get_token a db)
   /\ scan_new_token_among i1 i2 w a db = (Already_scanned, db))
  \/ (get_token a db = None /\ get_token_metadata w a = None
      /\ scan_new_token_among i1 i2 w a db = (No_metadata, i1 db))
  \/ (exists meta,
        get_token a db = None /\ get_token_metadata w a = Some meta
        /\ 10 * minute_us < scan_now w - created_at meta
        /\ scan_new_token_among i1 i2 w a db = (Too_old, i1 db))
  \/ (exists meta,
        get_token a db = None /\ get_token_metadata w a = Some meta
        /\ scan_now w - created_at meta <= 10 * minute_us
        /\ match_count w (i2 (i1 db)) < 2
        /\ scan_new_token_among i1 i2 w a db
           = (Too_few (match_count w (i2 (i1 db))), i2 (i1 db)))
  \/ (exists meta,
        get_token a db = None /\ get_token_metadata w a = Some meta
        /\ scan_now w - created_at meta <= 10 * minute_us
        /\ 2 <= match_count w (i2 (i1 db))
        /\ get_token a (i2 (i1 db)) = None
        /\ scan_new_token_among i1 i2 w a db
           = (Signal_generated (confidence_of (match_count w (i2 (i1 db)))),
              with_signal w a meta (match_count w (i2 (i1 db))) (i2 (i1 db))))
  \/ (exists meta,
        get_token a db = None /\ get_token_metadata w a = Some meta
        /\ scan_now w - created_at meta <= 10 * minute_us
        /\ 2 <= match_count w (i2 (i1 db))
        /\ is_Some (get_token a (i2 (i1 db)))
        /\ scan_new_token_among i1 i2 w a db
           = (Raised_IntegrityError, i2 (i1 db))).
Proof.
  unfold scan_new_token_among.
  destruct (get_token a db) as [t|] eqn:Hd; [left; eauto|]. right.
  destruct (get_token_metadata w a) as [meta|] eqn:Hm; [|left; done]. right.
  cbv zeta.
  destruct (10 * minute_us <? scan_now w - created_at meta) eqn:Ha.
  { left. exists meta. apply Z.ltb_lt in Ha. done. }
  right. apply Z.ltb_ge in Ha.
  fold (match_count w (i2 (i1 db))).
  destruct (match_count w (i2 (i1 db)) <? 2) eqn:Hc.
  { left. exists meta. apply Z.ltb_lt in Hc. done. }
  right. apply Z.ltb_ge in Hc.
  destruct (get_token a (i2 (i1 db))) as [t|] eqn:Hr.
  - right. exists meta. rewrite persist_conflict by (rewrite Hr; eauto).
    repeat split; eauto.
  - left. exists meta. rewrite persist_fresh by exact Hr. done.
Qed.

(** The same, for a scan that runs alone. *)
Lemma scan_cases w a db :
  (is_Some (get_token a db) /\ scan_new_token w a db = (Already_scanned, db))
  \/ (get_token a db = None /\ get_token_metadata w a = None
      /\ scan_new_token w a db = (No_metadata, db))
  \/ (exists meta,
        get_token a db = None /\ get_token_metadata w a = Some meta
        /\ 10 * minute_us < scan_now w - created_at meta
        /\ scan_new_token w a db = (Too_old, db))
  \/ (exists meta,
        get_token a db = None /\ get_token_metadata w a = Some meta
        /\ scan_now w - created_at meta <= 10 * minute_us
        /\ match_count w db < 2
        /\ scan_new_token w a db = (Too_few (match_count w db), db))
  \/ (exists meta,
        get_token a db = None /\ get_token_metadata w a = Some meta
        /\ scan_now w - created_at meta <= 10 * minute_us
        /\ 2 <= match_count w db
        /\ scan_new_token w a db
           = (Signal_generated (confidence_of (match_count w db)),
              with_signal w a meta (match_count w db) db)).
Proof.
  unfold scan_new_token.
  destruct (scan_among_cases id id w a db)
    as [H|[H|[H|[H|[H|(meta & Hd & _ & _ & _ & Hr & _)]]]]]; simpl in *.
  - left. exact H.
  - right. left. exact H.
  - right. right. left. exact H.
  - right. right. right. left. exact H.
  - right. right. right. right.
    destruct H as (meta & ? & ? & ? & ? & ? & ?). exists meta. done.
  - rewrite Hd in Hr. destruct Hr as [? [=]].
Qed.

Lemma get_token_with_signal w a meta n db :
  get_token a db = None -> is_Some (get_token a (with_signal w a meta n db)).
Proof.
  intros H. unfold get_token, with_signal. simpl.
  rewrite find_app_None by exact H. simpl.
  rewrite bool_decide_eq_true_2 by reflexivity. eauto.
Qed.

Lemma tokens_at_with_signal w a meta n db :
  get_token a db = None -> length (tokens_at a (with_signal w a meta n db)) = 1%nat.
Proof.
  intros H. apply get_token_tokens_at in H.
  unfold tokens_at in *. simpl. rewrite filter_app, H. simpl.
  rewrite filter_cons, decide_True; [reflexivity|].
  simpl. rewrite bool_decide_eq_true_2 by reflexivity. exact I.
Qed.

Lemma scan_dedup w a db :
  is_Some (get_token a db) -> scan_new_token w a db = (Already_scanned, db).
Proof.
  intros [t H]. unfold scan_new_token, scan_new_token_among. rewrite H.
  reflexivity.
Qed.

(** A scan either leaves the database as it found it, or adds the token,
    after which the token is there. *)
Lemma scan_effect w a db :
  snd (scan_new_token w a db) = db
  \/ (get_token a db = None
      /\ (exists c, fst (scan_new_token w a db) = Signal_generated c)
      /\ is_Some (get_token a (snd (scan_new_token w a db)))
      /\ length (tokens_at a (snd (scan_new_token w a db))) = 1%nat).
Proof.
  destruct (scan_cases w a db)
    as [[_ E]|[(_&_&E)|[(m&_&_&_&E)|[(m&_&_&_&_&E)|(m&Hd&_&_&_&E)]]]];
    rewrite E; simpl; try (left; reflexivity).
  right. split; [exact Hd|]. split; [eauto|]. split.
  - by apply get_token_with_signal.
  - by apply tokens_at_with_signal.
Qed.

Lemma deliver_all_present ws : forall a db,
  is_Some (get_token a db) -> deliver_all ws a db = db.
Proof.
  induction ws as [|w ws IH]; intros a db H; [reflexivity|].
  unfold deliver_all in *. simpl. rewrite scan_dedup by exact H. simpl.
  by apply IH.
Qed.

Lemma deliver_all_tokens_at ws : forall a db,
  (length (tokens_at a db) <= 1)%nat ->
  (length (tokens_at a (deliver_all ws a db)) <= 1)%nat.
Proof.
  induction ws as [|w ws IH]; intros a db H; [exact H|].
  unfold deliver_all in *. simpl. apply IH.
  destruct (scan_effect w a db) as [E|(_ & _ & _ & E)]; rewrite E; lia.
Qed.

Lemma deliver_once n w a db : deliver (S n) w a db = deliver 1 w a db.
Proof.
  revert db. induction n as [|n IH]; intros db; [reflexivity|].
  change (deliver (S (S n)) w a db)
    with (deliver (S n) w a (snd (scan_new_token w a db))).
  rewrite IH. simpl.
  destruct (scan_effect w a db) as [E|(_ & _ & Hs & _)].
  - rewrite !E. reflexivity.
  - rewrite scan_dedup by exact Hs. reflexivity.
Qed.

(** C1: the dedup check makes the scan idempotent.  A scan of an
    address that has a Token row stops at once and leaves the database
    as it is; deliveries of one candidate never leave more than one Token
    row of its address; delivering the candidate any number of times is
    the same as delivering it once; and once a delivery has produced the
    Token, whatever deliveries follow change nothing. *)
Theorem scan_idempotent :
  (forall w a db,
      is_Some (get_token a db) ->
      scan_new_token w a db = (Already_scanned, db))
  /\ (forall ws a db,
        (length (tokens_at a db) <= 1)%nat ->
        (length (tokens_at a (deliver_all ws a db)) <= 1)%nat)
  /\ (forall n w a db, deliver (S n) w a db = deliver 1 w a db)
  /\ (forall w ws a db c,
        fst (scan_new_token w a db) = Signal_generated c ->
        deliver_all (w :: ws) a db = snd (scan_new_token w a db))
  /\ (forall ws a db, is_Some (get_token a db) -> deliver_all ws a db = db).
Proof.
  split; [exact scan_dedup|]. split; [intros ws; apply deliver_all_tokens_at|].
  split; [exact deliver_once|]. split; [|intros ws; apply deliver_all_present].
  intros w ws a db c H.
  change (deliver_all (w :: ws) a db)
    with (deliver_all ws a (snd (scan_new_token w a db))).
  apply deliver_all_present.
  destruct (scan_effect w a db) as [E|(_ & _ & Hs & _)]; [|exact Hs].
  destruct (scan_cases w a db)
    as [[Hs E']|[(_&_&E')|[(m&_&_&_&E')|[(m&_&_&_&_&E')|(m&Hd&_&_&_&E')]]]];
    rewrite E' in H; simpl in H; try discriminate.
  rewrite E'. simpl. by apply get_token_with_signal.
Qed.

(** Three deliveries of the sample candidate against the sample
    database, and a mixed run of five. *)
Lemma scan_idempotent_witness :
  deliver 3 Examples.world_hot Examples.mint Examples.db0
  = deliver 1 Examples.world_hot Examples.mint Examples.db0
  /\ (length (tokens_at Examples.mint
                (deliver_all [Examples.world_cold; Examples.world_hot;
                              Examples.world_hot; Examples.world_cold;
                              Examples.world_hot]
                             Examples.mint Examples.db0)) <= 1)%nat
  /\ deliver_all [Examples.world_hot; Examples.world_cold; Examples.world_hot]
                 Examples.mint Examples.db0
     = snd (scan_new_token Examples.world_hot Examples.mint Examples.db0).
Proof.
  destruct scan_idempotent as (_ & H2 & H3 & H4 & _).
  split; [apply H3|]. split.
  - apply H2. vm_compute. lia.
  - apply (H4 _ _ _ _ 70). vm_compute. reflexivity.
Defined.

Lemma confidence_of_min n : confidence_of n = Z.min 100 (50 + 10 * n).
Proof. unfold confidence_of. lia. Qed.

Lemma confidence_of_range n : 0 <= n -> 50 <= confidence_of n <= 100.
Proof. unfold confidence_of. lia. Qed.

Lemma match_count_nonneg w db : 0 <= match_count w db.
Proof. unfold match_count. lia. Qed.

(** C2: a scan that generates a signal persists a Signal whose
    confidence score is min(100, 50 + 10 x match_count), a number between
    50 and 100, where match_count, at least 2, is the number of active
    tracked wallets among the signers; and a scan with match_count below
    2 persists nothing: no Signal and no Token. *)
Theorem scan_confidence :
  (forall w a db c db',
      scan_new_token w a db = (Signal_generated c, db') ->
      2 <= match_count w db
      /\ c = Z.min 100 (50 + 10 * match_count w db)
      /\ 50 <= c <= 100
      /\ exists s,
           signals db' = (signals db ++ [s])%list
           /\ Signal.token_address s = a
           /\ Signal.smart_wallet_count s = match_count w db
           /\ Signal.confidence_score s = c)
  /\ (forall w a db,
        match_count w db < 2 -> snd (scan_new_token w a db) = db).
Proof.
  split.
  - intros w a db c db' H.
    destruct (scan_cases w a db)
      as [[_ E]|[(_&_&E)|[(m&_&_&_&E)|[(m&_&_&_&_&E)|(m&_&_&_&Hn&E)]]]];
      rewrite E in H; try discriminate.
    injection H as <- <-. split; [exact Hn|].
    split; [apply confidence_of_min|].
    split; [apply confidence_of_range, match_count_nonneg|].
    eexists. split; [reflexivity|]. done.
  - intros w a db Hn.
    destruct (scan_cases w a db)
      as [[_ E]|[(_&_&E)|[(m&_&_&_&E)|[(m&_&_&_&_&E)|(m&_&_&_&Hn'&E)]]]];
      rewrite E; try reflexivity. lia.
Qed.

(** The sample token with two matches scores 70; with one match nothing
    is written. *)
Lemma scan_confidence_witness :
  (exists s,
      signals (snd (scan_new_token Examples.world_hot Examples.mint Examples.db0))
      = (signals Examples.db0 ++ [s])%list
      /\ Signal.confidence_score s = 70)
  /\ snd (scan_new_token Examples.world_cold Examples.mint Examples.db0)
     = Examples.db0.
Proof.
  destruct scan_confidence as [H1 H2]. split.
  - destruct (H1 Examples.world_hot Examples.mint Examples.db0 70
                 (snd (scan_new_token Examples.world_hot Examples.mint
                                      Examples.db0)))
      as (_ & _ & _ & s & Hs & _ & _ & Hc).
    + vm_compute. reflexivity.
    + exists s. split; [exact Hs | exact Hc].
  - apply H2. vm_compute. reflexivity.
Defined.




(** C7, the race as the code runs it: the sample candidate passes the
    dedup check, another writer inserts its Token while the scan awaits
    the metadata, and the commit of the scan raises the duplicate-key
    error of the store.  The scan does not end as the dedup case does. *)
Lemma scan_conflict_raises :
  get_token Examples.mint Examples.db0 = None
  /\ is_Some (get_token Examples.mint (Examples.rival Examples.db0))
  /\ scan_new_token_among Examples.rival id Examples.world_hot Examples.mint
                          Examples.db0
     = (Raised_IntegrityError, Examples.rival Examples.db0)
  /\ fst (scan_new_token_among Examples.rival id Examples.world_hot
                               Examples.mint Examples.db0)
     <> Already_scanned.
Proof.
  split; [reflexivity|]. split; [vm_compute; eauto|].
  split; [vm_compute; reflexivity|]. vm_compute. discriminate.
Qed.

(** C7 as amended: when a Token row of the candidate's address is
    created by another writer between the dedup check and the commit, a
    scan that clears the filters (metadata, age at most 10 minutes, at
    least 2 matches) does not end as the dedup case: its commit raises
    the duplicate-key error, which [scan_new_token] does not handle, and
    the database stays as the other writer left it.  A scan that stops
    at a filter writes nothing either.  Token and Signal are written in
    one transaction: whatever the other writers do, a scan adds either
    nothing, or exactly one Token row and one Signal row of the
    candidate's address. *)
Theorem scan_conflict :
  (forall i1 i2 w a db meta,
      get_token a db = None ->
      is_Some (get_token a (i2 (i1 db))) ->
      get_token_metadata w a = Some meta ->
      scan_now w - created_at meta <= 10 * minute_us ->
      2 <= match_count w (i2 (i1 db)) ->
      scan_new_token_among i1 i2 w a db
      = (Raised_IntegrityError, i2 (i1 db)))
  /\ (forall i1 i2 w a db,
        get_token a db = None ->
        is_Some (get_token a (i2 (i1 db))) ->
        fst (scan_new_token_among i1 i2 w a db) <> Already_scanned
        /\ (forall c,
              fst (scan_new_token_among i1 i2 w a db) <> Signal_generated c)
        /\ (snd (scan_new_token_among i1 i2 w a db) = i1 db
            \/ snd (scan_new_token_among i1 i2 w a db) = i2 (i1 db)))
  /\ (forall i1 i2 w a db,
        exists cur,
          (cur = db \/ cur = i1 db \/ cur = i2 (i1 db))
          /\ (snd (scan_new_token_among i1 i2 w a db) = cur
              \/ exists t s,
                   tokens (snd (scan_new_token_among i1 i2 w a db))
                   = (tokens cur ++ [t])%list
                   /\ signals (snd (scan_new_token_among i1 i2 w a db))
                      = (signals cur ++ [s])%list
                   /\ Token.contract_address t = a
                   /\ Signal.token_address s = a
                   /\ tracked_wallets (snd (scan_new_token_among i1 i2 w a db))
                      = tracked_wallets cur
                   /\ smart_wallet_candidates
                        (snd (scan_new_token_among i1 i2 w a db))
                      = smart_wallet_candidates cur)).
Proof.
  split; [|split].
  - intros i1 i2 w a db meta Hd Hr Hm Ha Hn.
    destruct (scan_among_cases i1 i2 w a db)
      as [[[t Hs] _]|[(_&Hm'&_)|[(m&_&Hm'&Ha'&_)|[(m&_&Hm'&_&Hn'&_)
         |[(m&_&Hm'&_&_&Hr'&_)|(m&_&_&_&_&_&E)]]]]];
      try congruence; try (assert (m = meta) as -> by congruence; lia).
    rewrite Hr' in Hr. destruct Hr as [? [=]].
  - intros i1 i2 w a db Hd Hr.
    destruct (scan_among_cases i1 i2 w a db)
      as [[[t Hs] _]|[(_&_&E)|[(m&_&_&_&E)|[(m&_&_&_&_&E)
         |[(m&_&_&_&_&Hr'&_)|(m&_&_&_&_&_&E)]]]]];
      try congruence; try (rewrite E; simpl; split; [done|split; [done|tauto]]).
    rewrite Hr' in Hr. destruct Hr as [? [=]].
  - intros i1 i2 w a db.
    destruct (scan_among_cases i1 i2 w a db)
      as [[_ E]|[(_&_&E)|[(m&_&_&_&E)|[(m&_&_&_&_&E)
         |[(m&_&_&_&_&_&E)|(m&_&_&_&_&_&E)]]]]]; rewrite E; simpl.
    + exists db. tauto.
    + exists (i1 db). tauto.
    + exists (i1 db). tauto.
    + exists (i2 (i1 db)). tauto.
    + exists (i2 (i1 db)). split; [tauto|]. right.
      do 2 eexists. repeat split.
    + exists (i2 (i1 db)). tauto.
Qed.

(** The race on the sample data. *)
Lemma scan_conflict_witness :
  scan_new_token_among Examples.rival id Examples.world_hot Examples.mint
                       Examples.db0
  = (Raised_IntegrityError, Examples.rival Examples.db0).
Proof.
  refine (proj1 scan_conflict Examples.rival id Examples.world_hot
                Examples.mint Examples.db0
                (mkMeta "MEME" (Examples.t0 * second_us) "DevWallet" 0)
                _ _ _ _ _).
  - reflexivity.
  - vm_compute. eauto.
  - vm_compute. reflexivity.
  - vm_compute. discriminate.
  - vm_compute. discriminate.
Defined.

Lemma metadata_blank w a :
  _fetch_enhanced_transactions (meta_response w) = Fetch_ok [] ->
  get_token_metadata w a
  = Some (mkMeta (default (prefix6 a) (das_symbol w)) (meta_now w)
                 "unknown" 0).
Proof.
  intros H. unfold get_token_metadata. rewrite H. reflexivity.
Qed.

(** C10, the claim as it stands: the transaction fetch answers with an
    empty list, the metadata is resolved with created_at the clock
    reading of line 76, and the scan reads the clock again at line 217,
    after the symbol lookup.  Eleven minutes lie between the two
    readings: the candidate is dropped as too old and never reaches the
    cross-reference. *)
Lemma blank_history_dropped :
  _fetch_enhanced_transactions (meta_response Samples.world_stalled) = Fetch_ok []
  /\ get_token Examples.mint Examples.db0 = None
  /\ (exists meta,
        get_token_metadata Samples.world_stalled Examples.mint = Some meta
        /\ created_at meta = meta_now Samples.world_stalled
        /\ dev_address meta = "unknown")
  /\ scan_new_token Samples.world_stalled Examples.mint Examples.db0
     = (Too_old, Examples.db0)
  /\ reached_cross_reference
       (fst (scan_new_token Samples.world_stalled Examples.mint Examples.db0))
     = false.
Proof.
  split; [reflexivity|]. split; [reflexivity|]. split; [|split].
  - eexists. split; [vm_compute; reflexivity|]. split; reflexivity.
  - vm_compute. reflexivity.
  - vm_compute. reflexivity.
Qed.

(** C10 as amended: when the transaction fetch of the metadata step
    answers with an empty list and no exception, the metadata is
    resolved all the same, with created_at the clock reading of that
    step, the dev address unknown and a market cap of 0.  The scan of
    such a candidate is dropped as too old exactly when more than 10
    minutes lie between that reading and the clock reading of the age
    test, and then nothing is written.  Otherwise it goes on to the
    cross-reference and ends as the cross-reference decides: with fewer
    than 2 matches nothing is written; with 2 or more the Token is
    stored with that creation time and the unknown dev address, together
    with its Signal. *)
Theorem blank_history_passes :
  (forall w a,
      _fetch_enhanced_transactions (meta_response w) = Fetch_ok [] ->
      get_token_metadata w a
      = Some (mkMeta (default (prefix6 a) (das_symbol w)) (meta_now w)
                     "unknown" 0))
  /\ (forall w a db,
        _fetch_enhanced_transactions (meta_response w) = Fetch_ok [] ->
        get_token a db = None ->
        (10 * minute_us < scan_now w - meta_now w ->
         scan_new_token w a db = (Too_old, db))
        /\ (fst (scan_new_token w a db) = Too_old
            <-> 10 * minute_us < scan_now w - meta_now w)
        /\ (reached_cross_reference (fst (scan_new_token w a db)) = true
            <-> scan_now w - meta_now w <= 10 * minute_us)
        /\ (scan_now w - meta_now w <= 10 * minute_us ->
            match_count w db < 2 ->
            scan_new_token w a db = (Too_few (match_count w db), db))
        /\ (scan_now w - meta_now w <= 10 * minute_us ->
            2 <= match_count w db ->
            scan_new_token w a db
            = (Signal_generated (confidence_of (match_count w db)),
               with_signal w a
                 (mkMeta (default (prefix6 a) (das_symbol w)) (meta_now w)
                         "unknown" 0)
                 (match_count w db) db))).
Proof.
  split; [exact metadata_blank|].
  intros w a db H Hd. pose proof (metadata_blank w a H) as Hm.
  destruct (scan_cases w a db)
    as [[[t Hs] _]|[(_&Hn&_)|[(m&_&Hm'&Ha&E)|[(m&_&Hm'&Ha&Hc&E)|(m&_&Hm'&Ha&Hc&E)]]]];
    try congruence;
    rewrite Hm in Hm'; injection Hm' as <-; cbn [created_at] in Ha;
    rewrite E; cbn [fst reached_cross_reference];
    repeat split; intros; try done; try lia.
Qed.

(** The sample candidate before Helius has indexed any transaction:
    two seconds after the lookup it clears the age test, both active
    wallets match, and the Token is stored with the time of the lookup
    and the unknown dev address. *)
Lemma blank_history_passes_witness :
  get_token_metadata Examples.world_blank Examples.mint
  = Some (mkMeta "7xKXtg" (meta_now Examples.world_blank) "unknown" 0)
  /\ scan_new_token Examples.world_blank Examples.mint Examples.db0
     = (Signal_generated 70,
        with_signal Examples.world_blank Examples.mint
          (mkMeta "7xKXtg" (meta_now Examples.world_blank) "unknown" 0)
          2 Examples.db0).
Proof.
  destruct blank_history_passes as [H1 H2]. split.
  - exact (H1 Examples.world_blank Examples.mint eq_refl).
  - refine (proj2 (proj2 (proj2 (proj2
              (H2 Examples.world_blank Examples.mint Examples.db0
                  eq_refl eq_refl)))) _ _).
    + vm_compute. discriminate.
    + vm_compute. discriminate.
Defined.

End AnalyzerSpec.

(** ** The listener *)

Module ListenerSpec.
Import Listener.

Lemma first_address_head parts :
  first_address parts
  = head (filter (fun t => is_address t = true) (strip <$> parts)).
Proof.
  induction parts as [|part parts IH]; [reflexivity|].
  simpl. rewrite filter_cons. destruct (is_address (strip part)) eqn:E.
  - rewrite decide_True by reflexivity. reflexivity.
  - rewrite decide_False by discriminate. exact IH.
Qed.

(** The nested loops of the function are a search for the first
    qualifying token among the tokens of the lines with Create or
    create. *)
Lemma extract_first_qualifying log_messages :
  _extract_token_address_from_logs log_messages
  = first_qualifying has_create log_messages.
Proof.
  unfold first_qualifying, marked_tokens.
  induction log_messages as [|msg rest IH]; [reflexivity|].
  simpl. rewrite filter_cons. destruct (has_create msg) eqn:E.
  - rewrite decide_True by reflexivity. simpl.
    rewrite fmap_app, filter_app, head_app, <- first_address_head.
    destruct (first_address (split msg)); [reflexivity|exact IH].
  - rewrite decide_False by discriminate. exact IH.
Qed.

Lemma is_address_spec cleaned :
  is_address cleaned = true
  <-> (32 <= String.length cleaned <= 44)%nat /\ isalnum cleaned = true.
Proof.
  unfold is_address. rewrite !andb_true_iff, !Nat.leb_le. tauto.
Qed.

Lemma prefix_lower needle : forall s,
  String.prefix needle s = true ->
  String.prefix (PriceBot.lower needle) (PriceBot.lower s) = true.
Proof.
  induction needle as [|a needle IH]; intros s H; [by destruct s|].
  destruct s as [|b s]; [discriminate|]. simpl in *.
  destruct (ascii_dec a b) as [->|]; [|discriminate].
  destruct (ascii_dec _ _); [|done]. by apply IH.
Qed.

Lemma contains_lower needle : forall s,
  contains needle s = true ->
  contains (PriceBot.lower needle) (PriceBot.lower s) = true.
Proof.
  induction s as [|b s IH]; intros H.
  - simpl in *. rewrite orb_false_r in *. by apply (prefix_lower needle EmptyString).
  - change (contains needle (String b s))
      with (String.prefix needle (String b s) || contains needle s) in H.
    change (contains (PriceBot.lower needle) (PriceBot.lower (String b s)))
      with (String.prefix (PriceBot.lower needle) (PriceBot.lower (String b s))
            || contains (PriceBot.lower needle) (PriceBot.lower s)).
    apply orb_true_iff in H as [H|H]; apply orb_true_iff.
    + left. by apply prefix_lower.
    + right. by apply IH.
Qed.

(** A line the code takes for a creation line is one in the sense of
    the specification. *)
Lemma has_create_spec_marker msg :
  has_create msg = true -> spec_marker msg = true.
Proof.
  unfold has_create, spec_marker. intros H.
  apply orb_true_iff in H as [H|H]; apply orb_true_iff; left.
  - exact (contains_lower "Create" msg H).
  - exact (contains_lower "create" msg H).
Qed.

Lemma filter_markers_agree (log_messages : list string) :
  (forall msg, msg ∈ log_messages -> spec_marker msg = true -> has_create msg = true) ->
  filter (fun m => spec_marker m = true) log_messages
  = filter (fun m => has_create m = true) log_messages.
Proof.
  induction log_messages as [|msg rest IH]; intros H; [reflexivity|].
  rewrite !filter_cons, IH by (intros m Hm; apply H; by right).
  destruct (has_create msg) eqn:E.
  - rewrite (has_create_spec_marker msg E). reflexivity.
  - destruct (spec_marker msg) eqn:E'; [|reflexivity].
    rewrite H in E by (done || by left). discriminate.
Qed.

(** C8, two lines that carry a marker in the sense of the claim and a
    well-formed address, on which the function finds nothing: the word
    in capitals, and InitializeMint without the word. *)
Lemma extract_misses_markers :
  let upper := "Program log: CREATE " +:+ Examples.mint in
  let init := "Program log: InitializeMint " +:+ Examples.mint in
  spec_marker upper = true
  /\ spec_extract [upper] = Some Examples.mint
  /\ _extract_token_address_from_logs [upper] = None
  /\ spec_marker init = true
  /\ spec_extract [init] = Some Examples.mint
  /\ _extract_token_address_from_logs [init] = None.
Proof. cbv zeta. repeat split; vm_compute; reflexivity. Qed.

(** C8 as amended: the creation marker of the log-based extraction is
    the word in the two spellings Create and create, not in every
    capitalisation.  For every list of log lines (lines whose only marker
    is InitializeMint are left out of the statement), the function scans
    the whitespace-separated tokens of the lines containing Create or
    create, in order, and returns the first token that, stripped of
    surrounding punctuation, is alphanumeric and 32 to 44 characters
    long, or none when no such line has such a token.  On the lists where
    every marker line in the sense of the specification has one of the
    two spellings, this is the extraction the specification describes. *)
Theorem extract_from_logs (log_messages : list string) :
  (forall msg, msg ∈ log_messages ->
               contains "InitializeMint" msg = true -> has_create msg = true) ->
  _extract_token_address_from_logs log_messages
  = first_qualifying has_create log_messages
  /\ (forall cleaned,
        _extract_token_address_from_logs log_messages = Some cleaned ->
        (32 <= String.length cleaned <= 44)%nat /\ isalnum cleaned = true)
  /\ ((forall msg, msg ∈ log_messages ->
                   spec_marker msg = true -> has_create msg = true) ->
      _extract_token_address_from_logs log_messages
      = spec_extract log_messages).
Proof.
  intros _. split; [apply extract_first_qualifying|]. split.
  - intros cleaned H. rewrite extract_first_qualifying in H.
    apply head_Some_elem_of, list_elem_of_filter in H as [H _].
    by apply is_address_spec.
  - intros H. rewrite extract_first_qualifying.
    unfold spec_extract, first_qualifying, marked_tokens.
    by rewrite filter_markers_agree.
Qed.

(** A bundle of three lines: the mint is the first qualifying token of
    the second. *)
Lemma extract_from_logs_witness :
  _extract_token_address_from_logs
    [ "Program 6EF8rrecthR5Dkzon8Nwu78hRvfCKubJ14M5uBEwF6P invoke [1]";
      "Program log: Create: (" +:+ Examples.mint +:+ "), ok";
      "Program log: Instruction: InitializeMint2 create" ]
  = Some Examples.mint.
Proof.
  refine (eq_trans (proj1 (extract_from_logs _ _)) _).
  - intros msg Hm Hi. repeat (apply elem_of_cons in Hm as [->|Hm]);
      [vm_compute in Hi; discriminate | reflexivity | reflexivity |].
    by apply elem_of_nil in Hm.
  - vm_compute. reflexivity.
Defined.

(** *** The cap on the seen signatures *)

Section Cap.
Variable set_iter : gset string -> list string.
Hypothesis set_iter_elements : forall S, set_iter S ≡ₚ elements S.

Lemma set_iter_NoDup S : NoDup (set_iter S).
Proof. rewrite set_iter_elements. apply NoDup_elements. Qed.

Lemma set_iter_length S : length (set_iter S) = size S.
Proof. by rewrite set_iter_elements. Qed.

Lemma elem_of_set_iter S x : x ∈ set_iter S <-> x ∈ S.
Proof. rewrite set_iter_elements. apply elem_of_elements. Qed.

Lemma cap_seen_subseteq S : cap_seen set_iter S ⊆ S.
Proof.
  unfold cap_seen, last_n.
  destruct (SEEN_CAP <? size S)%nat; [|done].
  intros x Hx. apply elem_of_list_to_set in Hx.
  apply elem_of_set_iter. eapply subseteq_drop, Hx.
Qed.

Lemma cap_seen_size_over S :
  (SEEN_CAP < size S)%nat -> size (cap_seen set_iter S) = SEEN_KEEP.
Proof.
  intros H. unfold cap_seen, last_n.
  rewrite (proj2 (Nat.ltb_lt _ _) H).
  rewrite size_list_to_set.
  - rewrite length_drop, set_iter_length. unfold SEEN_CAP, SEEN_KEEP in *. lia.
  - eapply sublist_NoDup; [apply set_iter_NoDup | apply sublist_drop].
Qed.

Lemma cap_seen_bounded S : (size (cap_seen set_iter S) <= SEEN_CAP)%nat.
Proof.
  destruct (decide (SEEN_CAP < size S)%nat) as [H|H].
  - rewrite cap_seen_size_over by exact H. unfold SEEN_CAP, SEEN_KEEP. lia.
  - unfold cap_seen. rewrite (proj2 (Nat.ltb_ge _ _)) by lia. lia.
Qed.

Lemma cap_seen_drops S :
  (SEEN_CAP < size S)%nat -> exists sig, sig ∈ S /\ sig ∉ cap_seen set_iter S.
Proof.
  intros H.
  destruct (size_pos_elem_of (S ∖ cap_seen set_iter S)) as [sig Hs].
  - rewrite size_difference by apply cap_seen_subseteq.
    rewrite cap_seen_size_over by exact H. unfold SEEN_CAP, SEEN_KEEP in *. lia.
  - exists sig. set_solver.
Qed.
End Cap.

Lemma see_new (S : gset string) sig :
  sig ∈ S -> see (S ∖ {[sig]}) sig = (S, true).
Proof.
  intros H. unfold see. rewrite bool_decide_eq_false_2.
  - by rewrite <- union_difference_singleton_L.
  - intros [_ Hn]%elem_of_difference. by apply Hn, elem_of_singleton.
Qed.

(** C9, what the cap does.  The set stays bounded: it never has more
    than 5000 members after the cap, and a set of more than 5000 is cut
    to 2000 of its own members.  Which 2000 is decided by the order in
    which the set enumerates its members and not by when they were seen:
    whatever that order is, every set of more than 5000 signatures is
    the state reached after seeing, last of all, a signature that the cap
    then drops; at the next poll that signature is no longer recognised
    and is handed on again. *)
Theorem cap_forgets_latest (set_iter : gset string -> list string) :
  (forall S, set_iter S ≡ₚ elements S) ->
  (forall S, (size (cap_seen set_iter S) <= SEEN_CAP)%nat)
  /\ (forall S,
        (SEEN_CAP < size S)%nat ->
        size (cap_seen set_iter S) = SEEN_KEEP
        /\ cap_seen set_iter S ⊆ S
        /\ exists sig,
             sig ∈ S
             /\ poll_page set_iter [sig] (S ∖ {[sig]})
                = (cap_seen set_iter S, [sig])
             /\ (sig ∉ cap_seen set_iter S)
             /\ snd (see (cap_seen set_iter S) sig) = true).
Proof.
  intros Hperm. split; [intros S; by apply cap_seen_bounded|].
  intros S H. split; [by apply cap_seen_size_over|].
  split; [by apply cap_seen_subseteq|].
  destruct (cap_seen_drops set_iter Hperm S H) as (sig & Hin & Hout).
  exists sig. split; [exact Hin|]. split; [|split; [exact Hout|]].
  - unfold poll_page. simpl. rewrite see_new by exact Hin. reflexivity.
  - unfold see. by rewrite bool_decide_eq_false_2.
Qed.

(** The cap on a set of 5001 signatures, enumerated as the model of the
    set does. *)
Lemma cap_forgets_latest_witness :
  size (cap_seen elements (Examples.sigs 5001)) = SEEN_KEEP
  /\ exists sig,
       sig ∈ Examples.sigs 5001
       /\ (sig ∉ cap_seen elements (Examples.sigs 5001)).
Proof.
  destruct (proj2 (cap_forgets_latest elements (fun S => reflexivity _))
                  (Examples.sigs 5001))
    as (H1 & _ & sig & H3 & _ & H5 & _).
  - apply Nat.ltb_lt. vm_compute. reflexivity.
  - split; [exact H1|]. exists sig. split; [exact H3 | exact H5].
Defined.

End ListenerSpec.

(** ** Promotion *)

Module DiscoverySpec.
Import Discovery SmartWalletCandidate.

Lemma marked_nil c : marked [] c = c.
Proof. unfold marked. rewrite bool_decide_eq_false_2; [done|]. apply not_elem_of_nil. Qed.

Lemma marked_cons k keys c :
  marked keys (if bool_decide (id c = k) then promote_row c else c)
  = marked (k :: keys) c.
Proof.
  unfold marked. destruct (decide (id c = k)) as [E|N].
  - rewrite (bool_decide_eq_true_2 _ E). simpl.
    rewrite (bool_decide_eq_true_2 (id c ∈ k :: keys)) by (rewrite E; left).
    by destruct (bool_decide (id c ∈ keys)).
  - rewrite (bool_decide_eq_false_2 _ N).
    destruct (decide (id c ∈ keys)) as [I|I].
    + rewrite !bool_decide_eq_true_2; [done|by right|done].
    + rewrite !bool_decide_eq_false_2; [done| |done].
      intros [?|?]%elem_of_cons; done.
Qed.

Lemma candidates_promote_one utcnow st c :
  smart_wallet_candidates (promote_one utcnow st c).2
  = (fun r => if bool_decide (id r = id c) then promote_row r else r)
      <$> smart_wallet_candidates st.2.
Proof.
  destruct st as [k db]. unfold promote_one.
  destruct (get_wallet (wallet_address c) db); reflexivity.
Qed.

Lemma candidates_auto_fold utcnow cs : forall st,
  smart_wallet_candidates (foldl (promote_one utcnow) st cs).2
  = marked (id <$> cs) <$> smart_wallet_candidates st.2.
Proof.
  induction cs as [|c cs IH]; intros st; simpl.
  - rewrite <- (list_fmap_id (smart_wallet_candidates st.2)) at 1.
    apply list_fmap_ext. intros _ r _. by rewrite marked_nil.
  - rewrite IH, candidates_promote_one, <- list_fmap_compose.
    apply list_fmap_ext. intros _ r _. simpl. apply marked_cons.
Qed.

(** *** The wallets table under promotion *)

Lemma get_wallet_None a db :
  get_wallet a db = None <-> a ∉ TrackedWallet.address <$> tracked_wallets db.
Proof.
  unfold get_wallet. induction (tracked_wallets db) as [|w ws IH]; simpl.
  - split; [intros _; apply not_elem_of_nil|done].
  - rewrite not_elem_of_cons. destruct (decide (TrackedWallet.address w = a)) as [E|N].
    + rewrite (bool_decide_eq_true_2 _ E). split; [done|]. intros [? _]. done.
    + rewrite (bool_decide_eq_false_2 _ N), IH. split; [|tauto].
      intros ?. split; [congruence|done].
Qed.

Lemma wallets_at_nil a db :
  a ∉ TrackedWallet.address <$> tracked_wallets db -> wallets_at a db = [].
Proof.
  unfold wallets_at. induction (tracked_wallets db) as [|w ws IH]; [done|].
  rewrite fmap_cons, not_elem_of_cons. intros [N H].
  rewrite filter_cons_False; [by apply IH|].
  intros E%Is_true_true%bool_decide_eq_true. congruence.
Qed.

(** Under the primary key, an address that is there is there once. *)
Lemma wallets_at_single (ws : list TrackedWallet.t) a :
  NoDup (TrackedWallet.address <$> ws) ->
  a ∈ TrackedWallet.address <$> ws ->
  exists w, w ∈ ws /\ TrackedWallet.address w = a
            /\ filter (fun w => bool_decide (TrackedWallet.address w = a)) ws = [w].
Proof.
  induction ws as [|w ws IH]; [intros _ H; by apply elem_of_nil in H|].
  rewrite fmap_cons, NoDup_cons. intros [Hn Hd] [E|H]%elem_of_cons.
  - exists w. split; [by left|]. split; [done|].
    rewrite filter_cons_True by (apply Is_true_true, bool_decide_eq_true; done).
    f_equal.
    change (filter (fun w0 => bool_decide (TrackedWallet.address w0 = a)) ws)
      with (wallets_at a (mkDB ws [] [] 0 [] 0)).
    apply wallets_at_nil. simpl. congruence.
  - destruct (IH Hd H) as (w' & Hin & Ha & Hf). exists w'.
    split; [by right|]. split; [done|].
    rewrite filter_cons_False; [exact Hf|].
    intros E%Is_true_true%bool_decide_eq_true. congruence.
Qed.

(** Under the guard of the lookup the INSERT of the wallet cannot
      fail: it is [add_wallet]. *)
Lemma insert_wallet_guarded w db :
  get_wallet (TrackedWallet.address w) db = None ->
  insert_wallet w db = Committed (add_wallet w db).
Proof. intros H. unfold insert_wallet. by rewrite H. Qed.

(** What one step of the loop does to the wallets table. *)
Lemma wallets_promote_one utcnow st c :
  (wallet_address c ∈ TrackedWallet.address <$> tracked_wallets st.2
   /\ (promote_one utcnow st c).1 = st.1
   /\ tracked_wallets (promote_one utcnow st c).2 = tracked_wallets st.2)
  \/ ((wallet_address c ∉ TrackedWallet.address <$> tracked_wallets st.2)
      /\ (promote_one utcnow st c).1 = S st.1
      /\ tracked_wallets (promote_one utcnow st c).2
         = (tracked_wallets st.2 ++ [new_wallet (utcnow st.1) 30 c])%list).
Proof.
  destruct st as [k db]. unfold promote_one. simpl.
  destruct (get_wallet (wallet_address c) db) as [w|] eqn:E.
  - left. split; [|done].
    destruct (decide (wallet_address c ∈ TrackedWallet.address <$> tracked_wallets db))
      as [H|H]; [exact H|].
    apply get_wallet_None in H. congruence.
  - right. split; [|done]. by apply get_wallet_None.
Qed.

(** The wallets a run adds: for distinct addresses that were free, each
    made from a candidate of the run. *)
Lemma wallets_auto_fold utcnow cs : forall st,
  NoDup (TrackedWallet.address <$> tracked_wallets st.2) ->
  exists added,
    tracked_wallets (foldl (promote_one utcnow) st cs).2
    = (tracked_wallets st.2 ++ added)%list
    /\ NoDup (TrackedWallet.address
                <$> tracked_wallets (foldl (promote_one utcnow) st cs).2)
    /\ (forall c, c ∈ cs ->
          wallet_address c
          ∈ TrackedWallet.address
              <$> tracked_wallets (foldl (promote_one utcnow) st cs).2)
    /\ (forall w, w ∈ added ->
          exists c k, c ∈ cs /\ w = new_wallet (utcnow k) 30 c).
Proof.
  induction cs as [|c cs IH]; intros st Hnd; simpl.
  - exists []. rewrite app_nil_r. split; [done|]. split; [done|].
    split; intros ? H; by apply elem_of_nil in H.
  - destruct (wallets_promote_one utcnow st c) as [(Hin & _ & Hw)|(Hout & _ & Hw)].
    + destruct (IH (promote_one utcnow st c)) as (added & E & Hnd' & Hp & Ha).
      { by rewrite Hw. }
      exists added. rewrite Hw in E. split; [exact E|]. split; [exact Hnd'|].
      split.
      * intros c' [->|H]%elem_of_cons; [|by apply Hp].
        rewrite E, fmap_app. apply elem_of_app. by left.
      * intros w H. destruct (Ha w H) as (c' & k & ? & ?).
        exists c', k. split; [by right|done].
    + destruct (IH (promote_one utcnow st c)) as (added & E & Hnd' & Hp & Ha).
      { rewrite Hw, fmap_app. apply NoDup_app. split; [done|]. split.
        - intros a Ha [->|H]%elem_of_cons; [done|by apply elem_of_nil in H].
        - apply NoDup_singleton. }
      exists (new_wallet (utcnow st.1) 30 c :: added).
      rewrite Hw, <- app_assoc in E. split; [exact E|]. split; [exact Hnd'|].
      split.
      * intros c' [->|H]%elem_of_cons; [|by apply Hp].
        rewrite E, !fmap_app. apply elem_of_app. right. by left.
      * intros w [->|H]%elem_of_cons.
        -- exists c, st.1. split; [by left|done].
        -- destruct (Ha w H) as (c' & k & ? & ?).
           exists c', k. split; [by right|done].
Qed.

Lemma filter_fmap_none {A B} (P : B -> Prop) `{!forall x, Decision (P x)}
      (f : A -> B) (l : list A) :
  (forall x, x ∈ l -> ~ P (f x)) -> filter P (f <$> l) = [].
Proof.
  induction l as [|x l IH]; intros Hno; [done|].
  rewrite fmap_cons, filter_cons_False by (apply Hno; by left).
  apply IH. intros y Hy. apply Hno. by right.
Qed.

(** After a run, no candidate is left for the query. *)
Lemma qualifying_after utcnow min_appearances db :
  qualifying min_appearances
             (auto_promote_candidates utcnow min_appearances db).2 = [].
Proof.
  unfold auto_promote_candidates, qualifying at 1.
  rewrite candidates_auto_fold. simpl. apply filter_fmap_none.
  intros r Hr. unfold marked.
  destruct (decide (id r ∈ id <$> qualifying min_appearances db)) as [I|I].
  - rewrite (bool_decide_eq_true_2 _ I). simpl. rewrite andb_false_r.
    intros [].
  - rewrite (bool_decide_eq_false_2 _ I). intros P. apply I.
    apply list_elem_of_fmap_2. unfold qualifying.
    apply list_elem_of_filter. done.
Qed.

Lemma auto_promote_again utcnow utcnow' min_appearances db :
  auto_promote_candidates utcnow' min_appearances
    (auto_promote_candidates utcnow min_appearances db).2
  = (O, (auto_promote_candidates utcnow min_appearances db).2).
Proof.
  unfold auto_promote_candidates at 1. by rewrite qualifying_after.
Qed.

Lemma from_discovery_new_wallet tracked_at c :
  from_discovery (wallet_address c) (new_wallet tracked_at 30 c).
Proof. done. Qed.

(** What a run does for one of its candidates. *)
Lemma auto_promote_row utcnow min_appearances db c :
  schema_ok db ->
  c ∈ qualifying min_appearances db ->
  promote_row c
  ∈ smart_wallet_candidates (auto_promote_candidates utcnow min_appearances db).2
  /\ exists w,
       wallets_at (wallet_address c)
                  (auto_promote_candidates utcnow min_appearances db).2 = [w]
       /\ ((wallet_address c ∈ TrackedWallet.address <$> tracked_wallets db
            /\ wallets_at (wallet_address c) db = [w])
           \/ ((wallet_address c ∉ TrackedWallet.address <$> tracked_wallets db)
               /\ from_discovery (wallet_address c) w)).
Proof.
  intros [Hw _ _] Hc. unfold auto_promote_candidates. split.
  - rewrite candidates_auto_fold. simpl.
    assert (E : promote_row c = marked (id <$> qualifying min_appearances db) c).
    { unfold marked. rewrite bool_decide_eq_true_2; [done|].
      by apply list_elem_of_fmap_2. }
    rewrite E. apply list_elem_of_fmap_2.
    unfold qualifying in Hc. by apply list_elem_of_filter in Hc as [_ ?].
  - destruct (wallets_auto_fold utcnow (qualifying min_appearances db) (O, db) Hw)
      as (added & E & Hnd & Hp & Ha). simpl in E.
    destruct (wallets_at_single _ _ Hnd (Hp c Hc)) as (w & Hin & Haddr & Hf).
    exists w. split; [exact Hf|].
    rewrite E in Hin, Hnd. rewrite fmap_app in Hnd.
    apply NoDup_app in Hnd as (_ & Hdisj & _).
    apply elem_of_app in Hin as [Hin|Hin].
    + left. assert (Hpres : wallet_address c
                            ∈ TrackedWallet.address <$> tracked_wallets db).
      { rewrite <- Haddr. by apply list_elem_of_fmap_2. }
      split; [exact Hpres|].
      destruct (wallets_at_single _ _ Hw Hpres) as (w0 & Hin0 & _ & Hf0).
      unfold wallets_at. rewrite Hf0. f_equal.
      assert (Hw0 : w0 ∈ [w]).
      { rewrite <- Hf, E, filter_app. apply elem_of_app. left.
        rewrite Hf0. by left. }
      by apply list_elem_of_singleton in Hw0.
    + right. split.
      * intros Hpres. apply (Hdisj _ Hpres). rewrite <- Haddr.
        by apply list_elem_of_fmap_2.
      * destruct (Ha w Hin) as (c' & k & _ & ->).
        simpl in Haddr. rewrite <- Haddr. apply from_discovery_new_wallet.
Qed.

(** *** The promoted flag never goes back *)

Lemma keeps_promoted_refl db : keeps_promoted db db.
Proof. intros c Hc Hp. exists c. done. Qed.

Lemma keeps_promoted_trans db1 db2 db3 :
  keeps_promoted db1 db2 -> keeps_promoted db2 db3 -> keeps_promoted db1 db3.
Proof.
  intros H12 H23 c Hc Hp.
  destruct (H12 c Hc Hp) as (c2 & Hc2 & Hi2 & Ha2 & Hp2).
  destruct (H23 c2 Hc2 Hp2) as (c3 & Hc3 & Hi3 & Ha3 & Hp3).
  exists c3. repeat split; congruence.
Qed.

(** Any rewrite of the rows that keeps keys and addresses and does not
    clear the flag, followed or not by new rows. *)
Lemma keeps_promoted_fmap (f : t -> t) extra db db' :
  (forall c, id (f c) = id c /\ wallet_address (f c) = wallet_address c
             /\ (is_promoted c = true -> is_promoted (f c) = true)) ->
  smart_wallet_candidates db'
  = ((f <$> smart_wallet_candidates db) ++ extra)%list ->
  keeps_promoted db db'.
Proof.
  intros Hf E c Hc Hp. exists (f c). destruct (Hf c) as (? & ? & Hk).
  rewrite E. split; [|by auto].
  apply elem_of_app. left. by apply list_elem_of_fmap_2.
Qed.

Lemma keeps_promoted_same db db' :
  smart_wallet_candidates db' = smart_wallet_candidates db ->
  keeps_promoted db db'.
Proof.
  intros E. apply (keeps_promoted_fmap (fun c => c) []); [done|].
  by rewrite E, list_fmap_id, app_nil_r.
Qed.

Lemma keeps_promoted_mark key db : keeps_promoted db (mark_promoted key db).
Proof.
  apply (keeps_promoted_fmap
           (fun c => if bool_decide (id c = key) then promote_row c else c) []).
  - intros c. by destruct (bool_decide (id c = key)).
  - by rewrite app_nil_r.
Qed.

Lemma keeps_promoted_update key f db : keeps_promoted db (update_counts key f db).
Proof.
  apply (keeps_promoted_fmap
           (fun c => if bool_decide (id c = key)
                     then mk (id c) (wallet_address c) (found_token_count f)
                             (found_token_symbols f) (first_seen c)
                             (is_promoted c)
                     else c) []).
  - intros c. by destruct (bool_decide (id c = key)).
  - by rewrite app_nil_r.
Qed.

Lemma keeps_promoted_insert first_seen f db :
  keeps_promoted db (insert_candidate first_seen f db).
Proof.
  eapply (keeps_promoted_fmap (fun c => c)); [done|].
  simpl. by rewrite list_fmap_id.
Qed.

Lemma keeps_promoted_foldl {A} (step : nat * DB -> A -> nat * DB) (l : list A) :
  (forall st x, keeps_promoted st.2 (step st x).2) ->
  forall st, keeps_promoted st.2 (foldl step st l).2.
Proof.
  intros Hstep. induction l as [|x l IH]; intros st; simpl.
  - apply keeps_promoted_refl.
  - eapply keeps_promoted_trans; [apply Hstep | apply IH].
Qed.

Lemma keeps_promoted_promote_one utcnow st c :
  keeps_promoted st.2 (promote_one utcnow st c).2.
Proof.
  destruct st as [k db]. unfold promote_one. simpl.
  destruct (get_wallet (wallet_address c) db); simpl.
  - apply keeps_promoted_mark.
  - eapply keeps_promoted_trans; [|apply keeps_promoted_mark].
    by apply keeps_promoted_same.
Qed.

Lemma keeps_promoted_promote_all_one utcnow st c :
  keeps_promoted st.2 (promote_all_one utcnow st c).2.
Proof.
  destruct st as [k db]. unfold promote_all_one. simpl.
  destruct (get_wallet (wallet_address c) db); simpl.
  - apply keeps_promoted_mark.
  - eapply keeps_promoted_trans; [|apply keeps_promoted_mark].
    by apply keeps_promoted_same.
Qed.

Lemma keeps_promoted_save_one utcnow st f :
  keeps_promoted st.2 (save_one utcnow st f).2.
Proof.
  destruct st as [k db]. unfold save_one. simpl.
  destruct (find _ _); simpl.
  - apply keeps_promoted_update.
  - apply keeps_promoted_insert.
Qed.

Lemma keeps_promoted_promote_candidate utcnow address db :
  keeps_promoted db (promote_candidate utcnow address db).
Proof.
  unfold promote_candidate. destruct (find _ _) as [candidate|];
    [|apply keeps_promoted_refl].
  destruct (negb (is_promoted candidate)); [|apply keeps_promoted_refl].
  eapply keeps_promoted_trans; [|apply keeps_promoted_mark].
  destruct (get_wallet address db); [apply keeps_promoted_refl|].
  by apply keeps_promoted_same.
Qed.

Lemma keeps_promoted_op db op : keeps_promoted db (run_op db op).
Proof.
  destruct op as [utcnow cs|utcnow m|utcnow a|utcnow]; simpl.
  - apply (keeps_promoted_foldl (save_one utcnow) cs
             (keeps_promoted_save_one utcnow) (O, db)).
  - apply (keeps_promoted_foldl (promote_one utcnow) _
             (keeps_promoted_promote_one utcnow) (O, db)).
  - apply keeps_promoted_promote_candidate.
  - apply (keeps_promoted_foldl (promote_all_one utcnow) _
             (keeps_promoted_promote_all_one utcnow) (O, db)).
Qed.

Lemma keeps_promoted_ops ops : forall db, keeps_promoted db (run_ops ops db).
Proof.
  induction ops as [|op ops IH]; intros db.
  - apply keeps_promoted_refl.
  - unfold run_ops. simpl. eapply keeps_promoted_trans;
      [apply keeps_promoted_op | apply IH].
Qed.

Lemma marked_id keys r : id (marked keys r) = id r.
Proof. unfold marked. by destruct (bool_decide (id r ∈ keys)). Qed.

Lemma promoted_row_of_promote_row c : promoted_row_of c (promote_row c).
Proof. by repeat split. Qed.

(** After rows are marked by key, every row under one of the keys has
    the flag set. *)
Lemma marked_flag keys (cs : list t) r :
  r ∈ marked keys <$> cs -> id r ∈ keys -> is_promoted r = true.
Proof.
  intros (r0 & -> & _)%list_elem_of_fmap. rewrite marked_id. intros Hk.
  unfold marked. by rewrite (bool_decide_eq_true_2 _ Hk).
Qed.

(** What a run does to the flag of one of its candidates. *)
Lemma auto_promote_flag utcnow min_appearances db c :
  c ∈ qualifying min_appearances db ->
  (exists r, r ∈ smart_wallet_candidates
                 (auto_promote_candidates utcnow min_appearances db).2
             /\ promoted_row_of c r)
  /\ (forall r, r ∈ smart_wallet_candidates
                     (auto_promote_candidates utcnow min_appearances db).2 ->
                 id r = id c -> is_promoted r = true).
Proof.
  intros Hc. unfold auto_promote_candidates. rewrite candidates_auto_fold.
  cbn [snd].
  assert (Hk : id c ∈ id <$> qualifying min_appearances db)
    by (by apply list_elem_of_fmap_2).
  split.
  - exists (promote_row c). split; [|apply promoted_row_of_promote_row].
    assert (E : promote_row c = marked (id <$> qualifying min_appearances db) c).
    { unfold marked. by rewrite (bool_decide_eq_true_2 _ Hk). }
    rewrite E. apply list_elem_of_fmap_2.
    unfold qualifying in Hc. by apply list_elem_of_filter in Hc as [_ ?].
  - intros r Hr E. apply (marked_flag _ _ r Hr). by rewrite E.
Qed.

(** C6: promotion is idempotent and free of duplicates.  On a database
    that meets the constraints of its schema, for every candidate the
    query selects (token count at least the threshold, not yet promoted):
    after one run and after two, the wallets table holds exactly one row
    of the candidate's address and the candidate is marked promoted, that
    is, the table holds its row with the flag set to true and every row
    under its key has the flag set to true; the second run promotes
    nothing and changes nothing.  When a wallet of that address was there
    before the run, the rows of that address are as they were: the
    candidate is marked without a second wallet.  Otherwise the one row
    is new, active, with source discovery.  And no operation on the
    candidates table (saving candidates, promotion by the engine,
    promotion of one or of all from the dashboard), in any sequence, sets
    the promoted flag of a row back to false. *)
Theorem promotion_idempotent :
  (forall utcnow utcnow' min_appearances db c,
      schema_ok db ->
      c ∈ qualifying min_appearances db ->
      let once := (auto_promote_candidates utcnow min_appearances db).2 in
      let again := auto_promote_candidates utcnow' min_appearances once in
      again = (O, once)
      /\ length (wallets_at (wallet_address c) once) = 1%nat
      /\ length (wallets_at (wallet_address c) again.2) = 1%nat
      /\ promote_row c ∈ smart_wallet_candidates again.2
      /\ (exists r, r ∈ smart_wallet_candidates again.2 /\ promoted_row_of c r)
      /\ (forall r, r ∈ smart_wallet_candidates again.2 -> id r = id c ->
                     is_promoted r = true))
  /\ (forall utcnow min_appearances db c,
        schema_ok db ->
        c ∈ qualifying min_appearances db ->
        wallet_address c ∈ TrackedWallet.address <$> tracked_wallets db ->
        let once := (auto_promote_candidates utcnow min_appearances db).2 in
        wallets_at (wallet_address c) once = wallets_at (wallet_address c) db
        /\ promote_row c ∈ smart_wallet_candidates once
        /\ (exists r, r ∈ smart_wallet_candidates once /\ promoted_row_of c r)
        /\ (forall r, r ∈ smart_wallet_candidates once -> id r = id c ->
                       is_promoted r = true))
  /\ (forall utcnow min_appearances db c,
        schema_ok db ->
        c ∈ qualifying min_appearances db ->
        wallet_address c ∉ TrackedWallet.address <$> tracked_wallets db ->
        let once := (auto_promote_candidates utcnow min_appearances db).2 in
        wallets_at (wallet_address c) db = []
        /\ (exists w, wallets_at (wallet_address c) once = [w]
                      /\ from_discovery (wallet_address c) w)
        /\ promote_row c ∈ smart_wallet_candidates once
        /\ (exists r, r ∈ smart_wallet_candidates once /\ promoted_row_of c r)
        /\ (forall r, r ∈ smart_wallet_candidates once -> id r = id c ->
                       is_promoted r = true))
  /\ (forall ops db, keeps_promoted db (run_ops ops db)).
Proof.
  split; [|split; [|split]].
  - intros utcnow utcnow' m db c Hok Hc. cbv zeta.
    rewrite auto_promote_again. cbn [snd].
    destruct (auto_promote_row utcnow m db c Hok Hc) as (Hp & w & Hf & _).
    destruct (auto_promote_flag utcnow m db c Hc) as [Hex Hall].
    rewrite Hf. done.
  - intros utcnow m db c Hok Hc Hin. cbv zeta.
    destruct (auto_promote_flag utcnow m db c Hc) as [Hex Hall].
    destruct (auto_promote_row utcnow m db c Hok Hc)
      as (Hp & w & Hf & [[_ Hf0]|[Hout _]]); [|done].
    rewrite Hf, Hf0. done.
  - intros utcnow m db c Hok Hc Hout. cbv zeta.
    destruct (auto_promote_flag utcnow m db c Hc) as [Hex Hall].
    destruct (auto_promote_row utcnow m db c Hok Hc)
      as (Hp & w & Hf & [[Hin _]|[_ Hd]]); [done|].
    split; [by apply wallets_at_nil|]. split; [by exists w|]. done.
  - exact keeps_promoted_ops.
Qed.

Lemma schema_ok_db1 : schema_ok Examples.db1.
Proof.
  split; simpl; apply (bool_decide_unpack _); vm_compute; reflexivity.
Qed.

Lemma qualifying_db1 :
  qualifying MIN_APPEARANCES Examples.db1 = [Examples.cand_alice; Examples.cand_dave].
Proof. vm_compute. reflexivity. Qed.

(** Promotion on the sample candidates: Dave gets his wallet, once,
    and his row has the flag set; Alice keeps hers; a second run finds
    nothing to do. *)
Lemma promotion_idempotent_witness :
  auto_promote_candidates Examples.clock MIN_APPEARANCES
    (auto_promote_candidates Examples.clock MIN_APPEARANCES Examples.db1).2
  = (O, (auto_promote_candidates Examples.clock MIN_APPEARANCES Examples.db1).2)
  /\ length (wallets_at "DaveWallet"
               (auto_promote_candidates Examples.clock MIN_APPEARANCES Examples.db1).2)
     = 1%nat
  /\ wallets_at "AliceWallet"
                (auto_promote_candidates Examples.clock MIN_APPEARANCES Examples.db1).2
     = wallets_at "AliceWallet" Examples.db1
  /\ (forall r,
        r ∈ smart_wallet_candidates
              (auto_promote_candidates Examples.clock MIN_APPEARANCES Examples.db1).2 ->
        id r = 2 -> is_promoted r = true).
Proof.
  destruct promotion_idempotent as (H1 & H2 & H3 & _). split; [|split; [|split]].
  - refine (proj1 (H1 Examples.clock Examples.clock MIN_APPEARANCES Examples.db1
                      Examples.cand_dave schema_ok_db1 _)).
    rewrite qualifying_db1. right. left.
  - refine (proj1 (proj2 (H1 Examples.clock Examples.clock MIN_APPEARANCES Examples.db1
                             Examples.cand_dave schema_ok_db1 _))).
    rewrite qualifying_db1. right. left.
  - refine (proj1 (H2 Examples.clock MIN_APPEARANCES Examples.db1 Examples.cand_alice
                      schema_ok_db1 _ _)).
    + rewrite qualifying_db1. left.
    + simpl. left.
  - refine (proj2 (proj2 (proj2 (proj2
              (H3 Examples.clock MIN_APPEARANCES Examples.db1 Examples.cand_dave
                  schema_ok_db1 _ _))))).
    + rewrite qualifying_db1. right. left.
    + apply (bool_decide_unpack _). vm_compute. reflexivity.
Defined.

End DiscoverySpec.

(** ** The market data fetch and more of the sweep *)

Module PriceFetchSpec.
Import PriceBot PriceFetch.

Lemma concat_chunks (l : list string) m :
  concat ((fun k => take BATCH (drop (k * BATCH) l)) <$> seq 0 m)
  = take (m * BATCH) l.
Proof.
  induction m as [|m IH]; [by rewrite take_0|].
  rewrite seq_S, fmap_app, concat_app, IH.
  change (concat ((fun k => take BATCH (drop (k * BATCH) l)) <$> [(0 + m)%nat]))
    with (take BATCH (drop (m * BATCH) l) ++ [])%list.
  rewrite app_nil_r, take_take_drop. f_equal. unfold BATCH. lia.
Qed.

Lemma batches_chunks (l : list string) :
  batches l
  = (fun k => take BATCH (drop (k * BATCH) l))
      <$> seq 0 ((length l + (BATCH - 1)) / BATCH).
Proof. unfold batches, batch_starts. by rewrite <- list_fmap_compose. Qed.

(** X1: the batching of the address list.  The batches, put end to end,
    are the address list; there are ceil(n / 30) of them; each has at
    least one and at most 30 addresses. *)
Theorem batches_partition (addresses : list string) :
  concat (batches addresses) = addresses
  /\ length (batches addresses) = ((length addresses + 29) / 30)%nat
  /\ Forall (fun batch => (1 <= length batch <= 30)%nat) (batches addresses).
Proof.
  rewrite batches_chunks. unfold BATCH. simpl (30 - 1)%nat.
  pose proof (Nat.div_mod_eq (length addresses + 29) 30) as Hd.
  pose proof (Nat.mod_upper_bound (length addresses + 29) 30) as Hm.
  split; [|split].
  - rewrite (concat_chunks addresses). apply take_ge. unfold BATCH. lia.
  - by rewrite length_fmap, length_seq.
  - apply Forall_fmap, Forall_forall. intros k Hk%elem_of_seq. simpl.
    rewrite length_take, length_drop. lia.
Qed.

Lemma keep_best_grows result row a p0 :
  result !! a = Some p0 ->
  exists p, keep_best result row !! a = Some p /\ (pair_mc p0 <= pair_mc p)%Q.
Proof.
  intros H. unfold keep_best.
  destruct (base_address row) as [t|]; [|exists p0; split; [done|apply Qle_refl]].
  destruct (bool_decide (t = EmptyString));
    [exists p0; split; [done|apply Qle_refl]|].
  destruct (decide (t = a)) as [->|N].
  - rewrite H. cbv zeta.
    destruct (Qlt_b (pair_mc p0) (pair_mc (listing_pair row))) eqn:E.
    + exists (listing_pair row). rewrite lookup_insert_eq. split; [done|].
      apply Qlt_le_weak. by apply Qlt_b_true.
    + exists p0. split; [done|apply Qle_refl].
  - exists p0. split; [|apply Qle_refl]. cbv zeta.
    destruct (result !! t) as [e|]; [destruct (Qlt_b _ _)|];
      rewrite ?lookup_insert_ne by done; done.
Qed.

Lemma keep_best_covers result row a :
  base_address row = Some a -> a <> EmptyString ->
  exists p, keep_best result row !! a = Some p
            /\ (pair_mc (listing_pair row) <= pair_mc p)%Q.
Proof.
  intros Ha Hne. unfold keep_best. rewrite Ha.
  rewrite bool_decide_eq_false_2 by done. cbv zeta.
  destruct (result !! a) as [e|] eqn:E.
  - destruct (Qlt_b (pair_mc e) (pair_mc (listing_pair row))) eqn:L.
    + exists (listing_pair row). rewrite lookup_insert_eq. split; [done|apply Qle_refl].
    + exists e. split; [done|]. by apply Qlt_b_false.
  - exists (listing_pair row). rewrite lookup_insert_eq. split; [done|apply Qle_refl].
Qed.

Lemma keep_best_origin result row a p :
  keep_best result row !! a = Some p ->
  result !! a = Some p
  \/ (base_address row = Some a /\ a <> EmptyString /\ listing_pair row = p).
Proof.
  unfold keep_best. destruct (base_address row) as [t|]; [|by left].
  destruct (decide (t = EmptyString)) as [E|E].
  { rewrite bool_decide_eq_true_2 by done. by left. }
  rewrite bool_decide_eq_false_2 by done. cbv zeta.
  assert (K : <[t:=listing_pair row]> result !! a = Some p ->
              result !! a = Some p
              \/ (Some t = Some a /\ a <> EmptyString /\ listing_pair row = p)).
  { destruct (decide (t = a)) as [->|N].
    - rewrite lookup_insert_eq. intros [= <-]. by right.
    - rewrite lookup_insert_ne by done. by left. }
  destruct (result !! t) as [e|]; [destruct (Qlt_b _ _)|]; auto.
Qed.

Lemma fold_keep_best_grows rows : forall result a p0,
  result !! a = Some p0 ->
  exists p, foldl keep_best result rows !! a = Some p
            /\ (pair_mc p0 <= pair_mc p)%Q.
Proof.
  induction rows as [|row rows IH]; intros result a p0 H; simpl.
  - exists p0. split; [done|apply Qle_refl].
  - destruct (keep_best_grows result row a p0 H) as (p1 & H1 & L1).
    destruct (IH _ a p1 H1) as (p & Hp & L). exists p. split; [done|].
    by eapply Qle_trans.
Qed.

Lemma fold_keep_best_covers rows : forall result row a,
  row ∈ rows -> base_address row = Some a -> a <> EmptyString ->
  exists p, foldl keep_best result rows !! a = Some p
            /\ (pair_mc (listing_pair row) <= pair_mc p)%Q.
Proof.
  induction rows as [|r rows IH]; intros result row a Hin Ha Hne;
    [by apply elem_of_nil in Hin|].
  simpl. apply elem_of_cons in Hin as [->|Hin].
  - destruct (keep_best_covers result r a Ha Hne) as (p1 & H1 & L1).
    destruct (fold_keep_best_grows rows _ a p1 H1) as (p & Hp & L).
    exists p. split; [done|]. by eapply Qle_trans.
  - by apply IH.
Qed.

Lemma fold_keep_best_origin rows : forall result a p,
  foldl keep_best result rows !! a = Some p ->
  result !! a = Some p
  \/ exists row, row ∈ rows /\ base_address row = Some a
                 /\ a <> EmptyString /\ listing_pair row = p.
Proof.
  induction rows as [|r rows IH]; intros result a p H; simpl in H; [by left|].
  destruct (IH _ _ _ H) as [H1|(row & Hin & Hr)].
  - destruct (keep_best_origin _ _ _ _ H1) as [H2|H2]; [by left|].
    right. exists r. split; [by left|done].
  - right. exists row. split; [by right|done].
Qed.

Lemma fetch_token_data_fold get addresses :
  _fetch_token_data get addresses
  = foldl keep_best ∅ (fetched_rows get addresses).
Proof.
  unfold _fetch_token_data, fetched_rows.
  generalize (∅ : gmap string Pair). induction (batches addresses) as [|b bs IH];
    intros acc; [done|].
  simpl. rewrite foldl_app, <- IH. by destruct (get b).
Qed.

(** X2: the fetch keeps, for each token, a pair of highest market cap.
    Every pair received with a non-empty base-token address has its token
    in the result, under a pair whose market cap is at least as high; and
    every pair in the result is one that was received for that token. *)
Theorem fetch_keeps_best get addresses :
  (forall row a,
      row ∈ fetched_rows get addresses ->
      base_address row = Some a -> a <> EmptyString ->
      exists p, _fetch_token_data get addresses !! a = Some p
                /\ (pair_mc (listing_pair row) <= pair_mc p)%Q)
  /\ (forall a p,
        _fetch_token_data get addresses !! a = Some p ->
        a <> EmptyString
        /\ exists row, row ∈ fetched_rows get addresses
                       /\ base_address row = Some a /\ listing_pair row = p).
Proof.
  rewrite fetch_token_data_fold. split.
  - intros row a. apply fold_keep_best_covers.
  - intros a p H. destruct (fold_keep_best_origin _ _ _ _ H) as [E|(row & ? & ? & ? & ?)].
    + by rewrite lookup_empty in E.
    + split; [done|]. by exists row.
Qed.

(** Two pairs of one token and a pair without address, in one batch. *)
Lemma fetch_keeps_best_witness :
  let low := mkListing (Some "A") (mkPair (Some 700%Q) None (Some "pumpfun") None) in
  let high := mkListing (Some "A") (mkPair None (Some 900%Q) (Some "raydium") None) in
  let anon := mkListing None (mkPair (Some 5000%Q) None None None) in
  exists p, _fetch_token_data (fun _ => Some [low; high; anon]) ["A"] !! "A" = Some p
            /\ (900 <= pair_mc p)%Q.
Proof.
  cbv zeta.
  refine (proj1 (fetch_keeps_best _ ["A"])
                (mkListing (Some "A") (mkPair None (Some 900%Q) (Some "raydium") None))
                "A" _ _ _).
  - vm_compute. right. left.
  - reflexivity.
  - discriminate.
Defined.

End PriceFetchSpec.

(** ** More of the price sweep *)

Module SweepSpec.
Import PriceBot.

Lemma update_token_none tok : update_token None tok = tok.
Proof. by destruct tok. Qed.

Lemma sweep_token_no_pair now pd tok :
  pd !! Token.contract_address tok = None -> sweep_token now pd tok = tok.
Proof.
  intros H. unfold sweep_token. rewrite H, update_token_none.
  by destruct (selected tok && fresh now tok).
Qed.

(** X3: a sweep that gets no market data changes nothing.  A token for
    which the fetch returned no pair is left exactly as it is, and a sweep
    whose fetch returned nothing at all (every request failed, or no pair
    is listed) leaves the whole table as it is. *)
Theorem sweep_without_data :
  (forall now pd tok,
      pd !! Token.contract_address tok = None -> sweep_token now pd tok = tok)
  /\ (forall now tokens, price_sweep now ∅ tokens = tokens).
Proof.
  split; [exact sweep_token_no_pair|].
  intros now tokens. unfold price_sweep.
  induction tokens as [|tok tokens IH]; [done|]. simpl.
  rewrite IH, sweep_token_no_pair; [done|apply lookup_empty].
Qed.

(** A sweep whose data names another token only. *)
Lemma sweep_without_data_witness :
  let tok := Token.mk "A" "SYM" 0 "dev" 60000%Q bonding_curve in
  let pd : gmap string Pair :=
    {[ "B" := mkPair (Some 400%Q) None (Some "raydium") (Some 50%Q) ]} in
  sweep_token 1 pd tok = tok.
Proof.
  cbv zeta. apply (proj1 sweep_without_data). vm_compute. reflexivity.
Defined.

(** X4: what a sweep never touches.  The table keeps its rows, in number
    and in order; a row keeps its address, symbol, creation time and dev
    address; and a token older than 48 hours is frozen: its row is left
    exactly as it is, whatever the market data says. *)
Theorem sweep_keeps_rows now pd (tokens : list Token.t) :
  length (price_sweep now pd tokens) = length tokens
  /\ (forall i tok,
        tokens !! i = Some tok ->
        exists tok',
          price_sweep now pd tokens !! i = Some tok'
          /\ Token.contract_address tok' = Token.contract_address tok
          /\ Token.symbol tok' = Token.symbol tok
          /\ Token.created_at tok' = Token.created_at tok
          /\ Token.dev_address tok' = Token.dev_address tok
          /\ (STALE_HOURS * hour_us < now - Token.created_at tok -> tok' = tok)).
Proof.
  split; [apply length_map|].
  intros i tok Hi. exists (sweep_token now pd tok). split.
  - unfold price_sweep. change (map (sweep_token now pd) tokens)
      with (sweep_token now pd <$> tokens). by rewrite list_lookup_fmap, Hi.
  - unfold sweep_token, fresh.
    destruct (selected tok && (now - Token.created_at tok <=? STALE_HOURS * hour_us))
      eqn:E; repeat split; try done.
    intros Hold. apply andb_true_iff in E as [_ E]. apply Z.leb_le in E. lia.
Qed.

(** A graduated token of 49 hours against a pair at $400. *)
Lemma sweep_keeps_rows_witness :
  let tok := Token.mk "A" "SYM" 0 "dev" 60000%Q graduated in
  let pd : gmap string Pair :=
    {[ "A" := mkPair (Some 400%Q) None (Some "raydium") (Some 50%Q) ]} in
  exists tok', price_sweep (49 * hour_us) pd [tok] !! O = Some tok' /\ tok' = tok.
Proof.
  cbv zeta.
  destruct (proj2 (sweep_keeps_rows (49 * hour_us)
                     {[ "A" := mkPair (Some 400%Q) None (Some "raydium") (Some 50%Q) ]}
                     [Token.mk "A" "SYM" 0 "dev" 60000%Q graduated]) O _ eq_refl)
    as (tok' & H1 & _ & _ & _ & _ & H6).
  exists tok'. split; [exact H1|]. apply H6. vm_compute. reflexivity.
Defined.

(** X5: the stored market cap follows every positive observation and
    only those.  For a token that the sweep loads (bonding curve or
    graduated, at most 48 hours old) and that has pair data: a positive
    market cap is stored, whatever becomes of the status; a pair whose
    market cap is absent, zero or negative leaves the stored market cap
    as it is and turns the token rugged. *)
Theorem sweep_market_cap now pd tok p :
  selected tok = true -> fresh now tok = true ->
  pd !! Token.contract_address tok = Some p ->
  ((0 < pair_mc p)%Q ->
   Token.market_cap_at_scan (sweep_token now pd tok) = pair_mc p)
  /\ ((pair_mc p <= 0)%Q ->
      Token.market_cap_at_scan (sweep_token now pd tok)
      = Token.market_cap_at_scan tok
      /\ Token.status (sweep_token now pd tok) = rugged).
Proof.
  intros Hs Hf Hp. unfold sweep_token. rewrite Hs, Hf, Hp. cbn [andb]. split.
  - intros H. unfold update_token. cbn [Token.market_cap_at_scan].
    by rewrite (proj2 (Qlt_b_true _ _) H).
  - intros H. split.
    + unfold update_token. cbn [Token.market_cap_at_scan].
      by rewrite (proj2 (Qlt_b_false _ _) H).
    + rewrite PriceBotSpec.update_token_status.
      apply PriceBotSpec.determine_status_rugged. left.
      eapply Qle_lt_trans; [exact H|reflexivity].
Qed.

(** A graduated token whose pair reports no market cap at all. *)
Lemma sweep_market_cap_witness :
  let tok := Token.mk "A" "SYM" 0 "dev" 60000%Q graduated in
  let p := mkPair None None (Some "raydium") (Some 9000%Q) in
  Token.market_cap_at_scan (sweep_token 1 {[ "A" := p ]} tok) = 60000%Q
  /\ Token.status (sweep_token 1 {[ "A" := p ]} tok) = rugged.
Proof.
  cbv zeta.
  refine (proj2 (sweep_market_cap 1 _ (Token.mk "A" "SYM" 0 "dev" 60000%Q graduated)
                   (mkPair None None (Some "raydium") (Some 9000%Q)) _ _ _) _);
    vm_compute; (reflexivity || discriminate).
Defined.

End SweepSpec.

(** ** More of the analyzer *)

Module AnalyzerMore.
Import Analyzer StoreInv.

Lemma swap_test tx :
  bool_decide (default EmptyString (tx_type tx) = "SWAP") = true
  <-> tx_type tx = Some "SWAP".
Proof.
  rewrite bool_decide_eq_true. destruct (tx_type tx) as [ty|]; simpl.
  - split; [by intros ->|by intros [= ->]].
  - split; discriminate.
Qed.

Lemma add_signer_elem signers tx a :
  a ∈ add_signer signers tx
  <-> a ∈ signers \/ (feePayer tx = Some a /\ a <> EmptyString /\ is_buy tx).
Proof.
  unfold add_signer, is_buy. rewrite <- swap_test.
  destruct (feePayer tx) as [f|].
  2: { split; [by left|]. intros [?|(? & _)]; done. }
  destruct (decide (f = EmptyString)) as [E|E].
  { rewrite bool_decide_eq_true_2 by done. split; [by left|].
    intros [?|([= ->] & ? & _)]; done. }
  rewrite bool_decide_eq_false_2 by done.
  destruct (bool_decide (default EmptyString (tx_type tx) = "SWAP")),
    (is_pump tx);
    rewrite ?elem_of_union, ?elem_of_singleton;
    (split; [first [intros [->|?]; [right; repeat split; auto|by left]
                   |by left]|]);
    intros [?|([= ->] & _ & [?|?])]; auto; done.
Qed.

Lemma fold_add_signer_elem txs : forall signers a,
  a ∈ foldl add_signer signers txs
  <-> a ∈ signers
      \/ exists tx, tx ∈ txs /\ feePayer tx = Some a /\ a <> EmptyString /\ is_buy tx.
Proof.
  induction txs as [|tx txs IH]; intros signers a; simpl.
  - split; [by left|]. intros [?|(tx & H & _)]; [done|by apply elem_of_nil in H].
  - rewrite IH, add_signer_elem. split.
    + intros [[?|?]|(tx' & ? & ?)]; [by left| |].
      * right. exists tx. split; [by left|done].
      * right. exists tx'. split; [by right|done].
    + intros [?|(tx' & [->|?]%elem_of_cons & ?)]; [by left; left|by left; right|].
      right. by exists tx'.
Qed.

(** X6: the signers of a token.  When Helius answers with a list of
    transactions, an address is among the signers exactly when it is the
    non-empty fee payer of one of them that is a swap or comes from a
    launch-venue source; and a fetch that times out, raises, or answers
    with something else than a list gives no signer at all. *)
Theorem signers_of_transactions w :
  (forall txs a,
      signers_response w = Resp_list txs ->
      (a ∈ get_token_signers w
       <-> exists tx, tx ∈ txs /\ feePayer tx = Some a /\ a <> EmptyString
                      /\ is_buy tx))
  /\ ((forall txs, signers_response w <> Resp_list txs) ->
      get_token_signers w = ∅).
Proof.
  split.
  - intros txs a H. unfold get_token_signers. rewrite H. simpl.
    rewrite fold_add_signer_elem. split; [|by right].
    intros [H0|?]; [|done]. by apply not_elem_of_empty in H0.
  - intros H. unfold get_token_signers.
    destruct (signers_response w) as [txs| | |]; try done. by destruct (H txs).
Qed.

(** The signers of the sample history, and of a fetch that timed out. *)
Lemma signers_of_transactions_witness :
  "BobWallet" ∈ get_token_signers Examples.world_hot
  /\ get_token_signers (mkWorld Resp_timeout 0 None 0 Resp_timeout 0) = ∅.
Proof.
  split.
  - apply (proj1 (signers_of_transactions Examples.world_hot)
                 Examples.history "BobWallet" eq_refl).
    exists (Examples.swap "BobWallet" (Examples.t0 + 30)).
    split; [right; left|]. split; [reflexivity|]. split; [discriminate|by left].
  - apply (proj2 (signers_of_transactions _)). intros txs. discriminate.
Defined.

Lemma match_count_no_signers w db :
  get_token_signers w = ∅ -> match_count w db = 0.
Proof.
  intros H. unfold match_count, select_matches. rewrite H.
  induction (tracked_wallets db) as [|x l IH]; [done|].
  rewrite filter_cons_False; [exact IH|].
  intros [E _]%Is_true_true%andb_true_iff.
  apply bool_decide_eq_true in E. by apply not_elem_of_empty in E.
Qed.

(** X7: no signers, no signal.  When the signer fetch of a scan gives no
    signer (it failed, or no transaction is a buy), the match count is 0,
    the scan generates no signal and the database is left as it was. *)
Theorem scan_without_signers w a db :
  get_token_signers w = ∅ ->
  match_count w db = 0
  /\ snd (scan_new_token w a db) = db
  /\ (forall c, fst (scan_new_token w a db) <> Signal_generated c)
  /\ (reached_cross_reference (fst (scan_new_token w a db)) = true ->
      fst (scan_new_token w a db) = Too_few 0).
Proof.
  intros H. pose proof (match_count_no_signers w db H) as H0.
  split; [exact H0|].
  destruct (AnalyzerSpec.scan_cases w a db)
    as [[_ E]|[(_&_&E)|[(m&_&_&_&E)|[(m&_&_&_&_&E)|(m&_&_&_&Hn&_)]]]];
    try (rewrite E; simpl; repeat split; try done); try lia.
  by rewrite H0.
Qed.

(** The sample token when the signer fetch times out. *)
Lemma scan_without_signers_witness :
  let w := mkWorld (Resp_list Examples.history) ((Examples.t0 + 60) * second_us)
                   (Some "MEME") ((Examples.t0 + 61) * second_us)
                   Resp_timeout ((Examples.t0 + 62) * second_us) in
  scan_new_token w Examples.mint Examples.db0 = (Too_few 0, Examples.db0).
Proof.
  cbv zeta.
  set (w := mkWorld _ _ _ _ _ _).
  destruct (scan_without_signers w Examples.mint Examples.db0 eq_refl)
    as (_ & H2 & _ & H4).
  rewrite (surjective_pairing (scan_new_token w Examples.mint Examples.db0)).
  rewrite H2, H4; [reflexivity|]. vm_compute. reflexivity.
Defined.

Lemma NoDup_fmap_filter {A B} (f : A -> B) (P : A -> Prop)
      `{!forall x, Decision (P x)} (l : list A) :
  NoDup (f <$> l) -> NoDup (f <$> filter P l).
Proof.
  induction l as [|x l IH]; [done|]. rewrite fmap_cons, NoDup_cons.
  intros [Hx Hl]. rewrite filter_cons. destruct (decide (P x)); [|by apply IH].
  rewrite fmap_cons. apply NoDup_cons. split; [|by apply IH].
  intros (y & Hy & Hin%list_elem_of_filter)%list_elem_of_fmap. apply Hx.
  rewrite Hy. apply list_elem_of_fmap_2. tauto.
Qed.

Lemma select_matches_elem signers db m :
  m ∈ select_matches signers db
  <-> m ∈ tracked_wallets db /\ TrackedWallet.address m ∈ signers
      /\ TrackedWallet.status m = active.
Proof.
  unfold select_matches. rewrite list_elem_of_filter.
  rewrite andb_True, !bool_decide_spec. tauto.
Qed.

(** X8: what the match count can be.  Every matched wallet is an active
    tracked wallet whose address is among the signers, so paused wallets
    never count; and under the primary key of the wallets table the match
    count is at most the number of distinct signers. *)
Theorem match_count_bounds w db :
  NoDup (TrackedWallet.address <$> tracked_wallets db) ->
  (forall m, m ∈ select_matches (get_token_signers w) db ->
             m ∈ tracked_wallets db
             /\ TrackedWallet.status m = active
             /\ TrackedWallet.address m ∈ get_token_signers w)
  /\ 0 <= match_count w db <= Z.of_nat (size (get_token_signers w))
  /\ match_count w db <= Z.of_nat (length (tracked_wallets db)).
Proof.
  intros Hnd. split; [|split; [split|]].
  - intros m Hm%select_matches_elem. tauto.
  - unfold match_count. lia.
  - unfold match_count. apply inj_le.
    rewrite <- (length_fmap TrackedWallet.address).
    change (size (get_token_signers w))
      with (length (elements (get_token_signers w))).
    apply submseteq_length, NoDup_submseteq.
    + unfold select_matches. by apply NoDup_fmap_filter.
    + intros x (m & -> & Hm%select_matches_elem)%list_elem_of_fmap.
      apply elem_of_elements. tauto.
  - unfold match_count, select_matches. apply inj_le, length_filter.
Qed.

(** The sample database against the sample history: Carol signed too,
    but she is paused. *)
Lemma match_count_bounds_witness :
  match_count Examples.world_hot Examples.db0 <= 3
  /\ Examples.carol ∉ select_matches (get_token_signers Examples.world_hot)
                                     Examples.db0.
Proof.
  destruct (match_count_bounds Examples.world_hot Examples.db0) as (H1 & _ & H3).
  - apply (bool_decide_unpack _). vm_compute. reflexivity.
  - split; [exact H3|]. intros H. by destruct (H1 _ H) as (_ & ? & _).
Defined.

Lemma get_token_None a db :
  get_token a db = None <-> a ∉ Token.contract_address <$> tokens db.
Proof.
  unfold get_token. induction (tokens db) as [|t ts IH]; simpl.
  - split; [intros _; apply not_elem_of_nil|done].
  - rewrite not_elem_of_cons. destruct (decide (Token.contract_address t = a)) as [E|N].
    + rewrite (bool_decide_eq_true_2 _ E). split; [done|]. intros [? _]. done.
    + rewrite (bool_decide_eq_false_2 _ N), IH. split; [|tauto].
      intros ?. split; [congruence|done].
Qed.

Lemma store_ok_with_signal w a meta n db :
  get_token a db = None -> store_ok db -> store_ok (with_signal w a meta n db).
Proof.
  intros Hd%get_token_None [Hpk Hfk Hid Hseq]. split; simpl.
  - rewrite fmap_app. apply NoDup_app. split; [done|]. split; [|apply NoDup_singleton].
    intros x Hx Hx'%list_elem_of_singleton. by subst.
  - intros s Hs. rewrite fmap_app. apply elem_of_app.
    apply elem_of_app in Hs as [Hs|Hs%list_elem_of_singleton].
    + left. by apply Hfk.
    + right. subst s. simpl. by left.
  - rewrite fmap_app. apply NoDup_app. split; [done|]. split; [|apply NoDup_singleton].
    intros x (s & -> & Hs)%list_elem_of_fmap Hx'%list_elem_of_singleton.
    simpl in Hx'. specialize (Hseq s Hs). lia.
  - intros s Hs. apply elem_of_app in Hs as [Hs|Hs%list_elem_of_singleton].
    + specialize (Hseq s Hs). lia.
    + subst s. simpl. lia.
Qed.

(** X9: the scan keeps the constraints of the schema.  On a database
    where token addresses are unique, every signal names an existing token,
    signal ids are unique and the id sequence is ahead of them, the same
    holds after a scan, whatever it finds and whether or not it writes;
    and the scan never touches the tracked wallets or the candidates. *)
Theorem scan_keeps_store_ok w a db :
  store_ok db ->
  store_ok (snd (scan_new_token w a db))
  /\ tracked_wallets (snd (scan_new_token w a db)) = tracked_wallets db
  /\ smart_wallet_candidates (snd (scan_new_token w a db))
     = smart_wallet_candidates db.
Proof.
  intros Hok.
  destruct (AnalyzerSpec.scan_cases w a db)
    as [[_ E]|[(_&_&E)|[(m&_&_&_&E)|[(m&_&_&_&_&E)|(m&Hd&_&_&_&E)]]]];
    rewrite E; simpl; try done.
  split; [|done]. by apply store_ok_with_signal.
Qed.

Lemma store_ok_db0 : store_ok Examples.db0.
Proof.
  split; simpl; try apply NoDup_nil_2; intros s Hs; by apply elem_of_nil in Hs.
Qed.

(** The sample scan on the sample database. *)
Lemma scan_keeps_store_ok_witness :
  store_ok (snd (scan_new_token Examples.world_hot Examples.mint Examples.db0)).
Proof. exact (proj1 (scan_keeps_store_ok _ _ _ store_ok_db0)). Defined.

(** X10: the scores a signal can carry.  The confidence of a generated
    signal is one of 70, 80, 90 and 100, and it is 100 exactly when at
    least 5 tracked wallets matched. *)
Theorem confidence_values w a db c db' :
  scan_new_token w a db = (Signal_generated c, db') ->
  (c = 70 \/ c = 80 \/ c = 90 \/ c = 100)
  /\ (c = 100 <-> 5 <= match_count w db).
Proof.
  intros H.
  destruct (AnalyzerSpec.scan_cases w a db)
    as [[_ E]|[(_&_&E)|[(m&_&_&_&E)|[(m&_&_&_&_&E)|(m&_&_&_&Hn&E)]]]];
    rewrite E in H; try discriminate.
  injection H as <- _. unfold confidence_of. lia.
Qed.

(** The sample scan scores 70. *)
Lemma confidence_values_witness :
  exists c,
    fst (scan_new_token Examples.world_hot Examples.mint Examples.db0)
    = Signal_generated c
    /\ (c = 70 \/ c = 80 \/ c = 90 \/ c = 100).
Proof.
  exists 70. split; [vm_compute; reflexivity|].
  refine (proj1 (confidence_values Examples.world_hot Examples.mint Examples.db0 70
                   (snd (scan_new_token Examples.world_hot Examples.mint
                                        Examples.db0)) _)).
  vm_compute. reflexivity.
Defined.

Lemma refine_created_at_ok tx created :
  timestamp_ok tx -> is_Some (refine_created_at (tx_timestamp tx) created).
Proof.
  unfold timestamp_ok, refine_created_at, fromtimestamp. intros H.
  destruct (tx_timestamp tx) as [t|]; [|eauto].
  destruct (t =? 0); [eauto|]. specialize (H t eq_refl).
  rewrite (proj2 (Z.leb_le _ _) (proj1 H)), (proj2 (Z.leb_le _ _) (proj2 H)).
  simpl. eauto.
Qed.

Lemma refine_created_at_stamp t created :
  t <> 0 -> MIN_TIMESTAMP <= t <= MAX_TIMESTAMP ->
  refine_created_at (Some t) created = Some (t * second_us).
Proof.
  intros Hne [H1 H2]. unfold refine_created_at, fromtimestamp.
  rewrite (proj2 (Z.eqb_neq _ _) Hne).
  by rewrite (proj2 (Z.leb_le _ _) H1), (proj2 (Z.leb_le _ _) H2).
Qed.

Lemma find_rev_last_match {A} (f : A -> bool) (newer older : list A) x :
  f x = true -> Forall (fun y => f y = false) older ->
  find f (rev (newer ++ x :: older)) = Some x.
Proof.
  intros Hx Hold. rewrite rev_app_distr. simpl. rewrite <- app_assoc.
  rewrite AnalyzerSpec.find_app_None; [simpl; by rewrite Hx|].
  apply AnalyzerSpec.find_filter_nil.
  assert (Hr : Forall (fun y => f y = false) (rev older)).
  { apply Forall_forall. intros y Hy. rewrite Forall_forall in Hold.
    apply Hold. apply list_elem_of_In. apply in_rev. by apply list_elem_of_In. }
  induction Hr as [|y l Hy Hr IH]; [done|].
  rewrite filter_cons_False; [exact IH|]. rewrite Hy. intros [].
Qed.

(** X11: when metadata resolution fails.  It fails when the transaction
    fetch times out or raises, and the scan then stops without writing.
    When Helius answers, with a list or with an error object, it succeeds
    provided the timestamps of the transactions are within the range of
    dates; a timestamp of the oldest transaction beyond year 9999 makes it
    fail, and the candidate is dropped. *)
Theorem metadata_resolution w a :
  ((meta_response w = Resp_timeout \/ meta_response w = Resp_raise) ->
   get_token_metadata w a = None
   /\ forall db, get_token a db = None ->
                 scan_new_token w a db = (No_metadata, db))
  /\ (meta_response w = Resp_other -> is_Some (get_token_metadata w a))
  /\ (forall txs,
        meta_response w = Resp_list txs -> Forall timestamp_ok txs ->
        is_Some (get_token_metadata w a))
  /\ (forall txs oldest t,
        meta_response w = Resp_list (txs ++ [oldest]) ->
        tx_timestamp oldest = Some t -> MAX_TIMESTAMP < t ->
        get_token_metadata w a = None).
Proof.
  split; [|split; [|split]].
  - intros H.
    assert (E : get_token_metadata w a = None).
    { unfold get_token_metadata. by destruct H as [-> | ->]. }
    split; [exact E|]. intros db Hd.
    unfold scan_new_token, scan_new_token_among. by rewrite Hd, E.
  - intros H. unfold get_token_metadata. rewrite H. simpl. eauto.
  - intros txs H Hok. unfold get_token_metadata. rewrite H. simpl.
    unfold metadata_of. destruct (last txs) as [oldest|] eqn:El; [|simpl; eauto].
    rewrite Forall_forall in Hok.
    destruct (refine_created_at_ok oldest (meta_now w)) as [c Hc].
    { apply Hok. by eapply last_Some_elem_of. }
    rewrite Hc. simpl.
    destruct (find is_pump (rev txs)) as [tx|] eqn:Ef; [|simpl; eauto].
    destruct (refine_created_at_ok tx c) as [c' Hc'].
    { apply Hok. apply find_some in Ef as [Hin _]. apply list_elem_of_In.
      by apply in_rev. }
    rewrite Hc'. simpl. eauto.
  - intros txs oldest t H Ht Hmax. unfold get_token_metadata. rewrite H. simpl.
    unfold metadata_of. rewrite last_snoc, Ht.
    unfold refine_created_at, fromtimestamp.
    assert (Hne : t <> 0) by (unfold MAX_TIMESTAMP in Hmax; lia).
    rewrite (proj2 (Z.eqb_neq _ _) Hne).
    rewrite (proj2 (Z.leb_gt _ _) Hmax), andb_false_r. reflexivity.
Qed.

(** A fetch that raises, and a creation stamped in milliseconds. *)
Lemma metadata_resolution_witness :
  scan_new_token (mkWorld Resp_raise 0 None 0 (Resp_list []) 0)
                 Examples.mint Examples.db0
  = (No_metadata, Examples.db0)
  /\ get_token_metadata
       (mkWorld (Resp_list [Examples.swap "BobWallet" (Examples.t0 * 1000)])
                0 None 0 (Resp_list []) 0)
       Examples.mint
     = None.
Proof.
  split.
  - apply (proj1 (metadata_resolution _ Examples.mint)); [by right|reflexivity].
  - apply (proj2 (proj2 (proj2 (metadata_resolution _ Examples.mint)))
             [] (Examples.swap "BobWallet" (Examples.t0 * 1000))
             (Examples.t0 * 1000)); reflexivity.
Defined.

(** X12: whose token it is.  When the list has a launch-venue
    transaction, the dev address and the creation time are those of the
    oldest such transaction (the last one in the list): its fee payer, and
    its timestamp when it has one.  Without any, they are those of the
    oldest transaction; without a fee payer the dev address is unknown and
    without a timestamp the creation time is the time of the lookup. *)
Theorem metadata_prefers_launch_venue w a :
  (forall newer tx older,
      meta_response w = Resp_list (newer ++ tx :: older) ->
      is_pump tx = true -> Forall (fun y => is_pump y = false) older ->
      Forall timestamp_ok (newer ++ tx :: older) ->
      exists meta,
        get_token_metadata w a = Some meta
        /\ (forall d, feePayer tx = Some d -> dev_address meta = d)
        /\ (forall t, tx_timestamp tx = Some t -> t <> 0 ->
                      created_at meta = t * second_us))
  /\ (forall txs oldest,
        meta_response w = Resp_list (txs ++ [oldest]) ->
        Forall (fun y => is_pump y = false) (txs ++ [oldest]) ->
        timestamp_ok oldest ->
        exists meta,
          get_token_metadata w a = Some meta
          /\ dev_address meta = default "unknown" (feePayer oldest)
          /\ (forall t, tx_timestamp oldest = Some t -> t <> 0 ->
                        created_at meta = t * second_us)
          /\ (tx_timestamp oldest = None -> created_at meta = meta_now w)).
Proof.
  split.
  - intros newer tx older H Hp Hold Hok.
    unfold get_token_metadata. rewrite H. simpl. unfold metadata_of.
    rewrite Forall_forall in Hok.
    destruct (last (newer ++ tx :: older)) as [oldest|] eqn:El.
    2: { apply last_None in El. by destruct newer. }
    destruct (refine_created_at_ok oldest (meta_now w)) as [c Hc].
    { apply Hok. by eapply last_Some_elem_of. }
    rewrite Hc. simpl. rewrite (find_rev_last_match _ _ _ _ Hp Hold).
    assert (Htx : timestamp_ok tx).
    { apply Hok. apply elem_of_app. right. by left. }
    destruct (refine_created_at_ok tx c Htx) as [c' Hc'].
    rewrite Hc'. simpl. eexists. split; [reflexivity|]. simpl. split.
    + intros d ->. reflexivity.
    + intros t Ht Hne. rewrite Ht in Hc'.
      rewrite refine_created_at_stamp in Hc' by (auto using Htx). congruence.
  - intros txs oldest H Hnp Hok.
    unfold get_token_metadata. rewrite H. simpl. unfold metadata_of.
    rewrite last_snoc.
    destruct (refine_created_at_ok oldest (meta_now w) Hok) as [c Hc].
    rewrite Hc. simpl.
    assert (Ef : find is_pump (rev (txs ++ [oldest])) = None).
    { apply AnalyzerSpec.find_filter_nil.
      assert (Hr : Forall (fun y => is_pump y = false) (rev (txs ++ [oldest]))).
      { apply Forall_forall. intros y Hy. rewrite Forall_forall in Hnp.
        apply Hnp. apply list_elem_of_In. apply in_rev. by apply list_elem_of_In. }
      induction Hr as [|y l Hy Hr IH]; [done|].
      rewrite filter_cons_False; [exact IH|]. rewrite Hy. intros []. }
    rewrite Ef. simpl. eexists. split; [reflexivity|]. simpl.
    split; [reflexivity|]. split.
    + intros t Ht Hne. rewrite Ht in Hc.
      rewrite refine_created_at_stamp in Hc by (auto using Hok). congruence.
    + intros Ht. rewrite Ht in Hc. simpl in Hc. congruence.
Qed.

(** The sample history: the creation by DevWallet is its oldest
    launch-venue transaction. *)
Lemma metadata_prefers_launch_venue_witness :
  exists meta,
    get_token_metadata Examples.world_hot Examples.mint = Some meta
    /\ dev_address meta = "DevWallet"
    /\ created_at meta = Examples.t0 * second_us.
Proof.
  destruct (proj1 (metadata_prefers_launch_venue Examples.world_hot Examples.mint)
              [Examples.swap "CarolWallet" (Examples.t0 + 40);
               Examples.swap "BobWallet" (Examples.t0 + 30);
               Examples.swap "AliceWallet" (Examples.t0 + 20)]
              (mkTx (Some "CREATE") (Some "PUMP_FUN") (Some "DevWallet")
                    (Some Examples.t0))
              [] eq_refl eq_refl (Forall_nil_2 _))
    as (meta & H1 & H2 & H3).
  - repeat apply Forall_cons_2; try apply Forall_nil_2;
      intros t [= <-]; vm_compute; split; discriminate.
  - exists meta. split; [exact H1|]. split.
    + by apply H2.
    + apply (H3 Examples.t0); [reflexivity|discriminate].
Defined.

End AnalyzerMore.

(** ** Resolution by signature and the two listener loops *)

Module ResolverSpec.
Import Listener Resolver.

Lemma first_mint_Some ixs m :
  first_mint ixs = Some m ->
  m <> EmptyString /\ exists ix, ix ∈ ixs /\ initializes m ix.
Proof.
  induction ixs as [|ix ixs IH]; [done|]. simpl.
  assert (K : first_mint ixs = Some m ->
              m <> EmptyString /\ exists ix0, ix0 ∈ ix :: ixs /\ initializes m ix0).
  { intros H. destruct (IH H) as (? & ix0 & ? & ?). split; [done|].
    exists ix0. split; [by right|done]. }
  destruct (decide (parsed_type ix = Some "initializeMint")) as [E|E].
  - rewrite (bool_decide_eq_true_2 _ E).
    destruct (info_mint ix) as [mint|] eqn:Em; [|exact K].
    destruct (decide (mint = EmptyString)) as [E'|E'].
    + rewrite (bool_decide_eq_true_2 _ E'). exact K.
    + rewrite (bool_decide_eq_false_2 _ E'). intros [= <-]. split; [done|].
      exists ix. split; [by left|done].
  - rewrite (bool_decide_eq_false_2 _ E). exact K.
Qed.




Lemma first_inner_mint_Some sets m :
  first_inner_mint sets = Some m ->
  m <> EmptyString /\ exists ix, ix ∈ concat sets /\ initializes m ix.
Proof.
  induction sets as [|ixs sets IH]; [done|]. simpl.
  destruct (first_mint ixs) as [m'|] eqn:E.
  - intros [= <-]. destruct (first_mint_Some _ _ E) as (? & ix & ? & ?).
    split; [done|]. exists ix. split; [|done]. apply elem_of_app. by left.
  - intros H. destruct (IH H) as (? & ix & ? & ?). split; [done|].
    exists ix. split; [|done]. apply elem_of_app. by right.
Qed.

Lemma first_inner_mint_None sets :
  (forall ix m, ix ∈ concat sets -> initializes m ix -> m = EmptyString) ->
  first_inner_mint sets = None.
Proof.
  intros H. destruct (first_inner_mint sets) as [m|] eqn:E; [|done].
  destruct (first_inner_mint_Some _ _ E) as (Hne & ix & Hin & Hi).
  by destruct Hne, (H ix m Hin Hi).
Qed.

Lemma account_key_fallback_Some keys m :
  account_key_fallback keys = Some m
  <-> (3 <= length keys)%nat
      /\ (exists k, keys !! 1%nat = Some k /\ key_text k = m)
      /\ m <> EmptyString /\ m <> PUMP_FUN_PROGRAM_ID.
Proof.
  unfold account_key_fallback. destruct (3 <=? length keys)%nat eqn:El.
  2: { apply Nat.leb_gt in El. split; [done|]. intros (? & _). lia. }
  apply Nat.leb_le in El. destruct (keys !! 1%nat) as [k|] eqn:Ek.
  2: { split; [done|]. intros (_ & (k & [=] & _) & _). }
  cbv zeta.
  destruct (decide (key_text k = EmptyString)) as [E1|E1];
    [rewrite (bool_decide_eq_true_2 _ E1)|rewrite (bool_decide_eq_false_2 _ E1)];
    (destruct (decide (key_text k = PUMP_FUN_PROGRAM_ID)) as [E2|E2];
     [rewrite (bool_decide_eq_true_2 _ E2)|rewrite (bool_decide_eq_false_2 _ E2)]);
    simpl; split;
    try discriminate;
    try (intros (_ & (k' & [= <-] & <-) & ? & ?); done).
  intros [= <-]. split; [done|]. split; [by exists k|done].
Qed.

Lemma extract_from_tx_nonempty r m :
  _extract_token_from_tx r = Some m -> m <> EmptyString.
Proof.
  destruct r as [result|]; [|done]. simpl.
  destruct (first_inner_mint _) as [m1|] eqn:E1.
  { intros [= <-]. by destruct (first_inner_mint_Some _ _ E1). }
  destruct (first_mint _) as [m2|] eqn:E2.
  { intros [= <-]. by destruct (first_mint_Some _ _ E2). }
  intros H%account_key_fallback_Some. tauto.
Qed.








Lemma extract_logs_has_marker logs c :
  _extract_token_address_from_logs logs = Some c ->
  existsb is_create_line logs = true.
Proof.
  induction logs as [|msg logs IH]; [done|].
  cbn [_extract_token_address_from_logs existsb]. intros H.
  apply orb_true_iff. destruct (has_create msg) eqn:E.
  - left. unfold is_create_line. unfold has_create in E. by rewrite E.
  - right. by apply IH.
Qed.

(** X14: which candidate a log notification yields, and what is
    looked up for it.  A bundle without log lines, or without a line
    that carries a marker (Create, create or InitializeMint), yields no
    candidate: no transaction is fetched and nothing is scanned.  An
    address found in the log lines is the candidate: no transaction is
    fetched, and the address is handed to the scan.  Otherwise, without
    a signature there is no candidate and nothing is fetched; with one,
    exactly that transaction is fetched, the candidate is what the
    resolution returns, and it is handed to the scan if there is one.
    A candidate is never the empty string, and a scan that raises does
    not keep the run from going on. *)
Theorem on_message_candidate {S} lookup (scan : string -> S -> S * bool)
        logs signature (r : Run) :
  (Forall (fun log => is_create_line log = false) logs ->
   on_message lookup scan logs signature r = (r, None))
  /\ (forall c, _extract_token_address_from_logs logs = Some c ->
        on_message lookup scan logs signature r
        = (mkRun (fetched r) (scanned r ++ [c]) (scan c (store r)).1, Some c))
  /\ (_extract_token_address_from_logs logs = None ->
      existsb is_create_line logs = true ->
      (signature = EmptyString ->
       on_message lookup scan logs signature r = (r, None))
      /\ (signature <> EmptyString ->
          _extract_token_from_tx (lookup signature) = None ->
          on_message lookup scan logs signature r
          = (mkRun (fetched r ++ [signature]) (scanned r) (store r), None))
      /\ (forall c, signature <> EmptyString ->
            _extract_token_from_tx (lookup signature) = Some c ->
            on_message lookup scan logs signature r
            = (mkRun (fetched r ++ [signature]) (scanned r ++ [c])
                     (scan c (store r)).1, Some c)))
  /\ (forall c, (on_message lookup scan logs signature r).2 = Some c ->
                c <> EmptyString).
Proof.
  assert (Hh : forall c r', (hand_over scan c r').1
                            = mkRun (fetched r') (scanned r' ++ [c])
                                    (scan c (store r')).1).
  { intros c r'. unfold hand_over. by destruct (scan c (store r')). }
  assert (H1 : Forall (fun log => is_create_line log = false) logs ->
               on_message lookup scan logs signature r = (r, None)).
  { intros H. unfold on_message. destruct logs as [|l logs]; [done|].
    assert (E : existsb is_create_line (l :: logs) = false).
    { induction H as [|x xs Hx _ IH]; [done|]. simpl. by rewrite Hx, IH. }
    by rewrite E. }
  assert (H2 : forall c, _extract_token_address_from_logs logs = Some c ->
                 on_message lookup scan logs signature r
                 = (mkRun (fetched r) (scanned r ++ [c]) (scan c (store r)).1,
                    Some c)).
  { intros c H. unfold on_message. destruct logs as [|l logs]; [done|].
    by rewrite (extract_logs_has_marker _ _ H), H, Hh. }
  assert (H3 : _extract_token_address_from_logs logs = None ->
               existsb is_create_line logs = true ->
               on_message lookup scan logs signature r
               = if bool_decide (signature = EmptyString) then (r, None)
                 else match _extract_token_from_tx (lookup signature) with
                      | Some c =>
                        (mkRun (fetched r ++ [signature]) (scanned r ++ [c])
                               (scan c (store r)).1, Some c)
                      | None =>
                        (mkRun (fetched r ++ [signature]) (scanned r) (store r),
                         None)
                      end).
  { intros Hn He. unfold on_message. destruct logs as [|l logs]; [done|].
    rewrite He, Hn. destruct (bool_decide (signature = EmptyString)); [done|].
    unfold fetch. destruct (_extract_token_from_tx (lookup signature)); [|done].
    by rewrite Hh. }
  split; [exact H1|]. split; [exact H2|]. split.
  - intros Hn He. rewrite (H3 Hn He). split; [|split].
    + intros E. by rewrite (bool_decide_eq_true_2 _ E).
    + intros N E. by rewrite (bool_decide_eq_false_2 _ N), E.
    + intros c N E. by rewrite (bool_decide_eq_false_2 _ N), E.
  - intros c H.
    destruct (_extract_token_address_from_logs logs) as [c'|] eqn:E.
    + rewrite (H2 c' eq_refl) in H. injection H as <-.
      rewrite ListenerSpec.extract_first_qualifying in E.
      apply head_Some_elem_of, list_elem_of_filter in E as [E _].
      apply ListenerSpec.is_address_spec in E as [[E _] _].
      intros ->. simpl in E. lia.
    + destruct (existsb is_create_line logs) eqn:Ee.
      * rewrite (H3 eq_refl eq_refl) in H.
        destruct (bool_decide (signature = EmptyString)); [done|].
        destruct (_extract_token_from_tx (lookup signature)) as [c0|] eqn:Ex;
          [|done].
        injection H as <-. by apply extract_from_tx_nonempty in Ex.
      * unfold on_message in H. destruct logs; [done|]. by rewrite Ee in H.
Qed.

(** A notification whose log lines carry the address: nothing is
    fetched, although the node would answer, and the address is scanned. *)
Lemma on_message_candidate_witness :
  fetched (on_message Samples.node Samples.scan_alone
             ["Program log: Instruction: Buy";
              "Program log: create 7xKXtg2CW87d97TXJSDpbD5jBkheTqA83TZRuJosgAsU"]
             "sigA" (mkRun [] [] Examples.db0)).1 = []
  /\ scanned (on_message Samples.node Samples.scan_alone
                ["Program log: Instruction: InitializeMint2"]
                "sigA" (mkRun [] [] Examples.db0)).1 = [Examples.mint].
Proof.
  split.
  - refine (f_equal (fun x => fetched x.1)
              (proj1 (proj2 (on_message_candidate Samples.node Samples.scan_alone
                               _ "sigA" (mkRun [] [] Examples.db0)))
                     Examples.mint _)).
    vm_compute. reflexivity.
  - refine (f_equal (fun x => scanned x.1)
              (proj2 (proj2 (proj1 (proj2 (proj2
                 (on_message_candidate Samples.node Samples.scan_alone
                    _ "sigA" (mkRun [] [] Examples.db0))))
                 _ _)) Examples.mint _ _)).
    + vm_compute. reflexivity.
    + vm_compute. reflexivity.
    + discriminate.
    + vm_compute. reflexivity.
Defined.

(** *** The polling loop *)












End ResolverSpec.

(** ** The settings *)

Module ConfigSpec.
Import Listener Config.

Lemma contains_cons needle c r :
  contains needle (String c r)
  = String.prefix needle (String c r) || contains needle r.
Proof. reflexivity. Qed.

Lemma replace_absent old new s :
  contains old s = false -> replace_go old new O s = s.
Proof.
  induction s as [|c r IH]; [done|]. rewrite contains_cons.
  intros [Hp Hc]%orb_false_iff.
  cbn [replace_go]. rewrite Hp. f_equal. by apply IH.
Qed.

Lemma no_scheme_after_wss rest :
  contains "https://" rest = false ->
  contains "https://" ("wss://" +:+ rest) = false.
Proof. intros H. cbv [String.append]. simpl. exact H. Qed.

Lemma derive_absent url :
  contains "https://" url = false -> _derive_ws_url url = url.
Proof. intros H. by apply replace_absent. Qed.

Lemma derive_https rest :
  contains "https://" rest = false ->
  _derive_ws_url ("https://" +:+ rest) = "wss://" +:+ rest.
Proof.
  intros H. cbv [_derive_ws_url String.append]. simpl.
  assert (Hp : String.prefix EmptyString rest = true) by (by destruct rest).
  rewrite Hp, (replace_absent _ _ _ H). reflexivity.
Qed.

(** X17: the WebSocket URL.  A URL that starts with the https scheme and
    has no other occurrence of it becomes the same URL under the wss
    scheme, host, path and query string intact; a URL in which the scheme
    does not occur is returned as it is; and deriving twice is deriving
    once. *)
Theorem derive_ws_url_scheme :
  (forall rest,
      contains "https://" rest = false ->
      _derive_ws_url ("https://" +:+ rest) = "wss://" +:+ rest
      /\ _derive_ws_url (_derive_ws_url ("https://" +:+ rest))
         = _derive_ws_url ("https://" +:+ rest))
  /\ (forall url, contains "https://" url = false -> _derive_ws_url url = url).
Proof.
  split; [|exact derive_absent]. intros rest H. split; [by apply derive_https|].
  rewrite (derive_https rest H). apply derive_absent.
  by apply no_scheme_after_wss.
Qed.

(** The Helius RPC URL of a deployment. *)
Lemma derive_ws_url_scheme_witness :
  _derive_ws_url "https://mainnet.helius-rpc.com/?api-key=abc-123"
  = "wss://mainnet.helius-rpc.com/?api-key=abc-123".
Proof.
  apply (proj1 (proj1 derive_ws_url_scheme "mainnet.helius-rpc.com/?api-key=abc-123"
                      eq_refl)).
Defined.

(** *** The API key *)

Lemma append_assoc3 (a b c : string) : (a +:+ b) +:+ c = a +:+ b +:+ c.
Proof.
  induction a as [|x a IH]; [done|]. cbv [String.append] in *. fold String.append in *.
  by rewrite IH.
Qed.

Lemma append_cons c (a b : string) : String c a +:+ b = String c (a +:+ b).
Proof. reflexivity. Qed.

Lemma append_nil (b : string) : EmptyString +:+ b = b.
Proof. reflexivity. Qed.

Lemma length_append (a b : string) :
  String.length (a +:+ b) = (String.length a + String.length b)%nat.
Proof.
  induction a as [|x a IH]; [done|]. rewrite append_cons. simpl. by rewrite IH.
Qed.

Lemma prefix_nil s : String.prefix EmptyString s = true.
Proof. by destruct s. Qed.

(** A prefix test that succeeds on a string succeeds on any part of it
    that is long enough. *)
Lemma prefix_of_longer p : forall s t,
  (String.length p <= String.length s)%nat ->
  String.prefix p (s +:+ t) = true -> String.prefix p s = true.
Proof.
  induction p as [|x p IH]; intros s t Hl H; [apply prefix_nil|].
  destruct s as [|y s]; [simpl in Hl; lia|].
  rewrite append_cons in H. simpl in *.
  destruct (ascii_dec x y); [|done]. apply (IH s t); [lia|done].
Qed.

Lemma extract_cons_skip c s :
  String.prefix "api-key=" (String c s) = false ->
  _extract_api_key (String c s) = _extract_api_key s.
Proof. intros H. cbn [_extract_api_key]. by rewrite H. Qed.

Lemma extract_skips_base base : forall rest,
  contains "api-key=" (base +:+ "api-key") = false ->
  _extract_api_key (base +:+ "api-key=" +:+ rest)
  = _extract_api_key ("api-key=" +:+ rest).
Proof.
  induction base as [|c base IH]; intros rest H; [done|].
  rewrite append_cons in H. rewrite contains_cons in H.
  apply orb_false_iff in H as [Hp Hc].
  rewrite append_cons. cbn [_extract_api_key].
  assert (Hp' : String.prefix "api-key=" (String c (base +:+ "api-key=" +:+ rest))
                = false).
  { destruct (String.prefix "api-key=" (String c (base +:+ "api-key=" +:+ rest)))
      eqn:E; [|done].
    rewrite <- Hp. symmetry.
    apply (prefix_of_longer "api-key=" (String c (base +:+ "api-key"))
                            ("=" +:+ rest)).
    - simpl. rewrite length_append. simpl. lia.
    - rewrite append_cons, append_assoc3. exact E. }
  rewrite Hp'. by apply IH.
Qed.

Lemma until_amp_key key tail :
  contains "&" key = false ->
  tail = EmptyString \/ (exists t, tail = "&" +:+ t) ->
  until_amp (key +:+ tail) = key.
Proof.
  intros Hk Ht. induction key as [|c key IH].
  - rewrite append_nil. by destruct Ht as [->|[t ->]].
  - rewrite contains_cons in Hk. apply orb_false_iff in Hk as [Hp Hc].
    rewrite append_cons. simpl.
    destruct (decide (c = "&"%char)) as [->|N].
    + simpl in Hp. by destruct key.
    + rewrite (bool_decide_eq_false_2 _ N). by rewrite IH.
Qed.

Lemma prefix_cons a p b s :
  String.prefix (String a p) (String b s)
  = if ascii_dec a b then String.prefix p s else false.
Proof. reflexivity. Qed.

Lemma until_amp_no_amp s : contains "&" (until_amp s) = false.
Proof.
  induction s as [|c s IH]; [done|]. cbn [until_amp].
  destruct (decide (c = "&"%char)) as [->|N].
  - by rewrite bool_decide_eq_true_2.
  - rewrite (bool_decide_eq_false_2 _ N), contains_cons, IH, orb_false_r.
    rewrite prefix_cons.
    destruct (ascii_dec "&" c) as [E|E]; [destruct N; by symmetry|done].
Qed.

Lemma extract_at_key key tail :
  key <> EmptyString -> contains "&" key = false ->
  tail = EmptyString \/ (exists t, tail = "&" +:+ t) ->
  _extract_api_key ("api-key=" +:+ key +:+ tail) = key.
Proof.
  intros Hne Hk Ht. cbv [String.append]. fold String.append.
  cbn [_extract_api_key]. simpl String.prefix.
  rewrite prefix_nil. simpl string_drop.
  rewrite (until_amp_key key tail Hk Ht). by destruct key.
Qed.

(** X18: the API key comes back.  From a URL made of a base, the literal
    api-key=, a key and a tail, the key is extracted, provided the key is
    not empty and has no ampersand, the tail is empty or starts with an
    ampersand, and the literal does not occur earlier.  In particular the
    key is read back from the URL that the analyzer builds with it, and
    the WebSocket URL derived from an https URL carries the same key. *)
Theorem api_key_round_trip :
  (forall base key tail,
      key <> EmptyString -> contains "&" key = false ->
      tail = EmptyString \/ (exists t, tail = "&" +:+ t) ->
      contains "api-key=" (base +:+ "api-key") = false ->
      _extract_api_key (base +:+ "api-key=" +:+ key +:+ tail) = key)
  /\ (forall key address limit,
        key <> EmptyString -> contains "&" key = false ->
        contains "api-key=" (address +:+ "/transactions?api-key") = false ->
        _extract_api_key (_helius_tx_url key address limit) = key)
  /\ (forall rest,
        contains "https://" rest = false ->
        _extract_api_key (_derive_ws_url ("https://" +:+ rest))
        = _extract_api_key ("https://" +:+ rest)).
Proof.
  assert (H1 : forall base key tail,
      key <> EmptyString -> contains "&" key = false ->
      tail = EmptyString \/ (exists t, tail = "&" +:+ t) ->
      contains "api-key=" (base +:+ "api-key") = false ->
      _extract_api_key (base +:+ "api-key=" +:+ key +:+ tail) = key).
  { intros base key tail Hne Hk Ht Hb.
    rewrite extract_skips_base by exact Hb. by apply extract_at_key. }
  split; [exact H1|]. split.
  - intros key address limit Hne Hk Ha.
    unfold _helius_tx_url, HELIUS_REST_URL.
    set (R := "&limit=" +:+ pretty limit).
    assert (E : address +:+ "/transactions" +:+ "?api-key=" +:+ key +:+ R
                = (address +:+ "/transactions?") +:+ "api-key=" +:+ key +:+ R).
    { by rewrite append_assoc3. }
    rewrite E. clear E.
    set (X := (address +:+ "/transactions?") +:+ "api-key=" +:+ key +:+ R).
    rewrite !append_cons, !append_nil.
    repeat (rewrite extract_cons_skip by reflexivity).
    subst X.
    apply H1; [done|done|right; by exists ("limit=" +:+ pretty limit)|].
    by rewrite append_assoc3.
  - intros rest H. rewrite (derive_https rest H).
    rewrite !append_cons, !append_nil.
    by repeat (rewrite extract_cons_skip by reflexivity).
Qed.

(** The key of the sample RPC URL, and of the transactions URL built
    with it. *)
Lemma api_key_round_trip_witness :
  _extract_api_key "https://mainnet.helius-rpc.com/?api-key=abc-123" = "abc-123"
  /\ _extract_api_key (_helius_tx_url "abc-123" Examples.mint 100) = "abc-123".
Proof.
  destruct api_key_round_trip as (H1 & H2 & _). split.
  - apply (H1 "https://mainnet.helius-rpc.com/?" "abc-123" EmptyString);
      [discriminate|reflexivity|by left|reflexivity].
  - apply H2; [discriminate|reflexivity|reflexivity].
Defined.

Lemma extract_no_amp url : contains "&" (_extract_api_key url) = false.
Proof.
  induction url as [|c url IH]; [done|]. cbn [_extract_api_key].
  destruct (String.prefix "api-key=" (String c url)); [|exact IH].
  pose proof (until_amp_no_amp (string_drop 8 (String c url))) as H.
  destruct (until_amp (string_drop 8 (String c url))); [exact IH|exact H].
Qed.

Lemma extract_absent url :
  contains "api-key=" url = false -> _extract_api_key url = EmptyString.
Proof.
  induction url as [|c url IH]; [done|]. rewrite contains_cons.
  intros [Hp Hc]%orb_false_iff. cbn [_extract_api_key]. rewrite Hp. by apply IH.
Qed.

(** X19: what the key can be.  The extracted key never contains an
    ampersand, and it is the empty string when the literal api-key= does
    not occur in the URL. *)
Theorem api_key_shape :
  (forall url, contains "&" (_extract_api_key url) = false)
  /\ (forall url, contains "api-key=" url = false ->
                  _extract_api_key url = EmptyString).
Proof. split; [exact extract_no_amp | exact extract_absent]. Qed.

(** An RPC URL without a key. *)
Lemma api_key_shape_witness :
  _extract_api_key "https://api.mainnet-beta.solana.com" = EmptyString.
Proof. apply (proj2 api_key_shape). reflexivity. Defined.

End ConfigSpec.

(** ** The wallet roster *)

Module DashboardSpec.
Import Discovery Dashboard SmartWalletCandidate.

Lemma set_wallets_same db : set_wallets (tracked_wallets db) db = db.
Proof. by destruct db. Qed.

Lemma wallets_at_app a ws extra db :
  tracked_wallets db = (ws ++ extra)%list ->
  wallets_at a db
  = (filter (fun w => bool_decide (TrackedWallet.address w = a)) ws
     ++ filter (fun w => bool_decide (TrackedWallet.address w = a)) extra)%list.
Proof. intros E. unfold wallets_at. by rewrite E, filter_app. Qed.

(** X20: adding a wallet from the dashboard.  When the address is
    already tracked the database is left exactly as it is: the existing
    row keeps its label and its status, paused included.  Otherwise one
    row is appended, active, with the given label and no source, and the
    rows of every other address are as they were.  Either way the primary
    key of the table is kept. *)
Theorem dashboard_add_wallet utcnow address label db :
  (is_Some (get_wallet address db) ->
   Dashboard.add_wallet utcnow address label db = db)
  /\ (get_wallet address db = None ->
      tracked_wallets (Dashboard.add_wallet utcnow address label db)
      = (tracked_wallets db
         ++ [TrackedWallet.mk address label None active None utcnow])%list
      /\ wallets_at address (Dashboard.add_wallet utcnow address label db)
         = [TrackedWallet.mk address label None active None utcnow])
  /\ (forall other, other <> address ->
        wallets_at other (Dashboard.add_wallet utcnow address label db)
        = wallets_at other db)
  /\ (NoDup (TrackedWallet.address <$> tracked_wallets db) ->
      NoDup (TrackedWallet.address
               <$> tracked_wallets (Dashboard.add_wallet utcnow address label db))).
Proof.
  unfold Dashboard.add_wallet, insert_wallet.
  cbn [TrackedWallet.address].
  destruct (get_wallet address db) as [w|] eqn:E.
  - split; [done|]. split; [done|]. split; done.
  - split; [by intros [? [=]]|]. split; [|split].
    + intros _. split; [done|].
      rewrite (wallets_at_app address (tracked_wallets db)
                 [TrackedWallet.mk address label None active None utcnow])
        by reflexivity.
      apply DiscoverySpec.get_wallet_None in E.
      pose proof (DiscoverySpec.wallets_at_nil address db E) as Hn.
      unfold wallets_at in Hn. rewrite Hn.
      rewrite filter_cons_True; [done|].
      cbn [TrackedWallet.address]. by rewrite bool_decide_eq_true_2.
    + intros other Hne.
      rewrite (wallets_at_app other (tracked_wallets db)
                 [TrackedWallet.mk address label None active None utcnow])
        by reflexivity.
      rewrite (filter_cons_False _ _ []); [by rewrite app_nil_r|].
      cbn [TrackedWallet.address].
      intros H%Is_true_true%bool_decide_eq_true. congruence.
    + intros Hnd. cbn [tracked_wallets set_wallets].
      rewrite fmap_app. apply NoDup_app. split; [done|].
      split; [|apply NoDup_singleton].
      intros x Hx Hx'%list_elem_of_singleton. simpl in Hx'. subst x.
      by apply DiscoverySpec.get_wallet_None in E.
Qed.

(** Carol, paused, is added again from the dashboard. *)
Lemma dashboard_add_wallet_witness :
  Dashboard.add_wallet 5 "CarolWallet" "carol again" Examples.db0 = Examples.db0.
Proof.
  apply (proj1 (dashboard_add_wallet 5 "CarolWallet" "carol again" Examples.db0)).
  vm_compute. eauto.
Defined.

Lemma get_wallet_delete address db :
  get_wallet address (delete_wallet address db) = None.
Proof.
  unfold delete_wallet. destruct (get_wallet address db) eqn:E; [|exact E].
  apply DiscoverySpec.get_wallet_None. simpl.
  intros (w & Hw & Hin%list_elem_of_filter)%list_elem_of_fmap. by destruct Hin.
Qed.

Lemma wallets_at_delete_other address other db :
  other <> address ->
  wallets_at other (delete_wallet address db) = wallets_at other db.
Proof.
  intros Hne. unfold delete_wallet. destruct (get_wallet address db); [|done].
  unfold wallets_at. simpl.
  induction (tracked_wallets db) as [|w ws IH]; [done|].
  rewrite (filter_cons _ w ws).
  destruct (decide (TrackedWallet.address w <> address)) as [N|N].
  - rewrite !filter_cons. rewrite IH. done.
  - rewrite IH. rewrite (filter_cons_False _ w ws); [done|].
    intros H%Is_true_true%bool_decide_eq_true.
    apply N. congruence.
Qed.

Lemma filter_other_all (ws : list TrackedWallet.t) address :
  address ∉ TrackedWallet.address <$> ws ->
  filter (fun w => TrackedWallet.address w <> address) ws = ws.
Proof.
  induction ws as [|w ws IH]; [done|]. rewrite fmap_cons, not_elem_of_cons.
  intros [Hne H]. rewrite filter_cons_True by congruence. by rewrite IH.
Qed.

(** X21: deleting a wallet from the dashboard.  After the deletion no
    row of that address is left and the rows of every other address are
    as they were; deleting an address that is not tracked changes
    nothing; and adding a wallet that was not tracked and deleting it
    again restores the database. *)
Theorem dashboard_delete_wallet address db :
  get_wallet address (delete_wallet address db) = None
  /\ wallets_at address (delete_wallet address db) = []
  /\ (forall other, other <> address ->
        wallets_at other (delete_wallet address db) = wallets_at other db)
  /\ (get_wallet address db = None -> delete_wallet address db = db)
  /\ (forall utcnow label,
        get_wallet address db = None ->
        delete_wallet address (Dashboard.add_wallet utcnow address label db) = db).
Proof.
  split; [apply get_wallet_delete|]. split; [|split; [|split]].
  - apply DiscoverySpec.wallets_at_nil. apply DiscoverySpec.get_wallet_None.
    apply get_wallet_delete.
  - intros other. apply wallets_at_delete_other.
  - intros H. unfold delete_wallet. by rewrite H.
  - intros utcnow label H. unfold Dashboard.add_wallet, insert_wallet. simpl.
    rewrite H. unfold delete_wallet, get_wallet. simpl.
    rewrite AnalyzerSpec.find_app_None by exact H. simpl.
    rewrite bool_decide_eq_true_2 by done.
    rewrite filter_app, filter_other_all by (by apply DiscoverySpec.get_wallet_None).
    rewrite filter_cons_False by (simpl; tauto).
    rewrite filter_nil, app_nil_r. destruct db. reflexivity.
Qed.

(** Dave is added to the sample roster and deleted again. *)
Lemma dashboard_delete_wallet_witness :
  delete_wallet "DaveWallet" (Dashboard.add_wallet 5 "DaveWallet" "dave" Examples.db0)
  = Examples.db0.
Proof.
  apply (proj2 (proj2 (proj2 (proj2 (dashboard_delete_wallet "DaveWallet" Examples.db0))))).
  reflexivity.
Defined.

End DashboardSpec.

(** ** Promotion from the dashboard *)

Module PromotionSpec.
Import Discovery Dashboard SmartWalletCandidate.

Lemma candidates_delete address db :
  smart_wallet_candidates (delete_wallet address db) = smart_wallet_candidates db.
Proof. unfold delete_wallet. by destruct (get_wallet address db). Qed.

Lemma wallets_delete_NoDup address db :
  NoDup (TrackedWallet.address <$> tracked_wallets db) ->
  NoDup (TrackedWallet.address <$> tracked_wallets (delete_wallet address db)).
Proof.
  unfold delete_wallet. destruct (get_wallet address db); [|done].
  cbn [tracked_wallets set_wallets].
  induction (tracked_wallets db) as [|w ws IH]; [done|].
  rewrite fmap_cons, NoDup_cons. intros [Hn Hd].
  rewrite filter_cons. destruct (decide (TrackedWallet.address w <> address)).
  - rewrite fmap_cons. apply NoDup_cons. split; [|by apply IH].
    intros (w' & E & Hin%list_elem_of_filter)%list_elem_of_fmap. apply Hn.
    rewrite E. apply list_elem_of_fmap_2. by destruct Hin.
  - by apply IH.
Qed.

Lemma schema_ok_delete address db :
  schema_ok db -> schema_ok (delete_wallet address db).
Proof.
  intros [Hw Hp Hu]. split; rewrite ?candidates_delete; try done.
  by apply wallets_delete_NoDup.
Qed.

(** A run of the engine leaves free an address that was free and is not
    the address of one of its candidates. *)
Lemma auto_fold_free utcnow a cs : forall st,
  a ∉ TrackedWallet.address <$> tracked_wallets st.2 ->
  (forall c, c ∈ cs -> wallet_address c <> a) ->
  a ∉ TrackedWallet.address <$> tracked_wallets (foldl (promote_one utcnow) st cs).2.
Proof.
  induction cs as [|c cs IH]; intros st Hfree Hcs; [done|]. simpl.
  apply IH; [|intros c' Hc'; apply Hcs; by right].
  destruct (DiscoverySpec.wallets_promote_one utcnow st c)
    as [(_ & _ & Hw)|(_ & _ & Hw)]; rewrite Hw; [done|].
  rewrite fmap_app. intros [H|H]%elem_of_app; [done|].
  apply list_elem_of_singleton in H. simpl in H.
  apply (Hcs c); [by left|done].
Qed.

(** X22: deleting a wallet and the next run of the engine.  When every
    candidate row of the address is already marked promoted, the run
    does not bring the deleted wallet back: no row of that address
    exists afterwards.  When a candidate of that address is still
    unpromoted and qualifies, the run creates the wallet again, as a
    discovery wallet. *)
Theorem deleted_wallet_and_promotion utcnow min_appearances address db :
  ((forall c, c ∈ smart_wallet_candidates db -> wallet_address c = address ->
              is_promoted c = true) ->
   wallets_at address
     (auto_promote_candidates utcnow min_appearances
        (delete_wallet address db)).2 = [])
  /\ (schema_ok db ->
      (exists c, c ∈ qualifying min_appearances db /\ wallet_address c = address) ->
      exists w,
        wallets_at address
          (auto_promote_candidates utcnow min_appearances
             (delete_wallet address db)).2 = [w]
        /\ from_discovery address w).
Proof.
  split.
  - intros Hprom. apply DiscoverySpec.wallets_at_nil.
    unfold auto_promote_candidates. apply auto_fold_free.
    + apply DiscoverySpec.get_wallet_None, DashboardSpec.get_wallet_delete.
    + intros c Hc E. unfold qualifying in Hc. rewrite candidates_delete in Hc.
      apply list_elem_of_filter in Hc as [Hq Hin].
      rewrite (Hprom c Hin E) in Hq. simpl in Hq. by rewrite andb_false_r in Hq.
  - intros Hok (c & Hc & <-).
    assert (Hc' : c ∈ qualifying min_appearances
                      (delete_wallet (wallet_address c) db)).
    { unfold qualifying. by rewrite candidates_delete. }
    destruct (DiscoverySpec.auto_promote_row utcnow min_appearances _ c
                (schema_ok_delete (wallet_address c) db Hok) Hc')
      as (_ & w & Hf & [[Hin _]|[_ Hd]]).
    + exfalso. revert Hin. apply DiscoverySpec.get_wallet_None.
      apply DashboardSpec.get_wallet_delete.
    + by exists w.
Qed.

(** Bob, promoted before, is deleted: the next run leaves him out. *)
Lemma deleted_wallet_and_promotion_witness :
  wallets_at "BobWallet"
    (auto_promote_candidates Examples.clock MIN_APPEARANCES
       (delete_wallet "BobWallet" Examples.db1)).2 = [].
Proof.
  apply (proj1 (deleted_wallet_and_promotion Examples.clock MIN_APPEARANCES
                  "BobWallet" Examples.db1)).
  intros c Hc E. simpl in Hc.
  repeat (apply elem_of_cons in Hc as [->|Hc]; [try discriminate E; reflexivity|]).
  by apply elem_of_nil in Hc.
Defined.

(** *** Promotion of all candidates *)

Lemma promote_row_promoted c : is_promoted c = true -> promote_row c = c.
Proof. destruct c. simpl. by intros ->. Qed.

Lemma candidates_promote_all_one utcnow st c :
  smart_wallet_candidates (promote_all_one utcnow st c).2
  = (fun r => if bool_decide (id r = id c) then promote_row r else r)
      <$> smart_wallet_candidates st.2.
Proof.
  destruct st as [k db]. unfold promote_all_one.
  destruct (get_wallet (wallet_address c) db); reflexivity.
Qed.

Lemma candidates_all_fold utcnow cs : forall st,
  smart_wallet_candidates (foldl (promote_all_one utcnow) st cs).2
  = marked (id <$> cs) <$> smart_wallet_candidates st.2.
Proof.
  induction cs as [|c cs IH]; intros st; simpl.
  - rewrite <- (list_fmap_id (smart_wallet_candidates st.2)) at 1.
    apply list_fmap_ext. intros _ r _. by rewrite DiscoverySpec.marked_nil.
  - rewrite IH, candidates_promote_all_one, <- list_fmap_compose.
    apply list_fmap_ext. intros _ r _. simpl. apply DiscoverySpec.marked_cons.
Qed.

Lemma wallets_promote_all_one utcnow st c :
  (wallet_address c ∈ TrackedWallet.address <$> tracked_wallets st.2
   /\ tracked_wallets (promote_all_one utcnow st c).2 = tracked_wallets st.2)
  \/ ((wallet_address c ∉ TrackedWallet.address <$> tracked_wallets st.2)
      /\ tracked_wallets (promote_all_one utcnow st c).2
         = (tracked_wallets st.2 ++ [new_wallet (utcnow st.1) 25 c])%list).
Proof.
  destruct st as [k db]. unfold promote_all_one. simpl.
  destruct (get_wallet (wallet_address c) db) as [w|] eqn:E.
  - left. split; [|done].
    destruct (decide (wallet_address c ∈ TrackedWallet.address <$> tracked_wallets db))
      as [H|H]; [exact H|].
    apply DiscoverySpec.get_wallet_None in H. congruence.
  - right. split; [|done]. by apply DiscoverySpec.get_wallet_None.
Qed.

Lemma wallets_all_fold utcnow cs : forall st,
  NoDup (TrackedWallet.address <$> tracked_wallets st.2) ->
  exists added,
    tracked_wallets (foldl (promote_all_one utcnow) st cs).2
    = (tracked_wallets st.2 ++ added)%list
    /\ NoDup (TrackedWallet.address
                <$> tracked_wallets (foldl (promote_all_one utcnow) st cs).2)
    /\ (forall c, c ∈ cs ->
          wallet_address c
          ∈ TrackedWallet.address
              <$> tracked_wallets (foldl (promote_all_one utcnow) st cs).2)
    /\ (forall w, w ∈ added ->
          exists c k, c ∈ cs /\ w = new_wallet (utcnow k) 25 c).
Proof.
  induction cs as [|c cs IH]; intros st Hnd; simpl.
  - exists []. rewrite app_nil_r. split; [done|]. split; [done|].
    split; intros ? H; by apply elem_of_nil in H.
  - destruct (wallets_promote_all_one utcnow st c) as [(Hin & Hw)|(Hout & Hw)].
    + destruct (IH (promote_all_one utcnow st c)) as (added & E & Hnd' & Hp & Ha).
      { by rewrite Hw. }
      exists added. rewrite Hw in E. split; [exact E|]. split; [exact Hnd'|].
      split.
      * intros c' [->|H]%elem_of_cons; [|by apply Hp].
        rewrite E, fmap_app. apply elem_of_app. by left.
      * intros w H. destruct (Ha w H) as (c' & k & ? & ?).
        exists c', k. split; [by right|done].
    + destruct (IH (promote_all_one utcnow st c)) as (added & E & Hnd' & Hp & Ha).
      { rewrite Hw, fmap_app. apply NoDup_app. split; [done|]. split.
        - intros a Ha [->|H]%elem_of_cons; [done|by apply elem_of_nil in H].
        - apply NoDup_singleton. }
      exists (new_wallet (utcnow st.1) 25 c :: added).
      rewrite Hw, <- app_assoc in E. split; [exact E|]. split; [exact Hnd'|].
      split.
      * intros c' [->|H]%elem_of_cons; [|by apply Hp].
        rewrite E, !fmap_app. apply elem_of_app. right. by left.
      * intros w [->|H]%elem_of_cons.
        -- exists c, st.1. split; [by left|done].
        -- destruct (Ha w H) as (c' & k & ? & ?).
           exists c', k. split; [by right|done].
Qed.

Lemma candidates_promote_all utcnow db :
  smart_wallet_candidates (promote_all_candidates utcnow db)
  = promote_row <$> smart_wallet_candidates db.
Proof.
  unfold promote_all_candidates. rewrite candidates_all_fold. simpl.
  apply list_fmap_ext. intros i c Hc. unfold marked.
  destruct (decide (id c ∈ id <$> filter (fun c => negb (is_promoted c))
                                         (smart_wallet_candidates db))) as [I|I].
  - by rewrite (bool_decide_eq_true_2 _ I).
  - rewrite (bool_decide_eq_false_2 _ I). symmetry. apply promote_row_promoted.
    destruct (is_promoted c) eqn:P; [done|]. exfalso. apply I.
    apply list_elem_of_fmap_2, list_elem_of_filter. split.
    + by rewrite P.
    + by apply list_elem_of_lookup_2 in Hc.
Qed.

(** X23: promotion of all candidates from the dashboard.  Afterwards
    every row of the candidates table has the promoted flag set to true,
    every row that was there is there with the same key, address, counts
    and first-seen time, and a second call changes nothing.  On a
    database that meets the constraints of its schema the constraints
    still hold, the wallets that were there are kept in place, every
    wallet added is an active discovery wallet of a candidate, and the
    address of every candidate that was unpromoted is tracked by exactly
    one wallet. *)
Theorem promote_all_effect utcnow db :
  let after := promote_all_candidates utcnow db in
  (forall r, r ∈ smart_wallet_candidates after -> is_promoted r = true)
  /\ (forall c, c ∈ smart_wallet_candidates db ->
        exists r, r ∈ smart_wallet_candidates after /\ promoted_row_of c r)
  /\ length (smart_wallet_candidates after) = length (smart_wallet_candidates db)
  /\ smart_wallet_candidates after = promote_row <$> smart_wallet_candidates db
  /\ (forall utcnow', promote_all_candidates utcnow' after = after)
  /\ (schema_ok db ->
      schema_ok after
      /\ (exists added,
            tracked_wallets after = (tracked_wallets db ++ added)%list
            /\ forall w, w ∈ added ->
                 exists c, c ∈ smart_wallet_candidates db
                           /\ is_promoted c = false
                           /\ from_discovery (wallet_address c) w)
      /\ (forall c, c ∈ smart_wallet_candidates db -> is_promoted c = false ->
            length (wallets_at (wallet_address c) after) = 1%nat)).
Proof.
  cbv zeta.
  split; [|split; [|split; [|split; [apply candidates_promote_all|split]]]].
  - intros r. rewrite candidates_promote_all.
    by intros (c & -> & _)%list_elem_of_fmap.
  - intros c Hc. exists (promote_row c). rewrite candidates_promote_all.
    split; [by apply list_elem_of_fmap_2|].
    apply DiscoverySpec.promoted_row_of_promote_row.
  - by rewrite candidates_promote_all, length_fmap.
  - intros utcnow'. unfold promote_all_candidates at 1.
    rewrite candidates_promote_all.
    rewrite DiscoverySpec.filter_fmap_none; [done|].
    intros c _. simpl. tauto.
  - intros [Hw Hp Hu].
    destruct (wallets_all_fold utcnow
                (filter (fun c => negb (is_promoted c)) (smart_wallet_candidates db))
                (O, db) Hw) as (added & E & Hnd & Hin & Ha).
    fold (promote_all_candidates utcnow db) in E, Hnd, Hin. simpl in E.
    split; [|split].
    + split; [exact Hnd| |]; rewrite candidates_promote_all, <- list_fmap_compose.
      * exact Hp.
      * exact Hu.
    + exists added. split; [exact E|]. intros w Hwa.
      destruct (Ha w Hwa) as (c & k & Hc%list_elem_of_filter & ->).
      exists c. destruct Hc as [Hc1 Hc2]. split; [done|]. split.
      * by destruct (is_promoted c).
      * done.
    + intros c Hc P.
      assert (Hc' : c ∈ filter (fun c => negb (is_promoted c))
                               (smart_wallet_candidates db)).
      { apply list_elem_of_filter. by rewrite P. }
      destruct (DiscoverySpec.wallets_at_single _ _ Hnd (Hin c Hc'))
        as (w & _ & _ & Hf).
      unfold wallets_at. by rewrite Hf.
Qed.

(** All of the sample candidates are promoted: Erin, below the
    threshold of the engine, gets her wallet, and every row ends with
    the flag set. *)
Lemma promote_all_effect_witness :
  length (wallets_at "ErinWallet"
            (promote_all_candidates Examples.clock Examples.db1)) = 1%nat
  /\ (exists r, r ∈ smart_wallet_candidates
                     (promote_all_candidates Examples.clock Examples.db1)
                /\ promoted_row_of Examples.cand_erin r).
Proof.
  split.
  - refine (proj2 (proj2
              (proj2 (proj2 (proj2 (proj2 (proj2
                 (promote_all_effect Examples.clock Examples.db1)))))
                 DiscoverySpec.schema_ok_db1))
              Examples.cand_erin _ eq_refl).
    simpl. right. right. left.
  - refine (proj1 (proj2 (promote_all_effect Examples.clock Examples.db1))
              Examples.cand_erin _).
    simpl. right. right. left.
Defined.

End PromotionSpec.

(** ** The candidates table: promotion of one, saving *)

Module CandidatesSpec.
Import Discovery Candidates SmartWalletCandidate.

Lemma find_candidate_None a (cs : list t) :
  find (fun c => bool_decide (wallet_address c = a)) cs = None
  <-> a ∉ wallet_address <$> cs.
Proof.
  induction cs as [|c cs IH]; simpl.
  - split; [intros _; apply not_elem_of_nil|done].
  - rewrite not_elem_of_cons. destruct (decide (wallet_address c = a)) as [E|N].
    + rewrite (bool_decide_eq_true_2 _ E). split; [done|]. intros [? _]. done.
    + rewrite (bool_decide_eq_false_2 _ N), IH. split; [|tauto].
      intros ?. split; [congruence|done].
Qed.

Lemma find_candidate_Some a (cs : list t) c :
  find (fun c => bool_decide (wallet_address c = a)) cs = Some c ->
  c ∈ cs /\ wallet_address c = a.
Proof.
  intros [Hin Hb]%find_some. split; [by apply list_elem_of_In|].
  by apply bool_decide_eq_true in Hb.
Qed.

Lemma nodup_fmap_inj {A B} (f : A -> B) (l : list A) x y :
  NoDup (f <$> l) -> x ∈ l -> y ∈ l -> f x = f y -> x = y.
Proof.
  induction l as [|z l IH]; [intros _ H; by apply elem_of_nil in H|].
  rewrite fmap_cons, NoDup_cons.
  intros [Hn Hd] [->|Hx]%elem_of_cons [->|Hy]%elem_of_cons E.
  - done.
  - exfalso. apply Hn. rewrite E. by apply list_elem_of_fmap_2.
  - exfalso. apply Hn. rewrite <- E. by apply list_elem_of_fmap_2.
  - by apply IH.
Qed.

(** Under the unique address, the lookup by address finds the row. *)
Lemma find_candidate_unique (cs : list t) c :
  NoDup (wallet_address <$> cs) -> c ∈ cs ->
  find (fun r => bool_decide (wallet_address r = wallet_address c)) cs = Some c.
Proof.
  intros Hu Hc.
  destruct (find (fun r => bool_decide (wallet_address r = wallet_address c)) cs)
    as [c'|] eqn:E.
  - apply find_candidate_Some in E as [Hc' E]. f_equal.
    by apply (nodup_fmap_inj wallet_address cs).
  - apply find_candidate_None in E. exfalso. apply E.
    by apply list_elem_of_fmap_2.
Qed.

Lemma mark_promoted_rows key db :
  smart_wallet_candidates (mark_promoted key db)
  = (fun r => if bool_decide (id r = key) then promote_row r else r)
      <$> smart_wallet_candidates db.
Proof. reflexivity. Qed.

(** X24: promotion of one candidate from the dashboard.  When no
    candidate has the address, or the candidate is already marked
    promoted, nothing changes: in particular a wallet deleted after its
    promotion is not created again.  For an unpromoted candidate, on a
    database that meets the constraints of its schema: its row is there
    with the promoted flag set to true and its other columns as they
    were, every row under its key has the flag set, every other
    candidate row is as it was, the constraints still hold, and its
    address is tracked by exactly one wallet, the one that was there or
    else a new active discovery wallet appended to the table. *)
Theorem promote_candidate_effect utcnow address db :
  ((forall c, c ∈ smart_wallet_candidates db -> wallet_address c = address ->
              is_promoted c = true) ->
   promote_candidate utcnow address db = db)
  /\ (schema_ok db ->
      forall c, c ∈ smart_wallet_candidates db -> wallet_address c = address ->
                is_promoted c = false ->
        let after := promote_candidate utcnow address db in
        schema_ok after
        /\ (exists r, r ∈ smart_wallet_candidates after /\ promoted_row_of c r)
        /\ (forall r, r ∈ smart_wallet_candidates after -> id r = id c ->
                       is_promoted r = true)
        /\ promote_row c ∈ smart_wallet_candidates after
        /\ (forall r, r ∈ smart_wallet_candidates db -> r <> c ->
                      r ∈ smart_wallet_candidates after)
        /\ exists w,
             wallets_at address after = [w]
             /\ ((address ∈ TrackedWallet.address <$> tracked_wallets db
                  /\ tracked_wallets after = tracked_wallets db)
                 \/ ((address ∉ TrackedWallet.address <$> tracked_wallets db)
                     /\ tracked_wallets after = (tracked_wallets db ++ [w])%list
                     /\ from_discovery address w))).
Proof.
  split.
  - intros Hprom. unfold promote_candidate.
    destruct (find _ (smart_wallet_candidates db)) as [c|] eqn:E; [|done].
    apply find_candidate_Some in E as [Hc E]. by rewrite (Hprom c Hc E).
  - intros [Hw Hp Hu] c Hc <- P. cbv zeta.
    assert (Hrows : smart_wallet_candidates
                      (promote_candidate utcnow (wallet_address c) db)
                    = (fun r => if bool_decide (id r = id c) then promote_row r else r)
                        <$> smart_wallet_candidates db).
    { unfold promote_candidate. rewrite (find_candidate_unique _ c Hu Hc), P.
      cbn [negb]. by destruct (get_wallet (wallet_address c) db). }
    assert (Hwal : tracked_wallets (promote_candidate utcnow (wallet_address c) db)
                   = match get_wallet (wallet_address c) db with
                     | Some _ => tracked_wallets db
                     | None => (tracked_wallets db ++ [new_wallet utcnow 25 c])%list
                     end).
    { unfold promote_candidate. rewrite (find_candidate_unique _ c Hu Hc), P.
      cbn [negb]. by destruct (get_wallet (wallet_address c) db). }
    assert (Hnd : NoDup (TrackedWallet.address
                           <$> tracked_wallets
                                 (promote_candidate utcnow (wallet_address c) db))).
    { rewrite Hwal. destruct (get_wallet (wallet_address c) db) eqn:G; [done|].
      apply DiscoverySpec.get_wallet_None in G.
      rewrite fmap_app. apply NoDup_app. split; [done|]. split.
      - intros a Ha [->|H]%elem_of_cons; [done|by apply elem_of_nil in H].
      - apply NoDup_singleton. }
    assert (Hrow : promote_row c
                   ∈ smart_wallet_candidates
                       (promote_candidate utcnow (wallet_address c) db)).
    { rewrite Hrows.
      apply (list_elem_of_fmap_2'
               (fun r => if bool_decide (id r = id c) then promote_row r else r) _ c);
        [done|].
      by rewrite bool_decide_eq_true_2. }
    split; [|split; [|split; [|split; [exact Hrow|split]]]].
    + split; [exact Hnd| |]; rewrite Hrows, <- list_fmap_compose.
      * erewrite list_fmap_ext; [exact Hp|].
        intros _ r _. simpl. by destruct (bool_decide (id r = id c)).
      * erewrite list_fmap_ext; [exact Hu|].
        intros _ r _. simpl. by destruct (bool_decide (id r = id c)).
    + exists (promote_row c). split; [exact Hrow|].
      apply DiscoverySpec.promoted_row_of_promote_row.
    + intros r. rewrite Hrows. intros (r0 & -> & _)%list_elem_of_fmap.
      destruct (decide (id r0 = id c)) as [E|N].
      * by rewrite (bool_decide_eq_true_2 _ E).
      * rewrite (bool_decide_eq_false_2 _ N). intros E. by destruct N.
    + intros r Hr Hne. rewrite Hrows.
      apply (list_elem_of_fmap_2'
               (fun r => if bool_decide (id r = id c) then promote_row r else r) _ r);
        [done|].
      rewrite bool_decide_eq_false_2; [done|].
      intros E. apply Hne. by apply (nodup_fmap_inj id (smart_wallet_candidates db)).
    + destruct (get_wallet (wallet_address c) db) as [w0|] eqn:G.
      * assert (Hin : wallet_address c
                      ∈ TrackedWallet.address <$> tracked_wallets db).
        { destruct (decide (wallet_address c
                            ∈ TrackedWallet.address <$> tracked_wallets db))
            as [H|H]; [exact H|].
          apply DiscoverySpec.get_wallet_None in H. congruence. }
        destruct (DiscoverySpec.wallets_at_single _ _ Hw Hin) as (w & _ & _ & Hf).
        exists w. unfold wallets_at. rewrite Hwal, Hf. split; [done|]. by left.
      * apply DiscoverySpec.get_wallet_None in G.
        exists (new_wallet utcnow 25 c). split.
        -- rewrite (DashboardSpec.wallets_at_app _ _ _ _ Hwal).
           pose proof (DiscoverySpec.wallets_at_nil _ db G) as Hn.
           unfold wallets_at in Hn. rewrite Hn.
           rewrite filter_cons_True; [done|].
           cbn [new_wallet TrackedWallet.address]. by rewrite bool_decide_eq_true_2.
        -- right. split; [exact G|]. split; [exact Hwal|done].
Qed.

(** Bob was promoted before and then deleted from the roster: the
    button does nothing for him.  Dave is promoted: every row under his
    key ends with the flag set. *)
Lemma promote_candidate_effect_witness :
  promote_candidate 5 "BobWallet" (Dashboard.delete_wallet "BobWallet" Examples.db1)
  = Dashboard.delete_wallet "BobWallet" Examples.db1
  /\ (forall r, r ∈ smart_wallet_candidates
                     (promote_candidate 5 "DaveWallet" Examples.db1) ->
                id r = 2 -> is_promoted r = true).
Proof.
  split.
  - apply (proj1 (promote_candidate_effect 5 "BobWallet"
                    (Dashboard.delete_wallet "BobWallet" Examples.db1))).
    intros c Hc E. simpl in Hc.
    repeat (apply elem_of_cons in Hc as [->|Hc]; [try discriminate E; reflexivity|]).
    by apply elem_of_nil in Hc.
  - refine (proj1 (proj2 (proj2
              (proj2 (promote_candidate_effect 5 "DaveWallet" Examples.db1)
                     DiscoverySpec.schema_ok_db1 Examples.cand_dave _ eq_refl eq_refl)))).
    simpl. right. left.
Defined.

(** *** Saving the candidates of a run *)

Lemma save_one_cases utcnow saved db f :
  (exists existing,
      existing ∈ smart_wallet_candidates db
      /\ wallet_address existing = found_wallet_address f
      /\ save_one utcnow (saved, db) f
         = (saved, update_counts (id existing) f db))
  \/ ((found_wallet_address f ∉ wallet_address <$> smart_wallet_candidates db)
      /\ save_one utcnow (saved, db) f
         = (S saved, insert_candidate (utcnow saved) f db)).
Proof.
  unfold save_one.
  destruct (find _ (smart_wallet_candidates db)) as [existing|] eqn:E.
  - left. exists existing. apply find_candidate_Some in E as [? ?]. done.
  - right. by apply find_candidate_None in E.
Qed.

Lemma update_counts_rows key f db :
  smart_wallet_candidates (update_counts key f db)
  = (fun c => if bool_decide (id c = key)
              then mk (id c) (wallet_address c) (found_token_count f)
                      (found_token_symbols f) (first_seen c) (is_promoted c)
              else c) <$> smart_wallet_candidates db.
Proof. reflexivity. Qed.

Lemma update_counts_ok key f db :
  candidates_ok db -> candidates_ok (update_counts key f db).
Proof.
  intros [Hp Hu Hs]. split; rewrite ?update_counts_rows.
  - rewrite <- list_fmap_compose. erewrite list_fmap_ext; [exact Hp|].
    intros _ r _. simpl. by destruct (bool_decide (id r = key)).
  - rewrite <- list_fmap_compose. erewrite list_fmap_ext; [exact Hu|].
    intros _ r _. simpl. by destruct (bool_decide (id r = key)).
  - intros c (r & -> & Hr)%list_elem_of_fmap.
    change (candidates_seq (update_counts key f db)) with (candidates_seq db).
    specialize (Hs r Hr). by destruct (bool_decide (id r = key)).
Qed.

Lemma insert_candidate_ok first_seen f db :
  candidates_ok db ->
  found_wallet_address f ∉ wallet_address <$> smart_wallet_candidates db ->
  candidates_ok (insert_candidate first_seen f db).
Proof.
  intros [Hp Hu Hs] Hfree. split; unfold insert_candidate;
    cbn [smart_wallet_candidates candidates_seq].
  - rewrite fmap_app. apply NoDup_app. split; [done|]. split; [|apply NoDup_singleton].
    intros k (r & -> & Hr)%list_elem_of_fmap Hk%list_elem_of_singleton.
    simpl in Hk. specialize (Hs r Hr). lia.
  - rewrite fmap_app. apply NoDup_app. split; [done|]. split; [|apply NoDup_singleton].
    intros a Ha Hk%list_elem_of_singleton. simpl in Hk. by subst a.
  - intros c [Hc|Hc%list_elem_of_singleton]%elem_of_app.
    + specialize (Hs c Hc). lia.
    + subst c. simpl. lia.
Qed.

(** One iteration of the loop, on a table that meets its constraints. *)
Lemma save_one_step utcnow st f :
  candidates_ok st.2 ->
  candidates_ok (save_one utcnow st f).2
  /\ (length (smart_wallet_candidates (save_one utcnow st f).2) + st.1
      = length (smart_wallet_candidates st.2) + (save_one utcnow st f).1)%nat
  /\ tracked_wallets (save_one utcnow st f).2 = tracked_wallets st.2
  /\ (exists c, c ∈ smart_wallet_candidates (save_one utcnow st f).2 /\ carries f c)
  /\ (forall c, c ∈ smart_wallet_candidates st.2 ->
        wallet_address c <> found_wallet_address f ->
        c ∈ smart_wallet_candidates (save_one utcnow st f).2)
  /\ (forall c, c ∈ smart_wallet_candidates st.2 ->
        exists c', c' ∈ smart_wallet_candidates (save_one utcnow st f).2
                   /\ same_row c c').
Proof.
  destruct st as [saved db]. cbn [fst snd]. intros Hok.
  destruct (save_one_cases utcnow saved db f)
    as [(existing & Hex & Haddr & ->)|(Hfree & ->)]; cbn [fst snd].
  - split; [by apply update_counts_ok|]. rewrite update_counts_rows.
    split; [by rewrite length_fmap|]. split; [done|]. split; [|split].
    + exists (mk (id existing) (wallet_address existing) (found_token_count f)
                 (found_token_symbols f) (first_seen existing)
                 (is_promoted existing)).
      split; [|by split].
      eapply list_elem_of_fmap_2'; [exact Hex|].
      by rewrite bool_decide_eq_true_2.
    + intros c Hc Hne. eapply list_elem_of_fmap_2'; [exact Hc|].
      rewrite bool_decide_eq_false_2; [done|].
      intros E. apply Hne. rewrite <- Haddr. f_equal.
      by apply (nodup_fmap_inj id (smart_wallet_candidates db)); [apply Hok|..].
    + intros c Hc. eexists. split; [by apply list_elem_of_fmap_2|].
      by destruct (bool_decide (id c = id existing)).
  - split; [by apply insert_candidate_ok|].
    unfold insert_candidate; cbn [smart_wallet_candidates tracked_wallets].
    split; [rewrite length_app; simpl; lia|]. split; [done|].
    split; [|split].
    + eexists. split; [apply elem_of_app; right; by left|]. by split.
    + intros c Hc _. apply elem_of_app. by left.
    + intros c Hc. exists c. split; [apply elem_of_app; by left|done].
Qed.

Lemma same_row_trans c1 c2 c3 : same_row c1 c2 -> same_row c2 c3 -> same_row c1 c3.
Proof. unfold same_row. intros (?&?&?&?) (?&?&?&?). repeat split; congruence. Qed.

Lemma save_fold utcnow fs : forall st,
  candidates_ok st.2 ->
  candidates_ok (foldl (save_one utcnow) st fs).2
  /\ (length (smart_wallet_candidates (foldl (save_one utcnow) st fs).2) + st.1
      = length (smart_wallet_candidates st.2) + (foldl (save_one utcnow) st fs).1)%nat
  /\ tracked_wallets (foldl (save_one utcnow) st fs).2 = tracked_wallets st.2
  /\ (forall c, c ∈ smart_wallet_candidates st.2 ->
        wallet_address c ∉ found_wallet_address <$> fs ->
        c ∈ smart_wallet_candidates (foldl (save_one utcnow) st fs).2)
  /\ (forall c, c ∈ smart_wallet_candidates st.2 ->
        exists c', c' ∈ smart_wallet_candidates (foldl (save_one utcnow) st fs).2
                   /\ same_row c c').
Proof.
  induction fs as [|f fs IH]; intros st Hok; simpl.
  - split; [done|]. split; [done|]. split; [done|]. split; [done|].
    intros c Hc. by exists c.
  - destruct (save_one_step utcnow st f Hok) as (Hok1 & Hlen1 & Hw1 & _ & Hk1 & Hs1).
    destruct (IH _ Hok1) as (Hok2 & Hlen2 & Hw2 & Hk2 & Hs2).
    split; [done|]. split; [lia|]. split; [congruence|]. split.
    + intros c Hc Hout. apply not_elem_of_cons in Hout as [Hne Hout].
      apply Hk2; [|done]. by apply Hk1.
    + intros c Hc. destruct (Hs1 c Hc) as (c1 & Hc1 & S1).
      destruct (Hs2 c1 Hc1) as (c2 & Hc2 & S2).
      exists c2. split; [done|]. by apply (same_row_trans c c1).
Qed.

Lemma save_fold_carries utcnow fs : forall st,
  candidates_ok st.2 ->
  NoDup (found_wallet_address <$> fs) ->
  forall f, f ∈ fs ->
    exists c, c ∈ smart_wallet_candidates (foldl (save_one utcnow) st fs).2
              /\ carries f c.
Proof.
  induction fs as [|f0 fs IH]; intros st Hok Hnd f Hf;
    [by apply elem_of_nil in Hf|].
  rewrite fmap_cons in Hnd. apply NoDup_cons in Hnd as [Hn Hd]. simpl.
  destruct (save_one_step utcnow st f0 Hok) as (Hok1 & _ & _ & (c & Hc & Hcar) & _).
  apply elem_of_cons in Hf as [->|Hf].
  - exists c. split; [|done].
    apply (save_fold utcnow fs _ Hok1); [done|].
    destruct Hcar as [-> _]. done.
  - by apply IH.
Qed.

(** X25: saving the candidates of a run.  On a candidates table that
    meets its constraints (primary key, unique wallet address, ids below
    the sequence), the constraints still hold afterwards; the table grows
    by exactly the number returned; the wallets table is untouched; every
    row that was there keeps its id, its address, its first-seen time and
    its promoted flag; and, when the addresses found are distinct, every
    found wallet has a row that carries its token count and symbols. *)
Theorem save_candidates_effect utcnow found db :
  candidates_ok db ->
  let r := save_smart_wallet_candidates utcnow found db in
  candidates_ok r.2
  /\ length (smart_wallet_candidates r.2)
     = (length (smart_wallet_candidates db) + r.1)%nat
  /\ tracked_wallets r.2 = tracked_wallets db
  /\ (forall c, c ∈ smart_wallet_candidates db ->
        exists c', c' ∈ smart_wallet_candidates r.2 /\ same_row c c')
  /\ (NoDup (found_wallet_address <$> found) ->
      forall f, f ∈ found ->
        exists c, c ∈ smart_wallet_candidates r.2 /\ carries f c).
Proof.
  intros Hok. cbv zeta. unfold save_smart_wallet_candidates.
  destruct (save_fold utcnow found (O, db) Hok) as (Hok' & Hlen & Hw & _ & Hs).
  cbn [fst snd] in Hlen, Hw, Hs.
  split; [done|]. split; [lia|]. split; [done|]. split; [done|].
  intros Hnd. by apply (save_fold_carries utcnow found (O, db)).
Qed.

Lemma candidates_ok_db1 : candidates_ok Examples.db1.
Proof.
  split.
  - apply (bool_decide_unpack _). vm_compute. reflexivity.
  - apply (bool_decide_unpack _). vm_compute. reflexivity.
  - intros c Hc. simpl in Hc.
    repeat (apply elem_of_cons in Hc as [->|Hc]; [reflexivity|]).
    by apply elem_of_nil in Hc.
Qed.

(** A run finds Erin on a second token and Frank for the first time:
    one row is added to the four of the sample. *)
Lemma save_candidates_effect_witness :
  length (smart_wallet_candidates
            (save_smart_wallet_candidates Examples.clock
               [mkFound "ErinWallet" 2 "BBB, CCC"; mkFound "FrankWallet" 2 "AAA, BBB"]
               Examples.db1).2)
  = (4 + (save_smart_wallet_candidates Examples.clock
            [mkFound "ErinWallet" 2 "BBB, CCC"; mkFound "FrankWallet" 2 "AAA, BBB"]
            Examples.db1).1)%nat.
Proof.
  exact (proj1 (proj2 (save_candidates_effect Examples.clock
                         [mkFound "ErinWallet" 2 "BBB, CCC";
                          mkFound "FrankWallet" 2 "AAA, BBB"]
                         Examples.db1 candidates_ok_db1))).
Defined.

End CandidatesSpec.

(** ** The token search *)

Module SearchSpec.
Import Search.

Lemma scan_page_inv ps : forall st,
  search_inv st ->
  search_inv (scan_page ps st)
  /\ (forall p, p ∈ st.2 -> p ∈ (scan_page ps st).2)
  /\ (forall p, p ∈ (scan_page ps st).2 -> p ∈ st.2 \/ p ∈ ps)
  /\ ((forall p, p ∈ ps -> chainId p = Some "solana" -> base_address p <> None) ->
      forall p, p ∈ ps -> wanted p ->
        token_address p ∈ token_address <$> (scan_page ps st).2).
Proof.
  induction ps as [|p ps IH]; intros st Hinv.
  - simpl. split; [done|]. split; [done|]. split; [by left|].
    intros _ p Hp. by apply elem_of_nil in Hp.
  - assert (Hskip : scan_page (p :: ps) st = scan_page ps st ->
                    (wanted p -> base_address p <> None -> token_address p ∈ st.1) ->
            search_inv (scan_page (p :: ps) st)
            /\ (forall q, q ∈ st.2 -> q ∈ (scan_page (p :: ps) st).2)
            /\ (forall q, q ∈ (scan_page (p :: ps) st).2 -> q ∈ st.2 \/ q ∈ p :: ps)
            /\ ((forall q, q ∈ p :: ps -> chainId q = Some "solana" ->
                           base_address q <> None) ->
                forall q, q ∈ p :: ps -> wanted q ->
                  token_address q ∈ token_address <$> (scan_page (p :: ps) st).2)).
    { intros -> Hseen. destruct (IH st Hinv) as (I1 & I2 & I3 & I4).
      split; [done|]. split; [done|]. split.
      - intros q Hq. destruct (I3 q Hq); [by left|right; by right].
      - intros Hok q [->|Hq]%elem_of_cons Hw.
        + assert (Hin : token_address p ∈ st.1).
          { apply Hseen; [done|]. apply Hok; [by left|apply Hw]. }
          apply (inv_seen st Hinv) in Hin.
          apply list_elem_of_fmap in Hin as (r & E & Hr). rewrite E.
          apply list_elem_of_fmap_2. by apply I2.
        + apply I4; [|done|done]. intros r Hr. apply Hok. by right. }
    simpl. simpl in Hskip.
    destruct (decide (chainId p = Some "solana")) as [Hc|Hc].
    2:{ rewrite (bool_decide_eq_false_2 _ Hc) in *.
        apply Hskip; [done|]. intros [? _]. done. }
    rewrite (bool_decide_eq_true_2 _ Hc) in *.
    destruct (base_address p) as [addr|] eqn:Hb.
    2:{ split; [done|]. split; [done|]. split; [by left|].
        intros Hok. exfalso. apply (Hok p); [by left|done|done]. }
    assert (Ht : token_address p = addr) by (unfold token_address; by rewrite Hb).
    destruct (decide (addr <> EmptyString)) as [Hne|Hne].
    2:{ rewrite (bool_decide_eq_false_2 _ Hne) in *. cbn [andb] in *.
        apply Hskip; [done|]. intros [_ Hw]. rewrite Ht in Hw. done. }
    rewrite (bool_decide_eq_true_2 _ Hne) in *. cbn [andb] in *.
    destruct (decide (addr ∉ st.1)) as [Hfresh|Hold].
    2:{ rewrite (bool_decide_eq_false_2 _ Hold) in *.
        apply Hskip; [done|]. intros _ _. rewrite Ht.
        by apply dec_stable in Hold. }
    rewrite (bool_decide_eq_true_2 _ Hfresh).
    assert (Hinv' : search_inv ({[addr]} ∪ st.1, (st.2 ++ [p])%list)).
    { split; cbn [fst snd].
      - intros a. rewrite elem_of_union, elem_of_singleton, fmap_app, elem_of_app.
        rewrite (inv_seen st Hinv a). simpl. rewrite list_elem_of_singleton, Ht.
        tauto.
      - rewrite fmap_app. apply NoDup_app. split; [apply Hinv|].
        split; [|apply NoDup_singleton].
        intros a Ha Ha'%list_elem_of_singleton. simpl in Ha'. subst a.
        apply Hfresh. apply (inv_seen st Hinv). by rewrite <- Ht.
      - intros q [Hq|Hq%list_elem_of_singleton]%elem_of_app.
        + by apply Hinv.
        + subst q. split; [split; [done|by rewrite Ht]|by rewrite Hb]. }
    destruct (IH _ Hinv') as (I1 & I2 & I3 & I4). cbn [fst snd] in I2, I3.
    split; [done|]. split; [|split].
    + intros q Hq. apply I2, elem_of_app. by left.
    + intros q Hq. destruct (I3 q Hq) as [[H|H%list_elem_of_singleton]%elem_of_app|H].
      * by left.
      * subst q. right. by left.
      * right. by right.
    + intros Hok q [->|Hq]%elem_of_cons Hw.
      * apply list_elem_of_fmap_2, I2, elem_of_app. right. by left.
      * apply I4; [|done|done]. intros r Hr. apply Hok. by right.
Qed.

Lemma search_fold_inv replies : forall st,
  search_inv st ->
  search_inv (foldl search_one st replies)
  /\ (forall p, p ∈ st.2 -> p ∈ (foldl search_one st replies).2)
  /\ (forall p, p ∈ (foldl search_one st replies).2 ->
        p ∈ st.2 \/ exists ps, Some ps ∈ replies /\ p ∈ ps)
  /\ ((forall ps p, Some ps ∈ replies -> p ∈ ps -> chainId p = Some "solana" ->
                    base_address p <> None) ->
      forall ps p, Some ps ∈ replies -> p ∈ ps -> wanted p ->
        token_address p ∈ token_address <$> (foldl search_one st replies).2).
Proof.
  induction replies as [|reply replies IH]; intros st Hinv.
  - simpl. split; [done|]. split; [done|]. split; [by left|].
    intros _ ps p H. by apply elem_of_nil in H.
  - simpl.
    assert (Hstep : search_inv (search_one st reply)
              /\ (forall p, p ∈ st.2 -> p ∈ (search_one st reply).2)
              /\ (forall p, p ∈ (search_one st reply).2 ->
                    p ∈ st.2 \/ exists ps, reply = Some ps /\ p ∈ ps)
              /\ (forall ps, reply = Some ps ->
                    (forall p, p ∈ ps -> chainId p = Some "solana" ->
                               base_address p <> None) ->
                    forall p, p ∈ ps -> wanted p ->
                      token_address p ∈ token_address <$> (search_one st reply).2)).
    { destruct reply as [ps|]; simpl.
      - destruct (scan_page_inv ps st Hinv) as (I1 & I2 & I3 & I4).
        split; [done|]. split; [done|]. split.
        + intros p Hp. destruct (I3 p Hp); [by left|right; by exists ps].
        + intros ps' [= <-]. exact I4.
      - split; [done|]. split; [done|]. split; [by left|]. by intros ps [=]. }
    destruct Hstep as (S1 & S2 & S3 & S4).
    destruct (IH _ S1) as (I1 & I2 & I3 & I4).
    split; [done|]. split; [by auto|]. split.
    + intros p Hp. destruct (I3 p Hp) as [H|(ps & Hps & H)].
      * destruct (S3 p H) as [?|(ps & Er & ?)]; [by left|].
        right. exists ps. split; [rewrite Er; by left|done].
      * right. exists ps. split; [by right|done].
    + intros Hok ps p [<-|Hps]%elem_of_cons Hp Hw.
      * assert (Hin : token_address p ∈ token_address <$> (search_one st (Some ps)).2).
        { apply (S4 ps eq_refl); [|done|done].
          intros q Hq. apply (Hok ps); [by left|done]. }
        apply list_elem_of_fmap in Hin as (r & E & Hr). rewrite E.
        by apply list_elem_of_fmap_2, I2.
      * apply (I4 (fun ps' q H => Hok ps' q (proj2 (elem_of_cons _ _ _) (or_intror H)))
                  ps); done.
Qed.

Lemma search_inv_start : search_inv (∅, []).
Proof.
  split; cbn [fst snd].
  - intros a. rewrite elem_of_empty. split; [done|]. intros H. by apply elem_of_nil in H.
  - apply NoDup_nil_2.
  - intros p H. by apply elem_of_nil in H.
Qed.

(** X26: the token search returns unique token pairs.  Every result is
    a pair of one of the replies, on Solana, with a non-empty token
    address, and no two results have the same token address.  When no
    Solana pair of any reply has a malformed base token, the search is
    complete: the token address of every Solana pair with a non-empty
    address, in any reply, is the address of a result. *)
Theorem search_unique_tokens replies :
  NoDup (token_address <$> _search_solana_tokens replies)
  /\ (forall p, p ∈ _search_solana_tokens replies ->
        wanted p /\ exists ps, Some ps ∈ replies /\ p ∈ ps)
  /\ ((forall ps p, Some ps ∈ replies -> p ∈ ps -> chainId p = Some "solana" ->
                    base_address p <> None) ->
      forall ps p, Some ps ∈ replies -> p ∈ ps -> wanted p ->
        token_address p ∈ token_address <$> _search_solana_tokens replies).
Proof.
  unfold _search_solana_tokens.
  destruct (search_fold_inv replies (∅, []) search_inv_start) as (I1 & _ & I3 & I4).
  split; [apply I1|]. split; [|exact I4].
  intros p Hp. split; [by apply I1|].
  destruct (I3 p Hp) as [H|H]; [by apply elem_of_nil in H|done].
Qed.

(** Two replies that overlap, and a failed query between them. *)
Lemma search_unique_tokens_witness :
  "MintB" ∈ token_address
            <$> _search_solana_tokens
                  [Some [mkSearchPair (Some "solana") (Base_object (Some "MintA")) None;
                         mkSearchPair (Some "ethereum") (Base_object (Some "0xabc")) None];
                   None;
                   Some [mkSearchPair (Some "solana") (Base_object (Some "MintA")) (Some "P2");
                         mkSearchPair (Some "solana") (Base_object (Some "MintB")) None]].
Proof.
  refine (proj2 (proj2 (search_unique_tokens _)) _
            [mkSearchPair (Some "solana") (Base_object (Some "MintA")) (Some "P2");
             mkSearchPair (Some "solana") (Base_object (Some "MintB")) None]
            (mkSearchPair (Some "solana") (Base_object (Some "MintB")) None) _ _ _).
  - intros ps p Hps Hp _.
    repeat (apply elem_of_cons in Hps as [Hps|Hps];
            [try discriminate Hps; injection Hps as ->;
             repeat (apply elem_of_cons in Hp as [->|Hp]; [discriminate|]);
             by apply elem_of_nil in Hp|]).
    by apply elem_of_nil in Hps.
  - right. right. left.
  - right. left.
  - split; [reflexivity|discriminate].
Defined.

End SearchSpec.

(** ** The early buyers of a token *)

Module EarlyBuyersSpec.
Import Analyzer EarlyBuyers.

Lemma insert_by_key_elem x l y : y ∈ insert_by_key x l <-> y = x \/ y ∈ l.
Proof.
  induction l as [|z l IH]; simpl.
  - rewrite list_elem_of_singleton. split; [by left|]. intros [?|H]; [done|].
    by apply elem_of_nil in H.
  - destruct (sort_key x <=? sort_key z).
    + by rewrite elem_of_cons.
    + rewrite !elem_of_cons, IH. tauto.
Qed.

Lemma sort_elem txs t : t ∈ sort_oldest_first txs <-> t ∈ txs.
Proof.
  induction txs as [|x txs IH]; [done|].
  unfold sort_oldest_first. simpl. rewrite insert_by_key_elem, elem_of_cons.
  by rewrite <- IH.
Qed.

Lemma insert_by_key_sorted x l :
  StronglySorted key_le l -> StronglySorted key_le (insert_by_key x l).
Proof.
  induction l as [|z l IH]; intros Hs; simpl.
  - repeat constructor.
  - apply StronglySorted_inv in Hs as [Hs Hz].
    destruct (Z.leb_spec (sort_key x) (sort_key z)) as [Hle|Hlt].
    + constructor; [by constructor|]. constructor; [exact Hle|].
      eapply Forall_impl; [exact Hz|]. unfold key_le. intros; lia.
    + constructor; [by apply IH|].
      apply Forall_forall. intros y [->|Hy]%insert_by_key_elem.
      * unfold key_le. lia.
      * by apply (proj1 (Forall_forall _ _) Hz).
Qed.

Lemma sort_sorted txs : StronglySorted key_le (sort_oldest_first txs).
Proof.
  induction txs as [|x txs IH]; [constructor|].
  by apply insert_by_key_sorted.
Qed.

(** An iteration of the loop: the transaction is passed over, or the
    conversion of its timestamp raises, or an entry is made and the loop
    ends at the limit or goes on. *)
Lemma collect_cons limit t l buyers :
  (collect limit (t :: l) buyers = collect limit l buyers
   /\ forall w, bought_by w t -> w <> EmptyString ->
                w ∈ wallet_address <$> buyers)
  \/ (collect limit (t :: l) buyers = buyers /\ entry_time t = None)
  \/ exists b,
       bought_by (wallet_address b) t /\ made t b
       /\ wallet_address b <> EmptyString
       /\ (wallet_address b ∉ wallet_address <$> buyers)
       /\ ((collect limit (t :: l) buyers = (buyers ++ [b])%list
            /\ limit <= Z.of_nat (length buyers) + 1)
           \/ (collect limit (t :: l) buyers = collect limit l (buyers ++ [b])
               /\ Z.of_nat (length buyers) + 1 < limit)).
Proof.
  simpl. unfold bought_by.
  destruct (feePayer (body t)) as [fee_payer|] eqn:Ef;
    [|left; split; [done|]; by intros w [[=] _]].
  destruct (decide (fee_payer = EmptyString)) as [E0|N0].
  { rewrite (bool_decide_eq_true_2 _ E0). left. split; [done|].
    intros w [[= <-] _] ?. done. }
  rewrite (bool_decide_eq_false_2 _ N0).
  destruct (buys t) eqn:Eb; cbn [negb];
    [|left; split; [done|]; by intros w [_ [=]]].
  destruct (decide (fee_payer ∈ wallet_address <$> buyers)) as [Hin|Hout].
  { rewrite (bool_decide_eq_true_2 _ Hin). left. split; [done|].
    by intros w [[= <-] _] _. }
  rewrite (bool_decide_eq_false_2 _ Hout).
  destruct (entry_time t) as [entry|] eqn:Ee; [|right; left; done].
  right. right.
  exists (mkBuyer fee_payer entry (default EmptyString (signature t))).
  cbn [wallet_address]. split; [done|]. split; [by repeat split|].
  split; [done|]. split; [done|].
  rewrite length_app. cbn [length].
  destruct (Z.leb_spec limit (Z.of_nat (length buyers + 1))) as [H|H];
    [left|right]; (split; [done|lia]).
Qed.

Lemma collect_extends limit l : forall buyers,
  exists more, collect limit l buyers = (buyers ++ more)%list.
Proof.
  induction l as [|t l IH]; intros buyers; [exists []; by rewrite app_nil_r|].
  destruct (collect_cons limit t l buyers)
    as [[-> _]|[[-> _]|(b & _ & _ & _ & _ & [[-> _]|[-> _]])]].
  - apply IH.
  - exists []. by rewrite app_nil_r.
  - by exists [b].
  - destruct (IH (buyers ++ [b])%list) as [more ->].
    exists (b :: more). by rewrite <- app_assoc.
Qed.

Lemma collect_keeps limit l buyers w :
  w ∈ wallet_address <$> buyers ->
  w ∈ wallet_address <$> collect limit l buyers.
Proof.
  intros H. destruct (collect_extends limit l buyers) as [more ->].
  rewrite fmap_app. apply elem_of_app. by left.
Qed.

Lemma collect_NoDup limit l : forall buyers,
  NoDup (wallet_address <$> buyers) ->
  NoDup (wallet_address <$> collect limit l buyers).
Proof.
  induction l as [|t l IH]; intros buyers Hnd; [done|].
  assert (Hnd' : forall b, wallet_address b ∉ wallet_address <$> buyers ->
                           NoDup (wallet_address <$> (buyers ++ [b])%list)).
  { intros b Hout. rewrite fmap_app. apply NoDup_app. split; [done|].
    split; [|apply NoDup_singleton].
    intros a Ha Ha'%list_elem_of_singleton. simpl in Ha'. by subst a. }
  destruct (collect_cons limit t l buyers)
    as [[-> _]|[[-> _]|(b & _ & _ & _ & Hout & [[-> _]|[-> _]])]]; auto.
Qed.

Lemma collect_length limit l : forall buyers,
  Z.of_nat (length buyers) < limit \/ buyers = [] ->
  Z.of_nat (length (collect limit l buyers)) <= Z.max limit 1.
Proof.
  induction l as [|t l IH]; intros buyers Hlen.
  - simpl. destruct Hlen as [?| ->]; simpl; lia.
  - destruct (collect_cons limit t l buyers)
      as [[-> _]|[[-> _]|(b & _ & _ & _ & _ & [[-> ?]|[-> ?]])]].
    + by apply IH.
    + destruct Hlen as [?| ->]; simpl; lia.
    + rewrite length_app. simpl. destruct Hlen as [?| ->]; simpl; lia.
    + apply IH. left. rewrite length_app. simpl. lia.
Qed.

(** Where an entry of the result comes from: the first buy of its
    wallet. *)
Lemma collect_source limit l : forall buyers b,
  b ∈ collect limit l buyers ->
  b ∈ buyers
  \/ (wallet_address b <> EmptyString
      /\ (wallet_address b ∉ wallet_address <$> buyers)
      /\ exists l1 t l2,
           l = (l1 ++ t :: l2)%list
           /\ bought_by (wallet_address b) t /\ made t b
           /\ forall t', t' ∈ l1 -> ~ bought_by (wallet_address b) t').
Proof.
  induction l as [|t l IH]; intros buyers b Hb; [by left|].
  destruct (collect_cons limit t l buyers)
    as [[E Hskip]|[[E _]|(b0 & Hbuy & Hmade & Hne & Hout & [[E _]|[E _]])]];
    rewrite E in Hb.
  - destruct (IH buyers b Hb) as [?|(Hn & Ho & l1 & t1 & l2 & -> & H1 & H2 & H3)];
      [by left|].
    right. split; [done|]. split; [done|].
    exists (t :: l1), t1, l2. split; [done|]. split; [done|]. split; [done|].
    intros t' [->|Ht']%elem_of_cons; [|by apply H3].
    intros Hbought. apply Ho. by apply Hskip.
  - by left.
  - apply elem_of_app in Hb as [?|Hb%list_elem_of_singleton]; [by left|].
    subst b0. right. split; [done|]. split; [done|].
    exists [], t, l. split; [done|]. split; [done|]. split; [done|].
    intros t' Ht'. by apply elem_of_nil in Ht'.
  - destruct (IH _ b Hb)
      as [[?|Hb'%list_elem_of_singleton]%elem_of_app
         |(Hn & Ho & l1 & t1 & l2 & -> & H1 & H2 & H3)].
    + by left.
    + subst b0. right. split; [done|]. split; [done|].
      exists [], t, l. split; [done|]. split; [done|]. split; [done|].
      intros t' Ht'. by apply elem_of_nil in Ht'.
    + right. rewrite fmap_app, not_elem_of_app in Ho. destruct Ho as [Ho Ho'].
      split; [done|]. split; [done|].
      exists (t :: l1), t1, l2. split; [done|]. split; [done|]. split; [done|].
      intros t' [->|Ht']%elem_of_cons; [|by apply H3].
      intros [Hf _]. destruct Hbuy as [Hf0 _]. apply Ho'.
      simpl. apply list_elem_of_singleton. congruence.
Qed.

Lemma entry_key_made t b :
  made t b -> entry_key b = sort_key t * second_us.
Proof.
  intros (_ & He & _). unfold entry_key, sort_key. unfold entry_time in He.
  destruct (tx_timestamp (body t)) as [ts|]; [|by injection He as <-].
  destruct (ts =? 0) eqn:E0.
  { apply Z.eqb_eq in E0. subst ts. by injection He as <-. }
  unfold fromtimestamp in He.
  destruct ((MIN_TIMESTAMP <=? ts) && (ts <=? MAX_TIMESTAMP)); [|done].
  simpl in He. by injection He as <-.
Qed.

Lemma collect_sorted limit l : forall buyers,
  StronglySorted key_le l ->
  StronglySorted entry_le buyers ->
  (forall b t, b ∈ buyers -> t ∈ l -> entry_key b <= sort_key t * second_us) ->
  StronglySorted entry_le (collect limit l buyers).
Proof.
  induction l as [|t l IH]; intros buyers Hl Hb Hbl; [done|].
  apply StronglySorted_inv in Hl as [Hl Ht].
  assert (Hnext : forall b, made t b ->
            StronglySorted entry_le (buyers ++ [b])
            /\ forall b' t', b' ∈ (buyers ++ [b])%list -> t' ∈ l ->
                 entry_key b' <= sort_key t' * second_us).
  { intros b Hm. pose proof (entry_key_made t b Hm) as Ek. split.
    - apply StronglySorted_app_2; [|done|repeat constructor].
      intros x1 x2 H1 ->%list_elem_of_singleton. unfold entry_le. rewrite Ek.
      apply Hbl; [done|by left].
    - intros b' t' [H|Eb%list_elem_of_singleton]%elem_of_app Ht'.
      + apply Hbl; [done|by right].
      + subst b'. rewrite Ek. pose proof (proj1 (Forall_forall _ _) Ht t' Ht') as Hk.
        unfold key_le in Hk. unfold second_us. lia. }
  destruct (collect_cons limit t l buyers)
    as [[-> _]|[[-> _]|(b & _ & Hm & _ & _ & [[-> _]|[-> _]])]].
  - apply IH; [done|done|]. intros b t' ? ?. apply Hbl; [done|by right].
  - done.
  - by apply Hnext.
  - destruct (Hnext b Hm). by apply IH.
Qed.

Lemma entry_time_ok t : StoreInv.timestamp_ok (body t) -> entry_time t <> None.
Proof.
  unfold StoreInv.timestamp_ok, entry_time. intros Hok.
  destruct (tx_timestamp (body t)) as [ts|]; [|done].
  destruct (ts =? 0); [done|]. specialize (Hok ts eq_refl).
  unfold fromtimestamp.
  destruct (Z.leb_spec MIN_TIMESTAMP ts); [|lia].
  destruct (Z.leb_spec ts MAX_TIMESTAMP); [|lia]. done.
Qed.

Lemma collect_complete limit l : forall buyers,
  (forall t, t ∈ l -> StoreInv.timestamp_ok (body t)) ->
  Z.of_nat (length (collect limit l buyers)) < limit ->
  forall t w, t ∈ l -> bought_by w t -> w <> EmptyString ->
    w ∈ wallet_address <$> collect limit l buyers.
Proof.
  induction l as [|t0 l IH]; intros buyers Hok Hlen t w Ht Hw Hne;
    [by apply elem_of_nil in Ht|].
  assert (Hok' : forall t, t ∈ l -> StoreInv.timestamp_ok (body t)).
  { intros t' Ht'. apply Hok. by right. }
  destruct (collect_cons limit t0 l buyers)
    as [[E Hskip]|[[E He]|(b & Hbuy & Hm & _ & _ & [[E Hl]|[E Hl]])]];
    rewrite E in Hlen |- *.
  - apply elem_of_cons in Ht as [->|Ht]; [|by apply (IH buyers Hok' Hlen t)].
    apply collect_keeps. by apply Hskip.
  - exfalso. revert He. apply entry_time_ok, Hok. by left.
  - rewrite length_app in Hlen. simpl in Hlen. lia.
  - apply elem_of_cons in Ht as [->|Ht]; [|by apply (IH _ Hok' Hlen t)].
    apply collect_keeps. rewrite fmap_app. apply elem_of_app. right.
    apply list_elem_of_singleton. simpl.
    destruct Hw as [Hw _], Hbuy as [Hb _]. congruence.
Qed.

(** X27: the early buyers of a token.  The wallets of the result are
    distinct and non-empty; the result has at most [limit] entries, and
    one when the limit is below one, since the limit is tested after an
    entry is made; the entries are in the order of their entry times;
    and every entry was made from a buy of the reply paid by its wallet
    that is the earliest such buy: no buy of that wallet in the reply
    has a smaller timestamp.  A reply that is not a list, or a request
    that fails, gives no buyers. *)
Theorem early_buyers_shape reply limit :
  NoDup (wallet_address <$> extract_early_buyers reply limit)
  /\ Z.of_nat (length (extract_early_buyers reply limit)) <= Z.max limit 1
  /\ StronglySorted entry_le (extract_early_buyers reply limit)
  /\ (forall b, b ∈ extract_early_buyers reply limit ->
        wallet_address b <> EmptyString
        /\ exists txs t,
             reply = Reply_list txs /\ t ∈ txs
             /\ bought_by (wallet_address b) t /\ made t b
             /\ forall t', t' ∈ txs -> bought_by (wallet_address b) t' ->
                           sort_key t <= sort_key t')
  /\ ((reply = Reply_other \/ reply = Reply_failed) ->
      extract_early_buyers reply limit = []).
Proof.
  destruct reply as [txs| |]; simpl;
    try (split; [apply NoDup_nil_2|]; split; [lia|]; split; [constructor|];
         split; [intros b Hb; by apply elem_of_nil in Hb|done]).
  split; [apply collect_NoDup, NoDup_nil_2|].
  split; [apply collect_length; by right|].
  split.
  { apply collect_sorted; [apply sort_sorted|constructor|].
    intros b t Hb. by apply elem_of_nil in Hb. }
  split; [|by intros [[=]|[=]]].
  intros b Hb.
  destruct (collect_source limit _ [] b Hb)
    as [H|(Hne & _ & l1 & t & l2 & E & Hbuy & Hm & Hfirst)];
    [by apply elem_of_nil in H|].
  split; [done|]. exists txs, t. split; [done|].
  split; [apply sort_elem; rewrite E; apply elem_of_app; right; by left|].
  split; [done|]. split; [done|].
  intros t' Ht'%sort_elem Hbuy'. rewrite E in Ht'.
  pose proof (sort_sorted txs) as Hs. rewrite E in Hs.
  apply StronglySorted_app_1_r in Hs.
  apply StronglySorted_inv in Hs as [_ Hs].
  apply elem_of_app in Ht' as [Ht'|[->|Ht']%elem_of_cons].
  - by destruct (Hfirst t' Ht').
  - lia.
  - exact (proj1 (Forall_forall _ _) Hs t' Ht').
Qed.

(** X28: the early buyers are complete below the limit.  When every
    timestamp of the reply is one that the conversion accepts and the
    result has fewer entries than the limit, every wallet that paid for
    a buy of the reply is in the result. *)
Theorem early_buyers_complete txs limit t w :
  (forall t', t' ∈ txs -> StoreInv.timestamp_ok (body t')) ->
  Z.of_nat (length (extract_early_buyers (Reply_list txs) limit)) < limit ->
  t ∈ txs -> bought_by w t -> w <> EmptyString ->
  w ∈ wallet_address <$> extract_early_buyers (Reply_list txs) limit.
Proof.
  intros Hok Hlen Ht Hw Hne. simpl in *.
  apply (collect_complete limit _ [] (fun t' H => Hok t' (proj1 (sort_elem _ _) H))
           Hlen t); [by apply sort_elem|done|done].
Qed.

(** Three transactions of the sample are buys; below a limit of fifty,
    Alice is among the buyers. *)
Lemma early_buyers_complete_witness :
  "AliceWallet"
  ∈ EarlyBuyers.wallet_address
      <$> EarlyBuyers.extract_early_buyers
            (EarlyBuyers.Reply_list Samples.buys_reply) 50.
Proof.
  apply (EarlyBuyersSpec.early_buyers_complete Samples.buys_reply 50
           (EarlyBuyers.mkSignedTx
              (Examples.swap "AliceWallet" (Examples.t0 + 30)) (Some "sig3"))).
  - intros t' Ht' ts Hts. unfold Samples.buys_reply in Ht'.
    repeat (apply elem_of_cons in Ht' as [->|Ht'];
            [injection Hts as <-; vm_compute; split; discriminate|]).
    by apply elem_of_nil in Ht'.
  - vm_compute. reflexivity.
  - right. left.
  - split; reflexivity.
  - discriminate.
Defined.

(** With a limit of zero the first buyer is still returned. *)
Lemma early_buyers_shape_witness :
  Z.of_nat (length (EarlyBuyers.extract_early_buyers
                      (EarlyBuyers.Reply_list Samples.buys_reply) 0)) <= 1.
Proof.
  exact (proj1 (proj2 (EarlyBuyersSpec.early_buyers_shape
                         (EarlyBuyers.Reply_list Samples.buys_reply) 0))).
Defined.

End EarlyBuyersSpec.

(** ** The second step of a discovery run *)

Module PipelineSpec.
Import EarlyBuyers Pipeline.









(** *** The early buyers table *)









End PipelineSpec.
